(** * Page-replacement simulator: a shallow embedding and its properties

    The development follows [PageReplacementAlgorithm.py]: the base class
    [PageReplacementAlgorithm] with its counters, the six replacement
    policies ([FIFO], [LRU], [OPT], [LFU], [SimpleCLOCK], [EnhancedCLOCK]),
    the [for page in page_sequence] loop shared by every [simulate], and the
    sweep [test_page_replacement_algorithms].  The sweep of the GUI
    ([run_all_simulations] in [test.py]) is embedded next to it.

    Python integers are [Z]; lists are [list Z]; the insertion-ordered
    dictionaries [page_time] and [page_frequency] are association lists; the
    per-slot dictionaries [use_bit] and [modify_bit] are [gmap Z bool]; a
    Python [float] is an IEEE 754 binary64 number ([spec_float]).
    Exceptions are an explicit error monad. *)

From Stdlib Require Import ZArith QArith Qabs Qpower Lia Lqa SpecFloat.
From stdpp Require Import gmap list strings fin_maps sorting.

#[local] Open Scope Z_scope.

(** ** Exceptions and the error monad *)

Inductive exn : Set :=
| IndexError
| ValueError
| KeyError
| TypeError
| ZeroDivisionError
| OverflowError
| Diverges.  (* a [while] loop that never exits *)

Inductive result (A : Type) : Type :=
| Ok (a : A)
| Raise (e : exn).
Arguments Ok {A} a.
Arguments Raise {A} e.

#[global] Instance result_ret : MRet result := fun _ a => Ok a.
#[global] Instance result_bind : MBind result := fun _ _ f r =>
  match r with
  | Ok a => f a
  | Raise e => Raise e
  end.

Definition is_ok {A} (r : result A) : bool :=
  match r with Ok _ => true | Raise _ => false end.

(** ** Python list and dictionary primitives *)

Module Py.

(** [len(l)] as a Python integer. *)
Definition len {A} (l : list A) : Z := Z.of_nat (length l).

(** [x in l]. *)
Definition contains (x : Z) (l : list Z) : bool := bool_decide (x ∈ l).

(** [l.remove(x)]: drops the first occurrence, [ValueError] when absent. *)
Fixpoint remove (x : Z) (l : list Z) : result (list Z) :=
  match l with
  | [] => Raise ValueError
  | y :: l' => if bool_decide (y = x) then Ok l'
               else l'' ← remove x l'; Ok (y :: l'')
  end.

(** [l.pop(0)]. *)
Definition pop0 (l : list Z) : result (Z * list Z) :=
  match l with
  | [] => Raise IndexError
  | y :: l' => Ok (y, l')
  end.

(** [l.index(x)]: position of the first occurrence. *)
Fixpoint index (x : Z) (l : list Z) : result Z :=
  match l with
  | [] => Raise ValueError
  | y :: l' => if bool_decide (y = x) then Ok 0
               else i ← index x l'; Ok (i + 1)
  end.

(** [l[i] = x], negative [i] counting from the end. *)
Definition setitem (l : list Z) (i x : Z) : result (list Z) :=
  if bool_decide (0 ≤ i < len l) then Ok (<[Z.to_nat i := x]> l)
  else if bool_decide (- len l ≤ i < 0) then Ok (<[Z.to_nat (len l + i) := x]> l)
  else Raise IndexError.

(** [a % b]. *)
Definition mod_ (a b : Z) : result Z :=
  if bool_decide (b = 0) then Raise ZeroDivisionError else Ok (a `mod` b).

(** A Python [float]: an IEEE 754 binary64 number, with its signed zeros,
    infinities and NaN. *)
Definition float : Type := spec_float.

(** An integer as an operand of [/]: its sign and its magnitude, whatever
    its size and not rounded. *)
Definition int_operand (z : Z) : float :=
  match z with
  | Z0 => S754_zero false
  | Z.pos p => S754_finite false p 0
  | Z.neg p => S754_finite true p 0
  end.

(** [a / b] on integers: [ZeroDivisionError] for a zero divisor; otherwise
    the quotient rounded once to binary64, to nearest with ties to even, and
    [OverflowError] when the rounded quotient is out of range. *)
Definition truediv (a b : Z) : result float :=
  if bool_decide (b = 0) then Raise ZeroDivisionError
  else match SFdiv 53 1024 (int_operand a) (int_operand b) with
       | S754_infinity _ | S754_nan => Raise OverflowError
       | x => Ok x
       end.

(** [{i: False for i in range(n)}]. *)
Definition all_false (n : Z) : gmap Z bool :=
  list_to_map ((fun i : nat => (Z.of_nat i, false)) <$> seq 0 (Z.to_nat n)).

(** [d[k]] on a [gmap]. *)
Definition getbit (d : gmap Z bool) (k : Z) : result bool :=
  match d !! k with
  | Some b => Ok b
  | None => Raise KeyError
  end.

(** Insertion-ordered dictionaries from pages to integers. *)
Definition dict : Type := list (Z * Z).

Fixpoint get (d : dict) (k : Z) : result Z :=
  match d with
  | [] => Raise KeyError
  | (k', v) :: d' => if bool_decide (k' = k) then Ok v else get d' k
  end.

(** [d[k] == v] for a key [k] of [d]. *)
Definition get_is (d : dict) (k v : Z) : bool :=
  match get d k with
  | Ok v' => bool_decide (v' = v)
  | Raise _ => false
  end.

(** [d[k] = v]: an existing key keeps its position, a new one goes last. *)
Fixpoint set (d : dict) (k v : Z) : dict :=
  match d with
  | [] => [(k, v)]
  | (k', v') :: d' => if bool_decide (k' = k) then (k, v) :: d'
                      else (k', v') :: set d' k v
  end.

(** [del d[k]]. *)
Fixpoint del (d : dict) (k : Z) : result dict :=
  match d with
  | [] => Raise KeyError
  | (k', v') :: d' => if bool_decide (k' = k) then Ok d'
                      else d'' ← del d' k; Ok ((k', v') :: d'')
  end.

(** [l.remove(x)] and [del d[x]] where [x] is the result of a search that
    may have returned [None]. *)
Definition remove_value (x : option Z) (l : list Z) : result (list Z) :=
  match x with
  | Some p => remove p l
  | None => Raise ValueError
  end.

Definition del_value (d : dict) (x : option Z) : result dict :=
  match x with
  | Some p => del d p
  | None => Raise KeyError
  end.

Definition keys (d : dict) : list Z := d.*1.
Definition values (d : dict) : list Z := d.*2.

(** [min(l)] over integers: the first minimal element, [ValueError] on
    the empty list. *)
Definition min_list (l : list Z) : result Z :=
  match l with
  | [] => Raise ValueError
  | x :: l' => Ok (fold_left (fun m y => if bool_decide (y < m) then y else m) l' x)
  end.

(** [min(d, key=d.get)]: the first key, in dictionary order, whose value
    is minimal. *)
Definition min_key (d : dict) : result Z :=
  match d with
  | [] => Raise ValueError
  | kv :: d' =>
      Ok (fold_left (fun (m : Z * Z) (kv' : Z * Z) =>
                       if bool_decide (kv'.2 < m.2) then kv' else m) d' kv).1
  end.

End Py.

(** ** The base class [PageReplacementAlgorithm] *)

Module PRA.

Record t : Type := mk {
  frames : Z;
  memory : list Z;
  page_faults : Z;
  page_hits : Z;
  replacements : Z
}.

(** [__init__(self, frames)]. *)
Definition init (frames : Z) : t := mk frames [] 0 0 0.

Definition is_page_in_memory (self : t) (page : Z) : bool :=
  Py.contains page (memory self).

Definition record_page_fault (self : t) : t :=
  mk (frames self) (memory self) (page_faults self + 1) (page_hits self)
     (replacements self).

Definition record_page_hit (self : t) : t :=
  mk (frames self) (memory self) (page_faults self) (page_hits self + 1)
     (replacements self).

Definition get_page_fault_rate (self : t) : result Py.float :=
  Py.truediv (page_faults self) (page_faults self + page_hits self).

Definition get_replacement_rate (self : t) : result Py.float :=
  Py.truediv (replacements self) (page_faults self + page_hits self).

(** [self.memory = m] and [self.replacements += 1], the two other writes
    the subclasses make to inherited attributes. *)
Definition set_memory (self : t) (m : list Z) : t :=
  mk (frames self) m (page_faults self) (page_hits self) (replacements self).

Definition incr_replacements (self : t) : t :=
  mk (frames self) (memory self) (page_faults self) (page_hits self)
     (replacements self + 1).

Definition full (self : t) : bool :=
  bool_decide (Py.len (memory self) = frames self).

End PRA.

(** ** FIFO *)

Module FIFO.

Record t : Type := mk { super : PRA.t; queue : list Z }.

Definition init (frames : Z) : t := mk (PRA.init frames) [].

(** Body of the [for] loop of [FIFO.simulate]. *)
Definition body (self : t) (page : Z) : result t :=
  if negb (PRA.is_page_in_memory (super self) page) then
    let self := mk (PRA.record_page_fault (super self)) (queue self) in
    self ← (if PRA.full (super self) then
               '(oldest, q) ← Py.pop0 (queue self);
               m ← Py.remove oldest (PRA.memory (super self));
               Ok (mk (PRA.incr_replacements (PRA.set_memory (super self) m)) q)
             else Ok self);
    Ok (mk (PRA.set_memory (super self) (PRA.memory (super self) ++ [page]))
           (queue self ++ [page]))
  else
    Ok (mk (PRA.record_page_hit (super self)) (queue self)).

End FIFO.

(** ** LRU *)

Module LRU.

Record t : Type := mk { super : PRA.t; page_time : Py.dict }.

Definition init (frames : Z) : t := mk (PRA.init frames) [].

(** Body of the [for] loop of [LRU.simulate]; [time] is the loop's own
    counter, starting at 0. *)
Definition body (self : t) (time : Z) (page : Z) : result t :=
  if negb (PRA.is_page_in_memory (super self) page) then
    let self := mk (PRA.record_page_fault (super self)) (page_time self) in
    self ← (if PRA.full (super self) then
               oldest_page ← Py.min_key (page_time self);
               m ← Py.remove oldest_page (PRA.memory (super self));
               pt ← Py.del (page_time self) oldest_page;
               Ok (mk (PRA.incr_replacements (PRA.set_memory (super self) m)) pt)
             else Ok self);
    Ok (mk (PRA.set_memory (super self) (PRA.memory (super self) ++ [page]))
           (Py.set (page_time self) page time))
  else
    Ok (mk (PRA.record_page_hit (super self)) (Py.set (page_time self) page time)).

End LRU.

(** ** OPT *)

Module OPT.

Record t : Type := mk { super : PRA.t }.

Definition init (frames : Z) : t := mk (PRA.init frames).

(** The [for page in self.memory] loop of [find_longest_unused_page],
    with its two locals.  [None] is Python's [None]. *)
Fixpoint scan (future_sequence : list Z) (mem : list Z)
    (last_used : Z) (page_to_replace : option Z) : result (option Z) :=
  match mem with
  | [] => Ok page_to_replace
  | page :: mem' =>
      if negb (Py.contains page future_sequence) then Ok (Some page)
      else
        index ← Py.index page future_sequence;
        if bool_decide (index > last_used)
        then scan future_sequence mem' index (Some page)
        else scan future_sequence mem' last_used page_to_replace
  end.

Definition find_longest_unused_page (self : t) (future_sequence : list Z)
    : result (option Z) :=
  scan future_sequence (PRA.memory (super self)) (-1) None.

(** Body of the [for] loop of [OPT.simulate]; [future] is
    [page_sequence[i + 1:]]. *)
Definition body (self : t) (page : Z) (future : list Z) : result t :=
  if negb (PRA.is_page_in_memory (super self) page) then
    let self := mk (PRA.record_page_fault (super self)) in
    self ← (if PRA.full (super self) then
               longest_unused_page ← find_longest_unused_page self future;
               m ← Py.remove_value longest_unused_page (PRA.memory (super self));
               Ok (mk (PRA.incr_replacements (PRA.set_memory (super self) m)))
             else Ok self);
    Ok (mk (PRA.set_memory (super self) (PRA.memory (super self) ++ [page])))
  else
    Ok (mk (PRA.record_page_hit (super self))).

End OPT.

(** ** LFU *)

Module LFU.

Record t : Type := mk { super : PRA.t; page_frequency : Py.dict }.

Definition init (frames : Z) : t := mk (PRA.init frames) [].

(** [for page in self.memory: if page in least_frequent_pages: return page];
    falling off the loop returns [None]. *)
Fixpoint first_member (mem : list Z) (least_frequent_pages : list Z) : option Z :=
  match mem with
  | [] => None
  | page :: mem' =>
      if Py.contains page least_frequent_pages then Some page
      else first_member mem' least_frequent_pages
  end.

Definition find_least_frequent_page (self : t) : result (option Z) :=
  least_used ← Py.min_list (Py.values (page_frequency self));
  let least_frequent_pages :=
    filter (fun page => Py.get_is (page_frequency self) page least_used)
           (Py.keys (page_frequency self)) in
  Ok (first_member (PRA.memory (super self)) least_frequent_pages).

(** Body of the [for] loop of [LFU.simulate]. *)
Definition body (self : t) (page : Z) : result t :=
  if negb (PRA.is_page_in_memory (super self) page) then
    let self := mk (PRA.record_page_fault (super self)) (page_frequency self) in
    self ← (if PRA.full (super self) then
               least_frequent_page ← find_least_frequent_page self;
               m ← Py.remove_value least_frequent_page (PRA.memory (super self));
               pf ← Py.del_value (page_frequency self) least_frequent_page;
               Ok (mk (PRA.incr_replacements (PRA.set_memory (super self) m)) pf)
             else Ok self);
    Ok (mk (PRA.set_memory (super self) (PRA.memory (super self) ++ [page]))
           (Py.set (page_frequency self) page 1))
  else
    let self := mk (PRA.record_page_hit (super self)) (page_frequency self) in
    f ← Py.get (page_frequency self) page;
    Ok (mk (super self) (Py.set (page_frequency self) page (f + 1))).

End LFU.

(** ** SimpleCLOCK *)

Module SimpleCLOCK.

Record t : Type := mk { super : PRA.t; use_bit : gmap Z bool; hand : Z }.

Definition init (frames : Z) : t :=
  mk (PRA.init frames) (Py.all_false frames) 0.

(** [while self.use_bit[self.hand]: ...].  Every iteration turns one true
    bit false, so the loop runs at most [size use_bit] times before its
    test fails; [fuel] counts the tests that remain. *)
Fixpoint sweep (fuel : nat) (frames : Z) (use_bit : gmap Z bool) (hand : Z)
    : result (gmap Z bool * Z) :=
  match fuel with
  | O => Raise Diverges
  | S fuel' =>
      b ← Py.getbit use_bit hand;
      if b : bool then
        hand' ← Py.mod_ (hand + 1) frames;
        sweep fuel' frames (<[hand := false]> use_bit) hand'
      else Ok (use_bit, hand)
  end.

(** Body of the [for] loop of [SimpleCLOCK.simulate]. *)
Definition body (self : t) (page : Z) : result t :=
  if negb (PRA.is_page_in_memory (super self) page) then
    let self := mk (PRA.record_page_fault (super self)) (use_bit self) (hand self) in
    '(ub, h) ← sweep (S (size (use_bit self))) (PRA.frames (super self))
                     (use_bit self) (hand self);
    let self := mk (super self) ub h in
    self ← (if PRA.full (super self) then
               m ← Py.setitem (PRA.memory (super self)) (hand self) page;
               Ok (mk (PRA.incr_replacements (PRA.set_memory (super self) m))
                      (use_bit self) (hand self))
             else
               Ok (mk (PRA.set_memory (super self) (PRA.memory (super self) ++ [page]))
                      (use_bit self) (hand self)));
    Ok (mk (super self) (<[hand self := true]> (use_bit self)) (hand self))
  else
    let self := mk (PRA.record_page_hit (super self)) (use_bit self) (hand self) in
    page_index ← Py.index page (PRA.memory (super self));
    Ok (mk (super self) (<[page_index := true]> (use_bit self)) (hand self)).

End SimpleCLOCK.

(** ** EnhancedCLOCK *)

Module EnhancedCLOCK.

Record t : Type := mk {
  super : PRA.t;
  use_bit : gmap Z bool;
  modify_bit : gmap Z bool;
  hand : Z
}.

Definition init (frames : Z) : t :=
  mk (PRA.init frames) (Py.all_false frames) (Py.all_false frames) 0.

(** [while not replaced: ...].  The hand walks a cycle of at most
    [size use_bit] slots; after one round every use bit on the cycle is
    false, so a loop still running after two rounds has met only set
    modify bits and never exits.  [fuel] counts the iterations left. *)
Fixpoint place (fuel : nat) (self : t) (page : Z) : result t :=
  match fuel with
  | O => Raise Diverges
  | S fuel' =>
      u ← Py.getbit (use_bit self) (hand self);
      free ← (if negb u then m ← Py.getbit (modify_bit self) (hand self); Ok (negb m)
              else Ok false);
      if free : bool then
        sup ← (if PRA.full (super self) then
                  m ← Py.setitem (PRA.memory (super self)) (hand self) page;
                  Ok (PRA.incr_replacements (PRA.set_memory (super self) m))
                else
                  Ok (PRA.set_memory (super self) (PRA.memory (super self) ++ [page])));
        let mb := <[hand self := false]> (modify_bit self) in
        hand' ← Py.mod_ (hand self + 1) (PRA.frames sup);
        Ok (mk sup (use_bit self) mb hand')
      else
        let ub := <[hand self := false]> (use_bit self) in
        hand' ← Py.mod_ (hand self + 1) (PRA.frames (super self));
        place fuel' (mk (super self) ub (modify_bit self) hand') page
  end.

(** Body of the [for] loop of [EnhancedCLOCK.simulate]. *)
Definition body (self : t) (page : Z) : result t :=
  if negb (PRA.is_page_in_memory (super self) page) then
    let self := mk (PRA.record_page_fault (super self)) (use_bit self)
                   (modify_bit self) (hand self) in
    self ← place (S (2 * size (use_bit self))) self page;
    Ok (mk (super self) (<[hand self := true]> (use_bit self))
           (modify_bit self) (hand self))
  else
    let self := mk (PRA.record_page_hit (super self)) (use_bit self)
                   (modify_bit self) (hand self) in
    page_index ← Py.index page (PRA.memory (super self));
    Ok (mk (super self) (<[page_index := true]> (use_bit self))
           (modify_bit self) (hand self)).

End EnhancedCLOCK.

(** ** The policies behind one interface *)

(** One line of the log: [f"{counter}: {name} - Memory state: {memory}\n"],
    kept as its three fields. *)
Record step_record : Type := mk_record {
  seq_no : Z;
  policy_name : string;
  snapshot : list Z
}.

(** A subclass of [PageReplacementAlgorithm]: its instances, the inherited
    attributes, [__name__], the constructor, and the body of the loop of its
    [simulate], which receives the index [i] of the request, the page and
    [page_sequence[i + 1:]]. *)
Record Policy : Type := mk_policy {
  state : Type;
  attrs : state → PRA.t;
  class_name : string;
  new : Z → state;
  on_reference : state → Z → Z → list Z → result state
}.

Inductive alg_class : Set :=
| cFIFO | cLRU | cOPT | cLFU | cSimpleCLOCK | cEnhancedCLOCK.

Definition policy_of (c : alg_class) : Policy :=
  match c with
  | cFIFO => mk_policy FIFO.t FIFO.super "FIFO" FIFO.init
               (fun self _ page _ => FIFO.body self page)
  | cLRU => mk_policy LRU.t LRU.super "LRU" LRU.init
               (fun self i page _ => LRU.body self i page)
  | cOPT => mk_policy OPT.t OPT.super "OPT" OPT.init
               (fun self _ page future => OPT.body self page future)
  | cLFU => mk_policy LFU.t LFU.super "LFU" LFU.init
               (fun self _ page _ => LFU.body self page)
  | cSimpleCLOCK => mk_policy SimpleCLOCK.t SimpleCLOCK.super "SimpleCLOCK"
               SimpleCLOCK.init (fun self _ page _ => SimpleCLOCK.body self page)
  | cEnhancedCLOCK => mk_policy EnhancedCLOCK.t EnhancedCLOCK.super "EnhancedCLOCK"
               EnhancedCLOCK.init (fun self _ page _ => EnhancedCLOCK.body self page)
  end.

Section Simulate.

Variable P : Policy.

(** [for page in page_sequence: ...; file.write(...)], from request
    number [i] on. *)
Fixpoint loop (self : state P) (i : Z) (page_sequence : list Z)
    (file : list step_record) : result (state P * list step_record) :=
  match page_sequence with
  | [] => Ok (self, file)
  | page :: rest =>
      self ← on_reference P self i page rest;
      loop self (i + 1) rest
           (file ++ [mk_record (i + 1) (class_name P) (PRA.memory (attrs P self))])
  end.

Definition simulate (self : state P) (page_sequence : list Z)
    (file : list step_record) : result (state P * list step_record) :=
  loop self 0 page_sequence file.

(** The same loop left after [n] requests: the instance as it stands
    between two iterations. *)
Fixpoint loop_upto (n : nat) (self : state P) (i : Z) (page_sequence : list Z)
    : result (state P) :=
  match n, page_sequence with
  | S n', page :: rest =>
      self ← on_reference P self i page rest;
      loop_upto n' self (i + 1) rest
  | _, _ => Ok self
  end.

Definition after_steps (n : nat) (frames : Z) (page_sequence : list Z)
    : result (state P) :=
  loop_upto n (new P frames) 0 page_sequence.

(** Whether request number [k] (from 1) finds its page resident. *)
Definition is_hit (k : nat) (frames : Z) (page_sequence : list Z) : result bool :=
  self ← after_steps (k - 1) frames page_sequence;
  match page_sequence !! (k - 1)%nat with
  | Some page => Ok (PRA.is_page_in_memory (attrs P self) page)
  | None => Raise IndexError
  end.

End Simulate.

(** A fresh instance run over a whole sequence: [alg = alg_class(frames)]
    followed by [alg.simulate(page_sequence, file)]. *)
Definition run (c : alg_class) (frames : Z) (page_sequence : list Z)
    : result (PRA.t * list step_record) :=
  '(self, file) ← simulate (policy_of c) (new (policy_of c) frames) page_sequence [];
  Ok (attrs (policy_of c) self, file).

(** ** The sweeps over frame counts and policies *)

(** What a key of [results] can hold: a list, or the dictionary
    [{'page_fault_rates': [...], 'replacement_rates': [...]}]. *)
Inductive pyvalue : Type :=
| VList (items : list Py.float)
| VRates (page_fault_rates replacement_rates : list Py.float).

Module Sweep.

(** [v[key]] for a string [key], as a reference to the list stored there:
    the list and the way to put its update back.  A list cannot be
    indexed by a string. *)
Definition subscript (v : pyvalue) (key : string)
    : result (list Py.float * (list Py.float → pyvalue)) :=
  match v with
  | VList _ => Raise TypeError
  | VRates pf rr =>
      if bool_decide (key = "page_fault_rates") then Ok (pf, fun l => VRates l rr)
      else if bool_decide (key = "replacement_rates") then Ok (rr, fun l => VRates pf l)
      else Raise KeyError
  end.

(** [results[name][key].append(rate())]: the target list is looked up
    before the argument is evaluated. *)
Definition append_rate (results : gmap string pyvalue) (name key : string)
    (rate : result Py.float) : result (gmap string pyvalue) :=
  v ← (match results !! name with Some v => Ok v | None => Raise KeyError end);
  '(l, put) ← subscript v key;
  x ← rate;
  Ok (<[name := put (l ++ [x])]> results).

(** [{alg.__name__: v for alg in algorithms}]. *)
Definition fresh_results (v : pyvalue) (algorithms : list alg_class)
    : gmap string pyvalue :=
  list_to_map ((fun c => (class_name (policy_of c), v)) <$> algorithms).

(** The inner loop [for alg_class in algorithms], sharing one [file]. *)
Fixpoint for_algorithms (algorithms : list alg_class) (frames : Z)
    (page_sequence : list Z) (results : gmap string pyvalue)
    (file : list step_record) : result (gmap string pyvalue * list step_record) :=
  match algorithms with
  | [] => Ok (results, file)
  | alg_class :: rest =>
      let P := policy_of alg_class in
      '(alg, file) ← simulate P (new P frames) page_sequence file;
      results ← append_rate results (class_name P) "page_fault_rates"
                  (PRA.get_page_fault_rate (attrs P alg));
      results ← append_rate results (class_name P) "replacement_rates"
                  (PRA.get_replacement_rate (attrs P alg));
      for_algorithms rest frames page_sequence results file
  end.

(** The outer loop [for frames in frame_counts]. *)
Fixpoint for_frame_counts (algorithms : list alg_class) (frame_counts : list Z)
    (page_sequence : list Z) (results : gmap string pyvalue)
    (file : list step_record) : result (gmap string pyvalue * list step_record) :=
  match frame_counts with
  | [] => Ok (results, file)
  | frames :: rest =>
      '(results, file) ← for_algorithms algorithms frames page_sequence results file;
      for_frame_counts algorithms rest page_sequence results file
  end.

End Sweep.

(** [test_page_replacement_algorithms], whose [results] starts with an empty
    list under every name. *)
Definition test_page_replacement_algorithms (algorithms : list alg_class)
    (page_sequence : list Z) (frame_counts : list Z) (file : list step_record)
    : result (gmap string pyvalue * list step_record) :=
  let results := Sweep.fresh_results (VList []) algorithms in
  Sweep.for_frame_counts algorithms frame_counts page_sequence results file.

(** The two nested loops of [run_all_simulations] in [test.py], whose
    [results] starts with the two empty rate lists under every name.  Each
    run writes to a [StringIO] of its own; the log plays no part in the
    rates and is dropped. *)
Definition run_all_simulations (algorithms : list alg_class)
    (page_sequence : list Z) (frame_counts : list Z)
    : result (gmap string pyvalue) :=
  let results := Sweep.fresh_results (VRates [] []) algorithms in
  '(results, _) ← Sweep.for_frame_counts algorithms frame_counts page_sequence results [];
  Ok results.

(** * Specification vocabulary *)

(** ** What one request does to the inherited attributes *)

(** A hit only counts itself. *)
Definition hit_effect (a a' : PRA.t) : Prop :=
  a' = PRA.record_page_hit a.

(** A fault counts itself; into a full memory it replaces one page, keeping
    the number of resident pages, otherwise it appends the page. *)
Definition fault_effect (page : Z) (a a' : PRA.t) : Prop :=
  PRA.frames a' = PRA.frames a ∧
  PRA.page_faults a' = PRA.page_faults a + 1 ∧
  PRA.page_hits a' = PRA.page_hits a ∧
  if PRA.full a
  then PRA.replacements a' = PRA.replacements a + 1 ∧
       length (PRA.memory a') = length (PRA.memory a) ∧
       page ∈ PRA.memory a'
  else PRA.replacements a' = PRA.replacements a ∧
       PRA.memory a' = PRA.memory a ++ [page].

(** Installing a page without counting a fault: what the loop of
    [EnhancedCLOCK] does once it has found its slot. *)
Definition install_effect (page : Z) (a a' : PRA.t) : Prop :=
  PRA.frames a' = PRA.frames a ∧
  PRA.page_faults a' = PRA.page_faults a ∧
  PRA.page_hits a' = PRA.page_hits a ∧
  if PRA.full a
  then PRA.replacements a' = PRA.replacements a + 1 ∧
       length (PRA.memory a') = length (PRA.memory a) ∧
       page ∈ PRA.memory a'
  else PRA.replacements a' = PRA.replacements a ∧
       PRA.memory a' = PRA.memory a ++ [page].

Definition request_effect (page : Z) (a a' : PRA.t) : Prop :=
  if PRA.is_page_in_memory a page then hit_effect a a' else fault_effect page a a'.

(** The capacity is positive and respected. *)
Definition within_capacity (a : PRA.t) : Prop :=
  1 ≤ PRA.frames a ∧ Py.len (PRA.memory a) ≤ PRA.frames a.

(** A policy whose loop body, from any instance satisfying [Inv], raises
    nothing, keeps [Inv] and has the effect above on the attributes. *)
Record Lawful (P : Policy) (Inv : state P → Prop) : Prop := mk_lawful {
  new_attrs : ∀ frames, attrs P (new P frames) = PRA.init frames;
  inv_new : ∀ frames, 1 ≤ frames → Inv (new P frames);
  inv_capacity : ∀ self, Inv self → within_capacity (attrs P self);
  inv_request : ∀ self i page future,
    Inv self →
    ∃ self', on_reference P self i page future = Ok self' ∧ Inv self' ∧
             request_effect page (attrs P self) (attrs P self')
}.

(** ** The invariant of each policy *)

(** The slots of a clock dictionary are exactly [0 .. frames - 1]. *)
Definition slots_of (frames : Z) (bits : gmap Z bool) : Prop :=
  ∀ k, is_Some (bits !! k) ↔ 0 ≤ k < frames.

(** The number of set bits, the measure of the clock sweeps. *)
Definition set_bits (bits : gmap Z bool) : nat :=
  size (filter (fun kv : Z * bool => kv.2 = true) bits).

Definition FIFO_inv (self : FIFO.t) : Prop :=
  within_capacity (FIFO.super self) ∧
  FIFO.queue self = PRA.memory (FIFO.super self) ∧
  NoDup (PRA.memory (FIFO.super self)).

Definition LRU_inv (self : LRU.t) : Prop :=
  within_capacity (LRU.super self) ∧
  Py.keys (LRU.page_time self) = PRA.memory (LRU.super self) ∧
  NoDup (PRA.memory (LRU.super self)).

Definition OPT_inv (self : OPT.t) : Prop :=
  within_capacity (OPT.super self) ∧
  NoDup (PRA.memory (OPT.super self)).

Definition LFU_inv (self : LFU.t) : Prop :=
  within_capacity (LFU.super self) ∧
  Py.keys (LFU.page_frequency self) = PRA.memory (LFU.super self) ∧
  NoDup (PRA.memory (LFU.super self)).

Definition SimpleCLOCK_inv (self : SimpleCLOCK.t) : Prop :=
  within_capacity (SimpleCLOCK.super self) ∧
  slots_of (PRA.frames (SimpleCLOCK.super self)) (SimpleCLOCK.use_bit self) ∧
  0 ≤ SimpleCLOCK.hand self < PRA.frames (SimpleCLOCK.super self).

Definition EnhancedCLOCK_inv (self : EnhancedCLOCK.t) : Prop :=
  within_capacity (EnhancedCLOCK.super self) ∧
  slots_of (PRA.frames (EnhancedCLOCK.super self)) (EnhancedCLOCK.use_bit self) ∧
  EnhancedCLOCK.modify_bit self = Py.all_false (PRA.frames (EnhancedCLOCK.super self)) ∧
  0 ≤ EnhancedCLOCK.hand self < PRA.frames (EnhancedCLOCK.super self).

Definition invariant (c : alg_class) : state (policy_of c) → Prop :=
  match c with
  | cFIFO => FIFO_inv
  | cLRU => LRU_inv
  | cOPT => OPT_inv
  | cLFU => LFU_inv
  | cSimpleCLOCK => SimpleCLOCK_inv
  | cEnhancedCLOCK => EnhancedCLOCK_inv
  end.

(** ** Bookkeeping touched by a hit *)

(** What a hit on [page], request number [i], does to the attributes a
    policy adds to the base class: the last access time for LRU, the
    frequency for LFU, the use bit of the page's slot for the clocks, and
    nothing for FIFO and OPT. *)
Definition hit_bookkeeping (c : alg_class)
    : state (policy_of c) → Z → Z → state (policy_of c) → Prop :=
  match c with
  | cFIFO => fun self _ _ self' => FIFO.queue self' = FIFO.queue self
  | cLRU => fun self i page self' =>
      LRU.page_time self' = Py.set (LRU.page_time self) page i
  | cOPT => fun _ _ _ _ => True
  | cLFU => fun self _ page self' =>
      ∃ f, Py.get (LFU.page_frequency self) page = Ok f ∧
           LFU.page_frequency self' = Py.set (LFU.page_frequency self) page (f + 1)
  | cSimpleCLOCK => fun self _ page self' =>
      SimpleCLOCK.hand self' = SimpleCLOCK.hand self ∧
      ∃ slot, Py.index page (PRA.memory (SimpleCLOCK.super self)) = Ok slot ∧
              SimpleCLOCK.use_bit self' = <[slot := true]> (SimpleCLOCK.use_bit self)
  | cEnhancedCLOCK => fun self _ page self' =>
      EnhancedCLOCK.hand self' = EnhancedCLOCK.hand self ∧
      EnhancedCLOCK.modify_bit self' = EnhancedCLOCK.modify_bit self ∧
      ∃ slot, Py.index page (PRA.memory (EnhancedCLOCK.super self)) = Ok slot ∧
              EnhancedCLOCK.use_bit self' = <[slot := true]> (EnhancedCLOCK.use_bit self)
  end.

(** ** When a page entered the memory *)

(** Request number [k] (from 0) of a run of [P] is a fault on [p]. *)
Definition faults_at (P : Policy) (frames : Z) (page_sequence : list Z)
    (k : nat) (p : Z) : Prop :=
  page_sequence !! k = Some p ∧
  ∃ self, after_steps P k frames page_sequence = Ok self ∧
          p ∉ PRA.memory (attrs P self).

(** Before request number [n], page [p] was last brought in by request
    number [k]. *)
Definition inserted_at (P : Policy) (frames : Z) (page_sequence : list Z)
    (n : nat) (p : Z) (k : nat) : Prop :=
  (k < n)%nat ∧ faults_at P frames page_sequence k p ∧
  ∀ j, (k < j < n)%nat → ¬ faults_at P frames page_sequence j p.

(** ** A single frame *)

(** With one frame the counters of an instance are tied together: nothing
    has happened yet, or every fault but the first was a replacement. *)
Definition single_frame_inv (a : PRA.t) : Prop :=
  PRA.frames a = 1 ∧
  ((PRA.memory a = [] ∧ PRA.page_faults a = 0 ∧ PRA.replacements a = 0) ∨
   (length (PRA.memory a) = 1%nat ∧ PRA.replacements a = PRA.page_faults a - 1)).

(** ** The trace of the worked examples *)

Definition example_trace : list Z := [1; 2; 3; 4; 1; 2; 5; 1; 2; 3; 4; 5].


(** ** The next request for a page *)

(** Counting from the head of [future], page [p] is next requested at
    position [k]: request [k] is for [p] and no earlier one is. *)
Definition next_use (future : list Z) (p : Z) (k : nat) : Prop :=
  future !! k = Some p ∧ ∀ j, (j < k)%nat → future !! j ≠ Some p.

(** ** Floats as numbers *)

(** The rational a finite float stands for, [± m · 2 ^ e]. *)
Definition float_value (x : Py.float) : Q :=
  match x with
  | S754_finite s m e => (inject_Z (cond_Zopp s (Z.pos m)) * 2 ^ e)%Q
  | _ => 0%Q
  end.

(** The finite binary64 numbers: a zero, or a mantissa of at most 53 bits
    with its canonical exponent in range. *)
Definition is_binary64 (x : Py.float) : Prop :=
  match x with
  | S754_zero _ => True
  | S754_finite _ m e => bounded 53 1024 m e = true
  | _ => False
  end.

(** [x] is a binary64 number as near to [q] as any. *)
Definition nearest_binary64 (q : Q) (x : Py.float) : Prop :=
  is_binary64 x ∧
  ∀ y, is_binary64 y → (Qabs (float_value x - q) <= Qabs (float_value y - q))%Q.

(** Where the fraction [N / D] lies between the integers [m] and [m + 1]:
    on [m], below the middle, on it, or above it. *)
Definition inbetween (N D m : Z) (l : location) : Prop :=
  match l with
  | loc_Exact => N = m * D
  | loc_Inexact Lt => m * D < N ∧ 2 * N < (2 * m + 1) * D
  | loc_Inexact Eq => 2 * N = (2 * m + 1) * D
  | loc_Inexact Gt => (2 * m + 1) * D < 2 * N ∧ N < (m + 1) * D
  end.

(** * Further vocabulary *)

(** ** How a request changes the memory *)

(** A hit leaves the list as it is.  A fault appends the page, or takes one
    page out and either appends the new page (FIFO, LRU, OPT, LFU) or writes
    it into the freed slot (the two clocks). *)
Definition memory_step (page : Z) (mem mem' : list Z) : Prop :=
  if Py.contains page mem then mem' = mem
  else mem' = mem ++ [page] ∨
       ∃ before victim after,
         mem = before ++ victim :: after ∧
         (mem' = before ++ after ++ [page] ∨ mem' = before ++ page :: after).

(** The same for the four policies that keep the memory as a queue: the new
    page always goes to the end. *)
Definition memory_append_step (page : Z) (mem mem' : list Z) : Prop :=
  if Py.contains page mem then mem' = mem
  else mem' = mem ++ [page] ∨
       ∃ before victim after,
         mem = before ++ victim :: after ∧ mem' = before ++ after ++ [page].

(** Before request number [n], page [p] was last requested by request
    number [k]. *)
Definition last_referenced (page_sequence : list Z) (n : nat) (p : Z) (k : nat) : Prop :=
  (k < n)%nat ∧ page_sequence !! k = Some p ∧
  ∀ j, (k < j < n)%nat → page_sequence !! j ≠ Some p.

(** ** The pages of a sequence *)

(** The distinct pages of a sequence, in the order of their first request. *)
Definition distinct_pages (page_sequence : list Z) : list Z :=
  fold_left (fun seen page => if Py.contains page seen then seen else seen ++ [page])
            page_sequence [].

(** The inherited attributes of an instance that has taken [served]
    requests without ever replacing a page: every distinct page was a fault
    and is resident, every other request was a hit. *)
Definition grown (frames : Z) (served : list Z) : PRA.t :=
  PRA.mk frames (distinct_pages served)
         (Py.len (distinct_pages served))
         (Py.len served - Py.len (distinct_pages served))
         0.

(** ** Failing capacities *)

(** The exception each policy meets at its first request when it was given
    no frame: the empty [queue.pop(0)] of FIFO, the [min] over an empty
    dictionary of LRU and LFU, the [remove(None)] of OPT, the missing slot 0
    of the clocks. *)
Definition no_frame_error (c : alg_class) : exn :=
  match c with
  | cFIFO => IndexError
  | cLRU | cOPT | cLFU => ValueError
  | cSimpleCLOCK | cEnhancedCLOCK => KeyError
  end.

(** Negative capacities under which the four list policies still run. *)
Definition unbounded_inv (c : alg_class) : state (policy_of c) → Prop :=
  match c with
  | cLFU => fun self =>
      PRA.frames (LFU.super self) < 0 ∧
      Py.keys (LFU.page_frequency self) = PRA.memory (LFU.super self)
  | c => fun self => PRA.frames (attrs (policy_of c) self) < 0
  end.

Definition is_clock (c : alg_class) : bool :=
  match c with
  | cSimpleCLOCK | cEnhancedCLOCK => true
  | _ => false
  end.

(** ** Clock slots *)

(** The slot [j] places after [hand], going round the [frames] slots. *)
Definition slot_after (frames hand : Z) (j : nat) : Z :=
  (hand + Z.of_nat j) `mod` frames.

(** What a sweep that passed [k] slots from [hand] made of the use bits
    [bits]: every slot passed had its bit set and has it cleared, no slot
    was passed twice, and every other slot is as it was. *)
Definition swept (frames hand : Z) (k : nat) (bits bits' : gmap Z bool) : Prop :=
  (∀ j : nat, (j < k)%nat → bits !! slot_after frames hand j = Some true) ∧
  (∀ j1 j2 : nat, (j1 < k)%nat → (j2 < k)%nat →
     slot_after frames hand j1 = slot_after frames hand j2 → j1 = j2) ∧
  (∀ j : nat, (j < k)%nat → bits' !! slot_after frames hand j = Some false) ∧
  (∀ s, (∀ j : nat, (j < k)%nat → s ≠ slot_after frames hand j) → bits' !! s = bits !! s).

(** ** The rates of one run *)

(** The pair the sweeps record for one policy and one frame count: both
    rates of a fresh instance run over the sequence. *)
Definition rates_of (c : alg_class) (frames : Z) (page_sequence : list Z)
    : result (Py.float * Py.float) :=
  '(a, _) ← run c frames page_sequence;
  fault_rate ← PRA.get_page_fault_rate a;
  replacement_rate ← PRA.get_replacement_rate a;
  Ok (fault_rate, replacement_rate).

(** ** The random page sequence *)

(** [random.randint(a, b)] over a generator state of type [G]: what the
    library promises of it.  It returns an integer of [a..b], and raises
    [ValueError] when that range is empty. *)
Definition randint_law {G : Type} (randint : Z → Z → G → result (Z * G)) : Prop :=
  ∀ a b g,
    if bool_decide (a ≤ b)
    then ∃ x g', randint a b g = Ok (x, g') ∧ a ≤ x ≤ b
    else randint a b g = Raise ValueError.

(** [[random.randint(1, upper_bound) for _ in range(n)]]: [n] draws in a
    row, the first that raises ending the comprehension. *)
Fixpoint draws {G : Type} (randint : Z → Z → G → result (Z * G)) (n : nat)
    (upper_bound : Z) (g : G) : result (list Z * G) :=
  match n with
  | O => Ok ([], g)
  | S n' =>
      '(page, g) ← randint 1 upper_bound g;
      '(rest, g) ← draws randint n' upper_bound g;
      Ok (page :: rest, g)
  end.

(** [generate_page_sequence(size, upper_bound)]; [range(size)] is empty for
    a [size] below one. *)
Definition generate_page_sequence {G : Type} (randint : Z → Z → G → result (Z * G))
    (size upper_bound : Z) (g : G) : result (list Z * G) :=
  draws randint (Z.to_nat size) upper_bound g.

(** A generator to run the above on: it walks through the range. *)
Definition counter_randint (a b : Z) (g : Z) : result (Z * Z) :=
  if bool_decide (a ≤ b) then Ok (a + g `mod` (b - a + 1), g + 1)
  else Raise ValueError.

(** ** Calling [simulate] again *)

(** The policies whose loop body looks at neither the index of the request
    nor the requests to come: all but [LRU], which stamps a page with the
    index, and [OPT], which scans the rest of the sequence. *)
Definition index_free (c : alg_class) : bool :=
  match c with
  | cLRU | cOPT => false
  | cFIFO | cLFU | cSimpleCLOCK | cEnhancedCLOCK => true
  end.

(** A record with its number counted from [d] requests later. *)
Definition renumber (d : Z) (r : step_record) : step_record :=
  mk_record (seq_no r - d) (policy_name r) (snapshot r).

(** ** Counting requests *)

(** How many of the requests number [k] to [n - 1] (from 0) are for [p]. *)
Definition requests_between (page_sequence : list Z) (k n : nat) (p : Z) : Z :=
  Py.len (filter (fun q => q = p) (drop k (take n page_sequence))).

(** * Supporting lemmas *)

(** ** The error monad *)

Lemma bind_ok {A B} (r : result A) (f : A → result B) (b : B) :
  r ≫= f = Ok b ↔ ∃ a, r = Ok a ∧ f a = Ok b.
Proof.
  destruct r as [a|e]; simpl.
  - split; [eauto | intros (a' & [= <-] & H); exact H].
  - split; [discriminate | intros (a' & [=] & _)].
Qed.

Lemma bind_ok_l {A B} (a : A) (f : A → result B) : Ok a ≫= f = f a.
Proof. reflexivity. Qed.

(** ** Python lists *)

Section PyLists.

Implicit Types (x y page : Z) (l : list Z).

Lemma contains_true x l : Py.contains x l = true ↔ x ∈ l.
Proof. unfold Py.contains. apply bool_decide_eq_true. Qed.

Lemma contains_false x l : Py.contains x l = false ↔ x ∉ l.
Proof. unfold Py.contains. apply bool_decide_eq_false. Qed.

Lemma len_nonneg {A} (l : list A) : 0 ≤ Py.len l.
Proof. unfold Py.len. lia. Qed.

Lemma len_app_one l x : Py.len (l ++ [x]) = Py.len l + 1.
Proof. unfold Py.len. rewrite length_app. simpl. lia. Qed.

(** [remove] succeeds exactly on a member, and yields a sublist one
    element shorter. *)
Lemma remove_member x l :
  x ∈ l →
  ∃ l', Py.remove x l = Ok l' ∧ length l = S (length l') ∧
        (∀ y, y ∈ l' → y ∈ l) ∧ (NoDup l → NoDup l' ∧ x ∉ l').
Proof.
  induction l as [|y l IH]; intros Hin; [by apply elem_of_nil in Hin|].
  simpl. case_bool_decide as Hy.
  - subst y. exists l. split_and!; [done|done|set_solver|].
    intros [? ?]%NoDup_cons; done.
  - apply elem_of_cons in Hin as [->|Hin]; [done|].
    destruct (IH Hin) as (l' & -> & Hlen & Hsub & Hnd). simpl.
    exists (y :: l'). split_and!; [done|simpl; lia|set_solver|].
    intros [Hy' Hl]%NoDup_cons. destruct (Hnd Hl) as [? ?].
    split; [apply NoDup_cons; set_solver|set_solver].
Qed.

Lemma remove_absent x l : x ∉ l → Py.remove x l = Raise ValueError.
Proof.
  induction l as [|y l IH]; intros Hin; [done|].
  simpl. apply not_elem_of_cons in Hin as [? ?].
  rewrite bool_decide_eq_false_2 by done. by rewrite IH.
Qed.

Lemma index_member x l :
  x ∈ l →
  ∃ i, Py.index x l = Ok i ∧ 0 ≤ i < Py.len l ∧ l !! Z.to_nat i = Some x.
Proof.
  unfold Py.len.
  induction l as [|y l IH]; intros Hin; [by apply elem_of_nil in Hin|].
  simpl. case_bool_decide as Hy.
  - subst y. exists 0. split_and!; [done|lia|lia|done].
  - apply elem_of_cons in Hin as [->|Hin]; [done|].
    destruct (IH Hin) as (i & -> & Hi & Hl). simpl.
    exists (i + 1). split_and!; [done|lia|lia|].
    replace (Z.to_nat (i + 1)) with (S (Z.to_nat i)) by lia. done.
Qed.

Lemma setitem_in_range l i x :
  0 ≤ i < Py.len l → Py.setitem l i x = Ok (<[Z.to_nat i := x]> l).
Proof. intros Hi. unfold Py.setitem. by rewrite bool_decide_eq_true_2. Qed.

Lemma full_true (a : PRA.t) : PRA.full a = true ↔ Py.len (PRA.memory a) = PRA.frames a.
Proof. unfold PRA.full. apply bool_decide_eq_true. Qed.

Lemma full_false (a : PRA.t) : PRA.full a = false ↔ Py.len (PRA.memory a) ≠ PRA.frames a.
Proof. unfold PRA.full. apply bool_decide_eq_false. Qed.

End PyLists.

(** ** FIFO keeps its invariant *)

Lemma FIFO_lawful : Lawful (policy_of cFIFO) FIFO_inv.
Proof.
  split; simpl.
  - done.
  - intros frames Hf. repeat split; simpl; [done|unfold Py.len; simpl; lia|constructor].
  - by intros self (? & _).
  - intros [a q] _ page _ ((Hf & Hlen) & Hq & Hnd). simpl in *. subst q.
    unfold FIFO.body, request_effect, PRA.is_page_in_memory. simpl.
    destruct (Py.contains page (PRA.memory a)) eqn:Hin; simpl.
    + eexists. split; [done|]. split; [|done]. by repeat split.
    + apply contains_false in Hin.
      unfold fault_effect, PRA.full. simpl.
      case_bool_decide as Hfull; simpl.
      * destruct a as [frames [|old m] pf ph rp]; simpl in *.
        { unfold Py.len in Hfull. simpl in Hfull. lia. }
        rewrite bool_decide_eq_true_2 by done. simpl.
        apply NoDup_cons in Hnd as [Hold Hnd].
        apply not_elem_of_cons in Hin as [Hne Hin].
        eexists. split; [done|]. simpl. split.
        -- repeat split; simpl.
           ++ done.
           ++ rewrite len_app_one. unfold Py.len in *. simpl in *. lia.
           ++ apply NoDup_app. split_and!; [done|set_solver|apply NoDup_singleton].
        -- split_and!; [done..| |set_solver].
           rewrite length_app. simpl. lia.
      * eexists. split; [done|]. simpl. split.
        -- repeat split; simpl; [done|rewrite len_app_one; lia|].
           apply NoDup_app. split_and!; [done|set_solver|apply NoDup_singleton].
        -- by split_and!.
Qed.

(** ** Insertion-ordered dictionaries *)

Section PyDicts.

Implicit Types (k v : Z) (d : Py.dict).

Lemma keys_set_new d k v : k ∉ Py.keys d → Py.keys (Py.set d k v) = Py.keys d ++ [k].
Proof.
  unfold Py.keys. induction d as [|[k' v'] d IH]; csimpl; intros Hk; [done|].
  apply not_elem_of_cons in Hk as [Hne Hk].
  rewrite bool_decide_eq_false_2 by done. simpl. f_equal. by apply IH.
Qed.

Lemma keys_set_old d k v : k ∈ Py.keys d → Py.keys (Py.set d k v) = Py.keys d.
Proof.
  unfold Py.keys. induction d as [|[k' v'] d IH]; csimpl; intros Hk.
  - by apply elem_of_nil in Hk.
  - case_bool_decide as Hkk; simpl; [by subst|].
    apply elem_of_cons in Hk as [->|Hk]; [done|]. f_equal. by apply IH.
Qed.

Lemma get_set_eq d k v : Py.get (Py.set d k v) k = Ok v.
Proof.
  induction d as [|[k' v'] d IH]; simpl.
  - by rewrite bool_decide_eq_true_2.
  - case_bool_decide as Hkk; simpl.
    + by rewrite bool_decide_eq_true_2.
    + by rewrite bool_decide_eq_false_2.
Qed.

Lemma get_set_ne d k k' v : k ≠ k' → Py.get (Py.set d k v) k' = Py.get d k'.
Proof.
  intros Hne. induction d as [|[k0 v0] d IH]; simpl.
  - by rewrite bool_decide_eq_false_2.
  - case_bool_decide as Hkk; simpl.
    + subst k0. by rewrite !bool_decide_eq_false_2.
    + by rewrite IH.
Qed.

Lemma get_member d k : k ∈ Py.keys d → ∃ v, Py.get d k = Ok v ∧ (k, v) ∈ d.
Proof.
  unfold Py.keys. induction d as [|[k' v'] d IH]; csimpl; intros Hk.
  - by apply elem_of_nil in Hk.
  - case_bool_decide as Hkk.
    + subst. exists v'. split; [done|apply elem_of_cons; by left].
    + apply elem_of_cons in Hk as [->|Hk]; [done|].
      destruct (IH Hk) as (v & -> & Hv). exists v. split; [done|].
      apply elem_of_cons; by right.
Qed.

Lemma get_entry d k v : NoDup (Py.keys d) → (k, v) ∈ d → Py.get d k = Ok v.
Proof.
  unfold Py.keys. induction d as [|[k' v'] d IH]; csimpl; intros Hnd Hkv.
  - by apply elem_of_nil in Hkv.
  - apply NoDup_cons in Hnd as [Hk' Hnd].
    apply elem_of_cons in Hkv as [[= -> ->]|Hkv].
    + by rewrite bool_decide_eq_true_2.
    + rewrite bool_decide_eq_false_2; [by apply IH|].
      intros ->. apply Hk'. apply list_elem_of_fmap. by exists (k, v).
Qed.

Lemma get_absent d k : k ∉ Py.keys d → Py.get d k = Raise KeyError.
Proof.
  unfold Py.keys. induction d as [|[k' v'] d IH]; csimpl; intros Hk; [done|].
  apply not_elem_of_cons in Hk as [Hne Hk].
  rewrite bool_decide_eq_false_2 by done. by apply IH.
Qed.

(** Deleting a key is removing it from the key list. *)
Lemma del_member d k :
  k ∈ Py.keys d →
  ∃ d', Py.del d k = Ok d' ∧ Py.remove k (Py.keys d) = Ok (Py.keys d') ∧
        (∀ k' , k' ≠ k → Py.get d' k' = Py.get d k').
Proof.
  unfold Py.keys. induction d as [|[k' v'] d IH]; csimpl; intros Hk.
  - by apply elem_of_nil in Hk.
  - case_bool_decide as Hkk.
    + subst. exists d. split_and!; [done..|].
      intros k' Hne. by rewrite bool_decide_eq_false_2.
    + apply elem_of_cons in Hk as [->|Hk]; [done|].
      destruct (IH Hk) as (d' & Hdel & Hrem & Hget).
      exists ((k', v') :: d'). split_and!.
      * by rewrite Hdel.
      * by rewrite Hrem.
      * intros k0 Hne. simpl. case_bool_decide; [done|by apply Hget].
Qed.

(** [min] returns a member that no other member undercuts. *)
Lemma min_fold_spec (l : list Z) (x : Z) :
  let m := fold_left (fun m y => if bool_decide (y < m) then y else m) l x in
  m ∈ x :: l ∧ ∀ y, y ∈ x :: l → m ≤ y.
Proof.
  revert x. induction l as [|z l IH]; intros x; simpl.
  - split; [set_solver|]. intros y ->%list_elem_of_singleton. lia.
  - case_bool_decide as Hz.
    + destruct (IH z) as [Hin Hmin]. split; [set_solver|].
      intros y [->|Hy]%elem_of_cons; [|by apply Hmin].
      specialize (Hmin z ltac:(set_solver)). lia.
    + destruct (IH x) as [Hin Hmin]. split; [set_solver|].
      intros y [->|[->|Hy]%elem_of_cons]%elem_of_cons.
      * apply Hmin; set_solver.
      * specialize (Hmin x ltac:(set_solver)). lia.
      * apply Hmin; set_solver.
Qed.

Lemma min_list_spec (l : list Z) :
  l ≠ [] → ∃ m, Py.min_list l = Ok m ∧ m ∈ l ∧ ∀ y, y ∈ l → m ≤ y.
Proof.
  destruct l as [|x l]; [done|]; intros _. simpl.
  eexists. split; [done|]. apply min_fold_spec.
Qed.

Lemma min_key_fold_spec d (kv : Z * Z) :
  let m := fold_left (fun (m kv' : Z * Z) => if bool_decide (kv'.2 < m.2) then kv' else m) d kv in
  m ∈ kv :: d ∧ ∀ e, e ∈ kv :: d → m.2 ≤ e.2.
Proof.
  revert kv. induction d as [|z d IH]; intros kv; simpl.
  - split; [set_solver|]. intros y ->%list_elem_of_singleton. lia.
  - case_bool_decide as Hz.
    + destruct (IH z) as [Hin Hmin]. split; [set_solver|].
      intros y [->|Hy]%elem_of_cons; [|by apply Hmin].
      specialize (Hmin z ltac:(set_solver)). lia.
    + destruct (IH kv) as [Hin Hmin]. split; [set_solver|].
      intros y [->|[->|Hy]%elem_of_cons]%elem_of_cons.
      * apply Hmin; set_solver.
      * specialize (Hmin kv ltac:(set_solver)). lia.
      * apply Hmin; set_solver.
Qed.

Lemma min_key_spec d :
  d ≠ [] →
  ∃ k v, Py.min_key d = Ok k ∧ (k, v) ∈ d ∧ ∀ e, e ∈ d → v ≤ e.2.
Proof.
  destruct d as [|kv d]; [done|]; intros _. simpl.
  pose proof (min_key_fold_spec d kv) as [Hin Hmin]. simpl in *.
  eexists _, _. split; [done|]. split; [|exact Hmin].
  by rewrite <- surjective_pairing.
Qed.

End PyDicts.

(** ** LRU keeps its invariant *)

Lemma LRU_lawful : Lawful (policy_of cLRU) LRU_inv.
Proof.
  split; simpl.
  - done.
  - intros frames Hf. repeat split; simpl; [done|unfold Py.len; simpl; lia|constructor].
  - by intros self (? & _).
  - intros [a d] time page _ ((Hf & Hlen) & Hk & Hnd). simpl in *.
    unfold LRU.body, request_effect, PRA.is_page_in_memory. simpl.
    destruct (Py.contains page (PRA.memory a)) eqn:Hin; simpl.
    + apply contains_true in Hin.
      eexists. split; [done|]. split; [|done]. repeat split; simpl; try done.
      rewrite keys_set_old; [done|by rewrite Hk].
    + apply contains_false in Hin.
      unfold fault_effect, PRA.full. simpl.
      case_bool_decide as Hfull; simpl.
      * destruct (min_key_spec d) as (k & v & -> & Hkv & _).
        { intros ->. simpl in Hk. rewrite <- Hk in Hfull. unfold Py.len in Hfull.
          simpl in Hfull. lia. }
        assert (k ∈ Py.keys d) as Hkd.
        { apply list_elem_of_fmap. by exists (k, v). }
        simpl. destruct (del_member d k Hkd) as (d' & Hdel & Hrem & _).
        rewrite Hk in Hrem. rewrite Hrem. simpl. rewrite Hdel. simpl.
        rewrite Hk in Hkd.
        destruct (remove_member k _ Hkd) as (m' & Hrem' & Hl & Hsub & Hnd').
        rewrite Hrem in Hrem'. injection Hrem' as <-.
        destruct (Hnd' Hnd) as [Hnd'' _].
        assert (page ∉ Py.keys d') by (intros ?%Hsub; done).
        eexists. split; [done|]. simpl. split.
        -- repeat split; simpl.
           ++ done.
           ++ rewrite len_app_one. unfold Py.len in *. lia.
           ++ by rewrite keys_set_new.
           ++ apply NoDup_app. split_and!; [done|set_solver|apply NoDup_singleton].
        -- split_and!; [done..| |set_solver].
           rewrite length_app. simpl. lia.
      * eexists. split; [done|]. simpl. split.
        -- repeat split; simpl; [done|rewrite len_app_one; lia| |].
           ++ rewrite keys_set_new; [by rewrite Hk|by rewrite Hk].
           ++ apply NoDup_app. split_and!; [done|set_solver|apply NoDup_singleton].
        -- by split_and!.
Qed.

(** ** OPT: the scan of [find_longest_unused_page] *)

Section OptScan.

Variable future : list Z.

(** A resident page that never returns ends the scan at once: the result
    is the first such page. *)
Lemma scan_unused mem last_used page_to_replace :
  (∃ p, p ∈ mem ∧ p ∉ future) →
  ∃ v, OPT.scan future mem last_used page_to_replace = Ok (Some v) ∧
       v ∈ mem ∧ v ∉ future.
Proof.
  revert last_used page_to_replace.
  induction mem as [|q mem IH]; intros lu ptr (p & Hp & Hnot).
  - by apply elem_of_nil in Hp.
  - simpl. destruct (Py.contains q future) eqn:Hq; simpl.
    + apply contains_true in Hq.
      destruct (index_member q future Hq) as (j & -> & _). simpl.
      assert (∃ p, p ∈ mem ∧ p ∉ future) as Hex.
      { apply elem_of_cons in Hp as [->|Hp]; [done|eauto]. }
      case_bool_decide.
      * destruct (IH j (Some q) Hex) as (v & -> & ? & ?).
        exists v. split_and!; [done|set_solver|done].
      * destruct (IH lu ptr Hex) as (v & -> & ? & ?).
        exists v. split_and!; [done|set_solver|done].
    + apply contains_false in Hq. exists q. split_and!; [done|set_solver|done].
Qed.

(** When every resident page returns, the scan keeps the page whose first
    return is the latest seen so far. *)
Lemma scan_all_used mem last_used page_to_replace :
  (∀ p, p ∈ mem → p ∈ future) →
  ∃ r, OPT.scan future mem last_used page_to_replace = Ok r ∧
       ((r = page_to_replace ∧
         ∀ p j, p ∈ mem → Py.index p future = Ok j → j ≤ last_used) ∨
        (∃ v i, r = Some v ∧ v ∈ mem ∧ Py.index v future = Ok i ∧ last_used < i ∧
                ∀ p j, p ∈ mem → Py.index p future = Ok j → j ≤ i)).
Proof.
  revert last_used page_to_replace.
  induction mem as [|q mem IH]; intros lu ptr Hall.
  - simpl. eexists. split; [done|]. left. split; [done|].
    intros p j Hp. by apply elem_of_nil in Hp.
  - simpl. assert (q ∈ future) as Hq by (apply Hall; set_solver).
    rewrite (proj2 (contains_true q future) Hq). simpl.
    destruct (index_member q future Hq) as (j & Hj & _). rewrite Hj. simpl.
    assert (∀ p, p ∈ mem → p ∈ future) as Hall' by (intros; apply Hall; set_solver).
    case_bool_decide as Hlt.
    + destruct (IH j (Some q) Hall') as (r & -> & [[-> Hle]|(v & i & -> & Hv & Hi & Hji & Hle)]).
      * eexists. split; [done|]. right. exists q, j.
        split_and!; [done|set_solver|done|lia|].
        intros p j' [->|Hp]%elem_of_cons Hj'; [|by eapply Hle].
        rewrite Hj in Hj'. injection Hj' as ->. lia.
      * eexists. split; [done|]. right. exists v, i.
        split_and!; [done|set_solver|done|lia|].
        intros p j' [->|Hp]%elem_of_cons Hj'; [|by eapply Hle].
        rewrite Hj in Hj'. injection Hj' as ->. lia.
    + destruct (IH lu ptr Hall') as (r & -> & [[-> Hle]|(v & i & -> & Hv & Hi & Hji & Hle)]).
      * eexists. split; [done|]. left. split; [done|].
        intros p j' [->|Hp]%elem_of_cons Hj'; [|by eapply Hle].
        rewrite Hj in Hj'. injection Hj' as ->. lia.
      * eexists. split; [done|]. right. exists v, i.
        split_and!; [done|set_solver|done|lia|].
        intros p j' [->|Hp]%elem_of_cons Hj'; [|by eapply Hle].
        rewrite Hj in Hj'. injection Hj' as ->. lia.
Qed.

(** On a non-empty memory the search names a resident page: one that never
    returns if there is any, else the one returning last. *)
Lemma find_longest_unused_page_spec (self : OPT.t) :
  PRA.memory (OPT.super self) ≠ [] →
  ∃ v, OPT.find_longest_unused_page self future = Ok (Some v) ∧
       v ∈ PRA.memory (OPT.super self) ∧
       ((∃ p, p ∈ PRA.memory (OPT.super self) ∧ p ∉ future) → v ∉ future) ∧
       ((∀ p, p ∈ PRA.memory (OPT.super self) → p ∈ future) →
        ∃ i, Py.index v future = Ok i ∧
             ∀ p j, p ∈ PRA.memory (OPT.super self) → Py.index p future = Ok j → j ≤ i).
Proof.
  unfold OPT.find_longest_unused_page. set (mem := PRA.memory (OPT.super self)).
  intros Hne.
  destruct (decide (Forall (fun p => p ∈ future) mem)) as [Hall|Hsome].
  - rewrite Forall_forall in Hall.
    destruct (scan_all_used mem (-1) None Hall)
      as (r & Hr & [[-> Hle]|(v & i & -> & Hv & Hi & _ & Hle)]).
    + destruct mem as [|q mem']; [done|].
      assert (q ∈ future) as Hq by (apply Hall; set_solver).
      destruct (index_member q future Hq) as (j & Hj & Hj0 & _).
      specialize (Hle q j ltac:(set_solver) Hj). lia.
    + exists v. split_and!; [done|done| |by eauto].
      intros (p & Hp & Hnot). by apply Hall in Hp.
  - apply not_Forall_Exists in Hsome; [|apply _].
    apply Exists_exists in Hsome as (p & Hp & Hnot).
    destruct (scan_unused mem (-1) None) as (v & Hv & Hin & Hout); [by eauto|].
    exists v. split_and!; [done|done|done|].
    intros Hall. by apply Hall in Hin.
Qed.

End OptScan.

Lemma OPT_lawful : Lawful (policy_of cOPT) OPT_inv.
Proof.
  split; simpl.
  - done.
  - intros frames Hf. repeat split; simpl; [done|unfold Py.len; simpl; lia|constructor].
  - by intros self (? & _).
  - intros [a] _ page future ((Hf & Hlen) & Hnd). simpl in *.
    unfold OPT.body, request_effect, PRA.is_page_in_memory. simpl.
    destruct (Py.contains page (PRA.memory a)) eqn:Hin; simpl.
    + eexists. split; [done|]. split; [|done]. by repeat split.
    + apply contains_false in Hin.
      unfold fault_effect, PRA.full. simpl.
      case_bool_decide as Hfull; simpl.
      * destruct (find_longest_unused_page_spec future (OPT.mk (PRA.record_page_fault a)))
          as (v & -> & Hv & _).
        { simpl. intros Hnil. rewrite Hnil in Hfull. unfold Py.len in Hfull.
          simpl in Hfull. lia. }
        simpl in *.
        destruct (remove_member v _ Hv) as (m' & -> & Hl & Hsub & Hnd').
        destruct (Hnd' Hnd) as [Hnd'' _]. simpl.
        eexists. split; [done|]. simpl. split.
        -- repeat split; simpl.
           ++ done.
           ++ rewrite len_app_one. unfold Py.len in *. lia.
           ++ apply NoDup_app. split_and!; [done|set_solver|apply NoDup_singleton].
        -- split_and!; [done..| |set_solver].
           rewrite length_app. simpl. lia.
      * eexists. split; [done|]. simpl. split.
        -- repeat split; simpl; [done|rewrite len_app_one; lia|].
           apply NoDup_app. split_and!; [done|set_solver|apply NoDup_singleton].
        -- by split_and!.
Qed.

(** ** LFU: the search of [find_least_frequent_page] *)

(** The scan of the resident pages stops at the first one that is listed;
    the pages before it are not. *)
Lemma first_member_spec (mem listed : list Z) :
  (∃ p, p ∈ mem ∧ p ∈ listed) →
  ∃ pre v post, mem = pre ++ v :: post ∧ LFU.first_member mem listed = Some v ∧
                v ∈ listed ∧ ∀ p, p ∈ pre → p ∉ listed.
Proof.
  induction mem as [|q mem IH]; intros (p & Hp & Hl).
  - by apply elem_of_nil in Hp.
  - simpl. destruct (Py.contains q listed) eqn:Hq.
    + apply contains_true in Hq. exists [], q, mem.
      split_and!; [done..|]. intros ? ?%elem_of_nil. done.
    + apply contains_false in Hq.
      apply elem_of_cons in Hp as [->|Hp]; [done|].
      destruct IH as (pre & v & post & -> & Hv & Hvl & Hpre); [by eauto|].
      exists (q :: pre), v, post. split_and!; [done..|].
      intros p' [->|Hp']%elem_of_cons; [done|by apply Hpre].
Qed.

(** Under the invariant the search names a resident page of least
    frequency, the first one in resident order. *)
Lemma find_least_frequent_page_spec (self : LFU.t) :
  LFU_inv self → PRA.memory (LFU.super self) ≠ [] →
  ∃ pre v post fv,
    LFU.find_least_frequent_page self = Ok (Some v) ∧
    PRA.memory (LFU.super self) = pre ++ v :: post ∧
    Py.get (LFU.page_frequency self) v = Ok fv ∧
    (∀ p, p ∈ PRA.memory (LFU.super self) →
          ∃ fp, Py.get (LFU.page_frequency self) p = Ok fp ∧ fv ≤ fp) ∧
    (∀ p, p ∈ pre → ∃ fp, Py.get (LFU.page_frequency self) p = Ok fp ∧ fv < fp).
Proof.
  destruct self as [a d]. intros (_ & Hk & Hnd) Hne. simpl in *.
  unfold LFU.find_least_frequent_page. simpl.
  destruct (min_list_spec (Py.values d)) as (m & -> & Hm & Hmin).
  { intros Hnil. apply Hne. rewrite <- Hk. unfold Py.keys, Py.values in *.
    apply fmap_nil_inv in Hnil. by rewrite Hnil. }
  simpl.
  assert (∀ p, p ∈ PRA.memory a → ∃ fp, Py.get d p = Ok fp ∧ m ≤ fp) as Hall.
  { intros p Hp. rewrite <- Hk in Hp.
    destruct (get_member d p Hp) as (fp & Hfp & Hin). exists fp. split; [done|].
    apply Hmin. unfold Py.values. apply list_elem_of_fmap. by exists (p, fp). }
  apply list_elem_of_fmap in Hm as ([k m'] & -> & Hkm). simpl in *.
  assert (Py.get d k = Ok m') as Hget by (apply get_entry; [by rewrite Hk|done]).
  assert (k ∈ Py.keys d) as Hkd by (apply list_elem_of_fmap; by exists (k, m')).
  destruct (first_member_spec (PRA.memory a)
              (filter (fun page => Py.get_is d page m') (Py.keys d)))
    as (pre & v & post & Hmem & -> & Hv & Hpre).
  { exists k. split; [by rewrite <- Hk|].
    apply list_elem_of_filter. split; [|done].
    unfold Py.get_is. rewrite Hget. by rewrite bool_decide_eq_true_2. }
  apply list_elem_of_filter in Hv as [Hv Hvk].
  unfold Py.get_is in Hv. destruct (Py.get d v) as [fv|] eqn:Hgv; [|done].
  apply Is_true_true, bool_decide_eq_true in Hv. subst fv.
  exists pre, v, post, m'. split_and!; [done..|].
  intros p Hp.
  assert (p ∈ PRA.memory a) as Hpm by (rewrite Hmem; set_solver).
  destruct (Hall p Hpm) as (fp & Hfp & Hle). exists fp. split; [done|].
  destruct (decide (fp = m')) as [->|]; [|lia].
  exfalso. apply (Hpre p Hp). apply list_elem_of_filter. split.
  - unfold Py.get_is. rewrite Hfp. by rewrite bool_decide_eq_true_2.
  - by rewrite Hk.
Qed.

Lemma LFU_lawful : Lawful (policy_of cLFU) LFU_inv.
Proof.
  split; simpl.
  - done.
  - intros frames Hf. repeat split; simpl; [done|unfold Py.len; simpl; lia|constructor].
  - by intros self (? & _).
  - intros [a d] _ page _ ((Hf & Hlen) & Hk & Hnd). simpl in *.
    unfold LFU.body, request_effect, PRA.is_page_in_memory. simpl.
    destruct (Py.contains page (PRA.memory a)) eqn:Hin; simpl.
    + apply contains_true in Hin.
      destruct (get_member d page) as (f & -> & _); [by rewrite Hk|]. simpl.
      eexists. split; [done|]. split; [|done]. repeat split; simpl; try done.
      rewrite keys_set_old; [done|by rewrite Hk].
    + apply contains_false in Hin.
      unfold fault_effect, PRA.full. simpl.
      case_bool_decide as Hfull; simpl.
      * destruct (find_least_frequent_page_spec (LFU.mk (PRA.record_page_fault a) d))
          as (pre & v & post & fv & -> & Hmem & _).
        { by repeat split. }
        { simpl. intros Hnil. rewrite Hnil in Hfull. unfold Py.len in Hfull.
          simpl in Hfull. lia. }
        simpl in *.
        assert (v ∈ Py.keys d) as Hvd by (rewrite Hk, Hmem; set_solver).
        destruct (del_member d v Hvd) as (d' & Hdel & Hrem & _).
        rewrite Hk in Hrem. rewrite Hrem. simpl. rewrite Hdel. simpl.
        rewrite Hk in Hvd.
        destruct (remove_member v _ Hvd) as (m' & Hrem' & Hl & Hsub & Hnd').
        rewrite Hrem in Hrem'. injection Hrem' as <-.
        destruct (Hnd' Hnd) as [Hnd'' _].
        assert (page ∉ Py.keys d') by (intros ?%Hsub; done).
        eexists. split; [done|]. simpl. split.
        -- repeat split; simpl.
           ++ done.
           ++ rewrite len_app_one. unfold Py.len in *. lia.
           ++ by rewrite keys_set_new.
           ++ apply NoDup_app. split_and!; [done|set_solver|apply NoDup_singleton].
        -- split_and!; [done..| |set_solver].
           rewrite length_app. simpl. lia.
      * eexists. split; [done|]. simpl. split.
        -- repeat split; simpl; [done|rewrite len_app_one; lia| |].
           ++ rewrite keys_set_new; [by rewrite Hk|by rewrite Hk].
           ++ apply NoDup_app. split_and!; [done|set_solver|apply NoDup_singleton].
        -- by split_and!.
Qed.

(** ** The clock dictionaries *)

Section ClockBits.

Implicit Types (bits : gmap Z bool) (frames hand k : Z).

Lemma all_false_lookup frames k :
  Py.all_false frames !! k = if bool_decide (0 ≤ k < frames) then Some false else None.
Proof.
  unfold Py.all_false. case_bool_decide as Hk.
  - apply elem_of_list_to_map.
    + rewrite <- list_fmap_compose. simpl.
      apply NoDup_fmap_2; [intros ? ? Heq; simpl in Heq; lia|apply NoDup_seq].
    + apply list_elem_of_fmap. exists (Z.to_nat k). split; [f_equal; lia|].
      apply elem_of_seq. lia.
  - apply not_elem_of_list_to_map. rewrite <- list_fmap_compose. simpl.
    intros (i & -> & Hi%elem_of_seq)%list_elem_of_fmap. simpl in Hk. lia.
Qed.

Lemma all_false_slots frames : slots_of frames (Py.all_false frames).
Proof.
  intros k. rewrite all_false_lookup. by case_bool_decide; split; try done.
Qed.

Lemma all_false_value frames k b : Py.all_false frames !! k = Some b → b = false.
Proof. rewrite all_false_lookup. case_bool_decide; congruence. Qed.

Lemma slots_insert frames bits k b :
  slots_of frames bits → 0 ≤ k < frames → slots_of frames (<[k := b]> bits).
Proof.
  intros Hs Hk k'. rewrite lookup_insert. case_decide as Hkk.
  - subst. split; [done|by eauto].
  - apply Hs.
Qed.

Lemma getbit_slot frames bits k :
  slots_of frames bits → 0 ≤ k < frames →
  ∃ b, bits !! k = Some b ∧ Py.getbit bits k = Ok b.
Proof.
  intros Hs Hk. apply Hs in Hk as [b Hb]. exists b. unfold Py.getbit. by rewrite Hb.
Qed.

Lemma set_bits_le_size bits : (set_bits bits ≤ size bits)%nat.
Proof. apply map_subseteq_size, map_filter_subseteq. Qed.

Lemma set_bits_clear bits k :
  bits !! k = Some true → S (set_bits (<[k := false]> bits)) = set_bits bits.
Proof.
  intros Hk. unfold set_bits.
  rewrite map_filter_insert_False by done.
  rewrite map_filter_delete.
  assert (filter (fun kv : Z * bool => kv.2 = true) bits !! k = Some true) as Hf.
  { by apply map_lookup_filter_Some. }
  pose proof (map_size_delete k (filter (fun kv : Z * bool => kv.2 = true) bits)) as Hd.
  rewrite Hf in Hd. rewrite Hd.
  assert (size (filter (fun kv : Z * bool => kv.2 = true) bits) ≠ 0%nat).
  { intros Hz%map_size_empty_inv. by rewrite Hz in Hf. }
  lia.
Qed.

Lemma mod_in_range frames x :
  1 ≤ frames → Py.mod_ x frames = Ok (x `mod` frames) ∧ 0 ≤ x `mod` frames < frames.
Proof.
  intros Hf. unfold Py.mod_. rewrite bool_decide_eq_false_2 by lia.
  split; [done|]. apply Z.mod_pos_bound. lia.
Qed.

(** The sweep of [SimpleCLOCK] stops on a slot whose use bit is clear. *)
Lemma sweep_spec fuel frames bits hand :
  1 ≤ frames → slots_of frames bits → 0 ≤ hand < frames →
  (set_bits bits < fuel)%nat →
  ∃ bits' hand', SimpleCLOCK.sweep fuel frames bits hand = Ok (bits', hand') ∧
                 slots_of frames bits' ∧ 0 ≤ hand' < frames ∧
                 bits' !! hand' = Some false.
Proof.
  intros Hf. revert bits hand.
  induction fuel as [|fuel IH]; intros bits hand Hs Hh Hfuel; [lia|].
  simpl. destruct (getbit_slot frames bits hand Hs Hh) as (b & Hb & ->). simpl.
  destruct b.
  - destruct (mod_in_range frames (hand + 1) Hf) as [-> Hr]. simpl.
    apply IH; [by apply slots_insert|done|].
    pose proof (set_bits_clear bits hand Hb). lia.
  - by eexists _, _.
Qed.

(** The sweep of [SimpleCLOCK] always comes to an end, whatever the
    dictionary: it clears a set bit at every turn. *)
Lemma sweep_terminates fuel frames bits hand :
  (set_bits bits < fuel)%nat →
  SimpleCLOCK.sweep fuel frames bits hand ≠ Raise Diverges.
Proof.
  revert bits hand. induction fuel as [|fuel IH]; intros bits hand Hfuel; [lia|].
  simpl. unfold Py.getbit. destruct (bits !! hand) as [[|]|] eqn:Hb; simpl; [|done..].
  unfold Py.mod_. case_bool_decide; simpl; [done|].
  apply IH. pose proof (set_bits_clear bits hand Hb). lia.
Qed.

End ClockBits.

(** Writing into a slot of a full memory keeps its size and makes the page
    resident. *)
Lemma setitem_slot (mem : list Z) (hand page : Z) :
  0 ≤ hand < Py.len mem →
  ∃ mem', Py.setitem mem hand page = Ok mem' ∧ length mem' = length mem ∧ page ∈ mem'.
Proof.
  intros Hh. rewrite setitem_in_range by done. eexists. split; [done|].
  split; [apply length_insert|].
  apply list_elem_of_lookup. exists (Z.to_nat hand).
  apply list_lookup_insert_eq. unfold Py.len in Hh. lia.
Qed.

(** ** SimpleCLOCK keeps its invariant *)

#[local] Arguments SimpleCLOCK.sweep : simpl never.

Lemma SimpleCLOCK_lawful : Lawful (policy_of cSimpleCLOCK) SimpleCLOCK_inv.
Proof.
  split; simpl.
  - done.
  - intros frames Hf. unfold SimpleCLOCK_inv, within_capacity, Py.len. simpl.
    split_and!; [done|lia|apply all_false_slots|done|lia].
  - by intros self (? & _).
  - intros [a ub h] _ page _ ((Hf & Hlen) & Hs & Hh). simpl in *.
    unfold SimpleCLOCK.body, request_effect, PRA.is_page_in_memory. simpl.
    unfold SimpleCLOCK_inv, within_capacity.
    destruct (Py.contains page (PRA.memory a)) eqn:Hin; simpl.
    + apply contains_true in Hin.
      destruct (index_member page _ Hin) as (i & -> & Hi & _). simpl.
      eexists. split; [done|]. split; [|done].
      split_and!; simpl; [done|done| |lia|lia].
      apply slots_insert; [done|lia].
    + apply contains_false in Hin.
      destruct (sweep_spec (S (size ub)) (PRA.frames a) ub h) as (ub' & h' & -> & Hs' & Hh' & _);
        [done..| |].
      { pose proof (set_bits_le_size ub). lia. }
      simpl. unfold fault_effect, PRA.full. simpl.
      case_bool_decide as Hfull; simpl.
      * destruct (setitem_slot (PRA.memory a) h' page) as (m' & -> & Hl & Hp); [lia|].
        simpl. eexists. split; [done|]. simpl. split.
        -- split_and!; simpl; [done| | |lia|lia].
           ++ unfold Py.len in *. lia.
           ++ apply slots_insert; [done|lia].
        -- by split_and!.
      * eexists. split; [done|]. simpl. split.
        -- split_and!; simpl; [done| | |lia|lia].
           ++ rewrite len_app_one. lia.
           ++ apply slots_insert; [done|lia].
        -- by split_and!.
Qed.

(** ** EnhancedCLOCK keeps its invariant *)

(** With every modify bit clear the loop of [EnhancedCLOCK] stops at the
    first slot whose use bit is clear, installs the page there and moves
    the hand one slot on. *)
Lemma place_spec fuel (self : EnhancedCLOCK.t) (page : Z) :
  EnhancedCLOCK_inv self →
  (set_bits (EnhancedCLOCK.use_bit self) < fuel)%nat →
  ∃ self', EnhancedCLOCK.place fuel self page = Ok self' ∧
           EnhancedCLOCK_inv self' ∧
           install_effect page (EnhancedCLOCK.super self) (EnhancedCLOCK.super self').
Proof.
  revert self.
  induction fuel as [|fuel IH]; intros [a ub mb h] (Hcap & Hs & Hm & Hh) Hfuel; [lia|].
  simpl in *. destruct Hcap as [Hf Hlen].
  destruct (getbit_slot _ ub h Hs Hh) as (u & Hu & ->). simpl.
  destruct (mod_in_range (PRA.frames a) (h + 1) Hf) as [Hmod Hr].
  destruct u; simpl.
  - rewrite Hmod. simpl. apply IH.
    + unfold EnhancedCLOCK_inv, within_capacity. simpl.
      split_and!; [done|done| |done|lia|lia]. by apply slots_insert.
    + simpl. pose proof (set_bits_clear ub h Hu). lia.
  - assert (mb !! h = Some false) as Hmh.
    { rewrite Hm, all_false_lookup. by rewrite bool_decide_eq_true_2. }
    unfold Py.getbit at 1. rewrite Hmh. simpl.
    unfold install_effect, EnhancedCLOCK_inv, within_capacity, PRA.full.
    case_bool_decide as Hfull; simpl.
    + destruct (setitem_slot (PRA.memory a) h page) as (m' & -> & Hl & Hp); [lia|].
      simpl. rewrite Hmod. simpl. eexists. split; [done|]. simpl.
      split; [|by split_and!].
      split_and!; [done| |done| |lia|lia].
      * unfold Py.len in *. lia.
      * by rewrite insert_id.
    + rewrite Hmod. simpl. eexists. split; [done|]. simpl.
      split; [|by split_and!].
      split_and!; [done| |done| |lia|lia].
      * rewrite len_app_one. lia.
      * by rewrite insert_id.
Qed.

#[local] Arguments EnhancedCLOCK.place : simpl never.

Lemma EnhancedCLOCK_lawful : Lawful (policy_of cEnhancedCLOCK) EnhancedCLOCK_inv.
Proof.
  split; simpl.
  - done.
  - intros frames Hf. unfold EnhancedCLOCK_inv, within_capacity, Py.len. simpl.
    split_and!; [done|lia|apply all_false_slots|done|done|lia].
  - by intros self (? & _).
  - intros [a ub mb h] _ page _ ((Hf & Hlen) & Hs & Hm & Hh). simpl in *.
    unfold EnhancedCLOCK.body, request_effect, PRA.is_page_in_memory. simpl.
    destruct (Py.contains page (PRA.memory a)) eqn:Hin; simpl.
    + apply contains_true in Hin.
      destruct (index_member page _ Hin) as (i & -> & Hi & _). simpl.
      eexists. split; [done|]. split; [|done].
      unfold EnhancedCLOCK_inv, within_capacity.
      split_and!; simpl; [done|done| |done|lia|lia].
      apply slots_insert; [done|lia].
    + apply contains_false in Hin.
      destruct (place_spec (S (size ub + (size ub + 0)))
                  (EnhancedCLOCK.mk (PRA.record_page_fault a) ub mb h) page)
        as ([a' ub' mb' h'] & -> & ((Hf' & Hlen') & Hs' & Hm' & Hh') & Heff).
      { unfold EnhancedCLOCK_inv, within_capacity. simpl. split_and!; try done; lia. }
      { simpl. pose proof (set_bits_le_size ub). lia. }
      simpl in *. eexists. split; [done|]. simpl. split.
      * unfold EnhancedCLOCK_inv, within_capacity.
        split_and!; simpl; [done|done| |done|lia|lia].
        apply slots_insert; [done|lia].
      * exact Heff.
Qed.

(** ** Every policy is lawful *)

Lemma lawful_policy (c : alg_class) : Lawful (policy_of c) (invariant c).
Proof.
  destruct c; simpl.
  - exact FIFO_lawful.
  - exact LRU_lawful.
  - exact OPT_lawful.
  - exact LFU_lawful.
  - exact SimpleCLOCK_lawful.
  - exact EnhancedCLOCK_lawful.
Qed.

(** ** The loop of [simulate] *)

Lemma request_effect_counts page (a a' : PRA.t) :
  request_effect page a a' →
  PRA.frames a' = PRA.frames a ∧
  PRA.page_faults a' + PRA.page_hits a' = PRA.page_faults a + PRA.page_hits a + 1 ∧
  PRA.page_faults a ≤ PRA.page_faults a' ∧
  PRA.page_hits a ≤ PRA.page_hits a'.
Proof.
  unfold request_effect, hit_effect, fault_effect.
  destruct (PRA.is_page_in_memory a page).
  - intros ->. simpl. lia.
  - intros (? & ? & ? & _). lia.
Qed.

Section Loop.

Variable P : Policy.

(** The instance after [S n] requests is the instance after [n] requests
    taken through the loop body once more. *)
Lemma loop_upto_succ n (self : state P) i page_sequence :
  loop_upto P (S n) self i page_sequence =
  self' ← loop_upto P n self i page_sequence;
  match drop n page_sequence with
  | page :: rest => on_reference P self' (i + Z.of_nat n) page rest
  | [] => Ok self'
  end.
Proof.
  revert self i page_sequence.
  induction n as [|n IH]; intros self i [|page rest]; try done.
  - simpl. rewrite Z.add_0_r. by destruct (on_reference P self i page rest).
  - change (loop_upto P (S (S n)) self i (page :: rest))
      with (self' ← on_reference P self i page rest; loop_upto P (S n) self' (i + 1) rest).
    change (loop_upto P (S n) self i (page :: rest))
      with (self' ← on_reference P self i page rest; loop_upto P n self' (i + 1) rest).
    destruct (on_reference P self i page rest) as [self1|e]; [|done].
    rewrite !bind_ok_l, IH. replace (i + 1 + Z.of_nat n) with (i + Z.of_nat (S n)) by lia. done.
Qed.

(** A finished loop has appended one record per request, each holding the
    memory as it stood after that request, and ends in the instance
    [loop_upto] reaches after the whole sequence. *)
Lemma loop_log (self : state P) i page_sequence file self' file' :
  loop P self i page_sequence file = Ok (self', file') →
  loop_upto P (length page_sequence) self i page_sequence = Ok self' ∧
  ∃ new, file' = file ++ new ∧ length new = length page_sequence ∧
         ∀ (k : nat) r, new !! k = Some r →
           ∃ selfk, loop_upto P (S k) self i page_sequence = Ok selfk ∧
                    r = mk_record (i + Z.of_nat k + 1) (class_name P)
                                  (PRA.memory (attrs P selfk)).
Proof.
  revert self i file.
  induction page_sequence as [|page rest IH]; intros self i file Hloop.
  - simpl in *. injection Hloop as <- <-. split; [done|].
    exists []. split_and!; [by rewrite app_nil_r|done|]. intros k r Hk. done.
  - simpl in Hloop. apply bind_ok in Hloop as (self1 & Hstep & Hloop).
    apply IH in Hloop as (Hupto & new & -> & Hlen & Hnew).
    split; [simpl; by rewrite Hstep|].
    eexists (_ :: new). split_and!; [by rewrite <- app_assoc|simpl; lia|].
    intros [|k] r Hk.
    + injection Hk as <-. exists self1. simpl. rewrite Hstep. simpl.
      split; [by destruct rest|]. f_equal. lia.
    + destruct (Hnew k r Hk) as (selfk & Hk' & ->).
      exists selfk. split.
      * change (loop_upto P (S (S k)) self i (page :: rest))
          with (self' ← on_reference P self i page rest; loop_upto P (S k) self' (i + 1) rest).
        by rewrite Hstep.
      * f_equal. lia.
Qed.

Variable Inv : state P → Prop.
Hypothesis L : Lawful P Inv.

(** From an instance satisfying the invariant the loop raises nothing. *)
Lemma loop_total (self : state P) i page_sequence file :
  Inv self → ∃ self' file', loop P self i page_sequence file = Ok (self', file').
Proof.
  revert self i file.
  induction page_sequence as [|page rest IH]; intros self i file HI; simpl.
  - by eexists _, _.
  - destruct (inv_request P Inv L self i page rest HI) as (self1 & -> & HI1 & _).
    simpl. by apply IH.
Qed.

(** Every instance met between two requests satisfies the invariant, and
    has counted each request so far exactly once. *)
Lemma loop_upto_total n (self : state P) i page_sequence :
  Inv self →
  ∃ self', loop_upto P n self i page_sequence = Ok self' ∧ Inv self' ∧
           PRA.frames (attrs P self') = PRA.frames (attrs P self) ∧
           PRA.page_faults (attrs P self') + PRA.page_hits (attrs P self') =
           PRA.page_faults (attrs P self) + PRA.page_hits (attrs P self) +
           Z.of_nat (n `min` length page_sequence).
Proof.
  revert self i page_sequence.
  induction n as [|n IH]; intros self i [|page rest] HI; simpl;
    try (exists self; split_and!; [done|done|done|lia]).
  destruct (inv_request P Inv L self i page rest HI) as (self1 & -> & HI1 & Heff).
  simpl. apply request_effect_counts in Heff as (Hfr & Hcnt & _).
  destruct (IH self1 (i + 1) rest HI1) as (self' & -> & HI' & Hfr' & Hcnt').
  exists self'. split_and!; [done|done|congruence|lia].
Qed.

Lemma after_steps_total n frames page_sequence :
  1 ≤ frames →
  ∃ self, after_steps P n frames page_sequence = Ok self ∧ Inv self ∧
          PRA.frames (attrs P self) = frames ∧
          PRA.page_faults (attrs P self) + PRA.page_hits (attrs P self) =
          Z.of_nat (n `min` length page_sequence).
Proof.
  intros Hf. unfold after_steps.
  destruct (loop_upto_total n (new P frames) 0 page_sequence) as (self & -> & HI & Hfr & Hcnt).
  { by apply (inv_new P Inv L). }
  rewrite (new_attrs P Inv L) in Hfr, Hcnt. simpl in *.
  exists self. split_and!; [done|done|done|lia].
Qed.

(** The step from [n] requests to [n + 1]. *)
Lemma after_steps_succ n frames page_sequence page :
  1 ≤ frames → page_sequence !! n = Some page →
  ∃ self self',
    after_steps P n frames page_sequence = Ok self ∧ Inv self ∧
    PRA.frames (attrs P self) = frames ∧
    on_reference P self (Z.of_nat n) page (drop (S n) page_sequence) = Ok self' ∧
    after_steps P (S n) frames page_sequence = Ok self' ∧ Inv self' ∧
    request_effect page (attrs P self) (attrs P self').
Proof.
  intros Hf Hn.
  destruct (after_steps_total n frames page_sequence Hf) as (self & Hself & HI & Hfr & _).
  destruct (inv_request P Inv L self (Z.of_nat n) page (drop (S n) page_sequence) HI)
    as (self' & Hstep & HI' & Heff).
  exists self, self'. split_and!; try done.
  unfold after_steps in *. rewrite loop_upto_succ, Hself. simpl.
  by rewrite (drop_S _ _ _ Hn).
Qed.

End Loop.

(** ** Whole runs *)

(** A fresh instance with a positive capacity runs through any sequence:
    the run returns, its log has one record per request, and the records
    and the final instance are those met by [after_steps]. *)
Lemma run_spec (c : alg_class) (frames : Z) (page_sequence : list Z) :
  1 ≤ frames →
  ∃ self file,
    simulate (policy_of c) (new (policy_of c) frames) page_sequence [] = Ok (self, file) ∧
    run c frames page_sequence = Ok (attrs (policy_of c) self, file) ∧
    after_steps (policy_of c) (length page_sequence) frames page_sequence = Ok self ∧
    length file = length page_sequence ∧
    ∀ (k : nat) r, file !! k = Some r →
      ∃ selfk, after_steps (policy_of c) (S k) frames page_sequence = Ok selfk ∧
               r = mk_record (Z.of_nat k + 1) (class_name (policy_of c))
                             (PRA.memory (attrs (policy_of c) selfk)).
Proof.
  intros Hf. pose proof (lawful_policy c) as L.
  destruct (loop_total (policy_of c) (invariant c) L (new (policy_of c) frames) 0
              page_sequence []) as (self & file & Hloop).
  { by apply (inv_new _ _ L). }
  exists self, file. unfold run, simulate. rewrite Hloop.
  apply loop_log in Hloop as (Hupto & new & Hfile & Hlen & Hnew).
  simpl in Hfile. subst new.
  split_and!; [done|done|done|done|].
  intros k r Hk. destruct (Hnew k r Hk) as (selfk & Hk' & ->).
  exists selfk. split; [done|]. f_equal.
Qed.

Lemma request_effect_one_of (page : Z) (a a' : PRA.t) :
  request_effect page a a' →
  (PRA.page_faults a' = PRA.page_faults a + 1 ∧ PRA.page_hits a' = PRA.page_hits a) ∨
  (PRA.page_faults a' = PRA.page_faults a ∧ PRA.page_hits a' = PRA.page_hits a + 1).
Proof.
  unfold request_effect, hit_effect, fault_effect.
  destruct (PRA.is_page_in_memory a page).
  - intros ->. by right.
  - intros (? & ? & ? & _). by left.
Qed.

(** A run with a positive capacity returns with every request counted. *)
Lemma run_counts (c : alg_class) (frames : Z) (page_sequence : list Z) :
  1 ≤ frames →
  ∃ a file, run c frames page_sequence = Ok (a, file) ∧
            PRA.page_faults a + PRA.page_hits a = Py.len page_sequence.
Proof.
  intros Hf. pose proof (lawful_policy c) as L.
  destruct (run_spec c frames page_sequence Hf) as (self & file & _ & Hrun & Hafter & _).
  destruct (after_steps_total _ _ L (length page_sequence) frames page_sequence Hf)
    as (self' & Hafter' & _ & _ & Hcnt).
  rewrite Hafter in Hafter'. injection Hafter' as <-.
  eexists _, _. split; [exact Hrun|]. unfold Py.len. lia.
Qed.

(** * Properties of the simulator *)

(** C5: for each of the six policies, every sequence and every capacity of
    at least one frame, [simulate] returns and leaves
    [page_faults + page_hits = len(page_sequence)]; each request adds one to
    exactly one of the two counters. *)
Theorem faults_plus_hits_is_length (c : alg_class) (frames : Z) (page_sequence : list Z) :
  1 ≤ frames →
  (∃ a file, run c frames page_sequence = Ok (a, file) ∧
             PRA.page_faults a + PRA.page_hits a = Py.len page_sequence) ∧
  (∀ (n : nat) page, page_sequence !! n = Some page →
     ∃ self self',
       after_steps (policy_of c) n frames page_sequence = Ok self ∧
       after_steps (policy_of c) (S n) frames page_sequence = Ok self' ∧
       let a := attrs (policy_of c) self in
       let a' := attrs (policy_of c) self' in
       (PRA.page_faults a' = PRA.page_faults a + 1 ∧ PRA.page_hits a' = PRA.page_hits a) ∨
       (PRA.page_faults a' = PRA.page_faults a ∧ PRA.page_hits a' = PRA.page_hits a + 1)).
Proof.
  intros Hf. pose proof (lawful_policy c) as L. split.
  - by apply run_counts.
  - intros n page Hn.
    destruct (after_steps_succ _ _ L n frames page_sequence page Hf Hn)
      as (self & self' & H1 & _ & _ & _ & H2 & _ & Heff).
    exists self, self'. split_and!; [done|done|]. by apply request_effect_one_of in Heff.
Qed.

Lemma faults_plus_hits_is_length_witness :
  1 ≤ 3 ∧
  ∃ a file, run cLFU 3 example_trace = Ok (a, file) ∧
            PRA.page_faults a + PRA.page_hits a = Py.len example_trace.
Proof.
  split; [lia|].
  exact (proj1 (faults_plus_hits_is_length cLFU 3 example_trace ltac:(lia))).
Defined.

(** C6: for each of the six policies, every sequence and every capacity of
    at least one frame, the memory never holds more than [frames] pages:
    neither in any record of the log nor in the instance after any number of
    requests. *)
Theorem memory_never_exceeds_frames (c : alg_class) (frames : Z) (page_sequence : list Z) :
  1 ≤ frames →
  (∃ a file, run c frames page_sequence = Ok (a, file) ∧
             length file = length page_sequence ∧
             ∀ r, r ∈ file → Py.len (snapshot r) ≤ frames) ∧
  (∀ n : nat, ∃ self, after_steps (policy_of c) n frames page_sequence = Ok self ∧
                      Py.len (PRA.memory (attrs (policy_of c) self)) ≤ frames).
Proof.
  intros Hf. pose proof (lawful_policy c) as L.
  assert (∀ n : nat, ∃ self, after_steps (policy_of c) n frames page_sequence = Ok self ∧
                      Py.len (PRA.memory (attrs (policy_of c) self)) ≤ frames) as Hall.
  { intros n.
    destruct (after_steps_total _ _ L n frames page_sequence Hf) as (self & Hs & HI & Hfr & _).
    exists self. split; [done|].
    destruct (inv_capacity _ _ L self HI) as [_ Hcap]. by rewrite Hfr in Hcap. }
  split; [|exact Hall].
  destruct (run_spec c frames page_sequence Hf) as (self & file & _ & Hrun & _ & Hlen & Hlog).
  eexists _, _. split_and!; [exact Hrun|done|].
  intros r (k & Hk)%list_elem_of_lookup.
  destruct (Hlog k r Hk) as (selfk & Hk' & ->). simpl.
  destruct (Hall (S k)) as (self' & Hs' & Hle). congruence.
Qed.

Lemma memory_never_exceeds_frames_witness :
  1 ≤ 2 ∧
  ∃ a file, run cEnhancedCLOCK 2 example_trace = Ok (a, file) ∧
            length file = length example_trace ∧
            ∀ r, r ∈ file → Py.len (snapshot r) ≤ 2.
Proof.
  split; [lia|].
  exact (proj1 (memory_never_exceeds_frames cEnhancedCLOCK 2 example_trace ltac:(lia))).
Defined.

(** C2, as the code has it: no [simulate] validates its request.  A
    capacity of at least one frame never fails, whatever the sequence; an
    empty sequence is accepted, runs no request and leaves the two rates
    undefined; a capacity of zero frames fails inside the first request. *)
Theorem simulate_never_fails_with_a_frame (c : alg_class) :
  (∀ frames page_sequence, 1 ≤ frames → is_ok (run c frames page_sequence) = true) ∧
  (∀ frames, run c frames [] = Ok (PRA.init frames, []) ∧
             PRA.get_page_fault_rate (PRA.init frames) = Raise ZeroDivisionError ∧
             PRA.get_replacement_rate (PRA.init frames) = Raise ZeroDivisionError) ∧
  (∀ page rest, is_ok (run c 0 (page :: rest)) = false).
Proof.
  split_and!.
  - intros frames page_sequence Hf.
    destruct (run_spec c frames page_sequence Hf) as (self & file & _ & -> & _). done.
  - intros frames. split_and!; [by destruct c|done|done].
  - intros page rest. by destruct c.
Qed.

Lemma simulate_never_fails_with_a_frame_witness :
  1 ≤ 3 ∧ is_ok (run cSimpleCLOCK 3 example_trace) = true.
Proof.
  split; [lia|].
  exact (proj1 (simulate_never_fails_with_a_frame cSimpleCLOCK) 3 example_trace ltac:(lia)).
Defined.

(** C2 fails as stated: FIFO with a capacity of -1 is not rejected, it
    serves the request and returns; and the empty sequence is not rejected
    either. *)
Lemma simulate_accepts_invalid_requests :
  run cFIFO (-1) [1] = Ok (PRA.mk (-1) [1] 1 0 0, [mk_record 1 "FIFO" [1]]) ∧
  run cFIFO 3 [] = Ok (PRA.init 3, []) ∧
  ¬ (∀ c frames page_sequence,
       frames < 1 ∨ page_sequence = [] → is_ok (run c frames page_sequence) = false).
Proof.
  split_and!; [reflexivity..|].
  intros H. specialize (H cFIFO (-1) [1]).
  discriminate H. left. lia.
Qed.

(** C3, as the code has it: on the example trace with three frames, LRU
    evicted page 1 at request 4, so request 5 is a fault, as it is for FIFO;
    the two policies report the same outcome for requests 1 to 11 and
    differ first at request 12, a hit for FIFO and a fault for LRU. *)
Theorem lru_request_five_is_a_fault :
  (∃ self, after_steps (policy_of cLRU) 4 3 example_trace = Ok self ∧
           PRA.memory (LRU.super self) = [2; 3; 4]) ∧
  is_hit (policy_of cLRU) 5 3 example_trace = Ok false ∧
  is_hit (policy_of cFIFO) 5 3 example_trace = Ok false ∧
  Forall (fun k => is_hit (policy_of cLRU) k 3 example_trace =
                   is_hit (policy_of cFIFO) k 3 example_trace) (seq 1 11) ∧
  is_hit (policy_of cFIFO) 12 3 example_trace = Ok true ∧
  is_hit (policy_of cLRU) 12 3 example_trace = Ok false.
Proof.
  split_and!; try reflexivity.
  - eexists. split; reflexivity.
  - apply Forall_forall. intros k Hk%elem_of_seq.
    do 12 (destruct k as [|k]; [try lia; by vm_compute|]). lia.
Qed.

(** C3 fails as stated: request 5 is not a hit under LRU, and its outcome
    does not differ from FIFO's. *)
Lemma lru_request_five_not_a_hit :
  ¬ (is_hit (policy_of cLRU) 5 3 example_trace = Ok true ∧
     is_hit (policy_of cLRU) 5 3 example_trace ≠ is_hit (policy_of cFIFO) 5 3 example_trace).
Proof. intros [H _]. discriminate H. Qed.

(** ** One frame *)

(** With one frame the effect of a request leaves exactly the requested
    page resident, keeps the counters tied, and counts a replacement
    whenever another page was resident. *)
Lemma single_frame_request (page : Z) (a a' : PRA.t) :
  PRA.frames a = 1 → within_capacity a → request_effect page a a' →
  PRA.memory a' = [page] ∧
  (single_frame_inv a → single_frame_inv a') ∧
  (∀ q, PRA.memory a = [q] → q ≠ page →
        PRA.replacements a' = PRA.replacements a + 1 ∧
        PRA.page_faults a' = PRA.page_faults a + 1).
Proof.
  intros Hfr [_ Hlen]. unfold request_effect, hit_effect, fault_effect,
    PRA.is_page_in_memory, PRA.full, single_frame_inv.
  destruct a as [fr mem pf ph rp]. simpl in *. subst fr. unfold Py.len in *.
  destruct mem as [|q [|q' mem]]; simpl in *; [| |lia].
  - intros (Hfr' & Hpf & Hph & Hrp & Hmem). split_and!; [done| |done].
    intros (_ & [(_ & -> & ->)|[[=] _]]). split; [done|]. right.
    rewrite Hmem. simpl. split; [done|lia].
  - destruct (Py.contains page [q]) eqn:Hin.
    + apply contains_true, list_elem_of_singleton in Hin as ->.
      intros ->. simpl. split_and!; [done| |by intros q0 [= <-] Hne].
      intros (_ & [([=] & _)|(_ & ->)]). split; [done|]. right. done.
    + intros (Hfr' & Hpf & Hph & Hrp & Hlen' & Hmem).
      assert (PRA.memory a' = [page]) as Hm.
      { destruct (PRA.memory a') as [|x [|y l]]; simpl in *; try lia.
        by apply list_elem_of_singleton in Hmem as ->. }
      split_and!; [done| |].
      * intros (_ & [([=] & _)|(_ & ->)]). split; [done|]. right.
        rewrite Hm. simpl. split; [done|lia].
      * intros q0 [= <-] Hne. lia.
Qed.

(** With one frame a request has one possible effect. *)
Lemma single_frame_effect_unique (page : Z) (a a1 a2 : PRA.t) :
  PRA.frames a = 1 → within_capacity a →
  request_effect page a a1 → request_effect page a a2 → a1 = a2.
Proof.
  intros Hfr Hcap H1 H2.
  destruct (single_frame_request page a a1 Hfr Hcap H1) as (Hm1 & _).
  destruct (single_frame_request page a a2 Hfr Hcap H2) as (Hm2 & _).
  revert H1 H2. unfold request_effect, hit_effect, fault_effect.
  destruct (PRA.is_page_in_memory a page); [congruence|].
  destruct a1, a2. simpl in *. subst.
  destruct (PRA.full a); intros (-> & -> & -> & -> & _) (-> & -> & -> & -> & _); done.
Qed.

Section SingleFrame.

Variable P : Policy.
Variable Inv : state P → Prop.
Hypothesis L : Lawful P Inv.

(** Past the end of the sequence nothing more happens. *)
Lemma after_steps_past_end n frames page_sequence :
  page_sequence !! n = None →
  after_steps P (S n) frames page_sequence = after_steps P n frames page_sequence.
Proof.
  intros Hn. unfold after_steps. rewrite loop_upto_succ.
  apply lookup_ge_None in Hn. rewrite drop_ge by done.
  by destruct (loop_upto P n (new P frames) 0 page_sequence).
Qed.

Lemma after_steps_single_frame n page_sequence :
  ∃ self, after_steps P n 1 page_sequence = Ok self ∧ Inv self ∧
          single_frame_inv (attrs P self).
Proof.
  induction n as [|n (self & Hself & HI & HJ)].
  - exists (new P 1). split_and!; [by destruct page_sequence|by apply (inv_new P Inv L)|].
    rewrite (new_attrs P Inv L). split; [done|]. by left.
  - destruct (page_sequence !! n) as [page|] eqn:Hn.
    + destruct (after_steps_succ P Inv L n 1 page_sequence page ltac:(lia) Hn)
        as (self0 & self' & H0 & _ & Hfr & _ & H' & HI' & Heff).
      rewrite Hself in H0. injection H0 as <-.
      exists self'. split_and!; [done|done|].
      eapply single_frame_request; [done|by apply (inv_capacity P Inv L)|done|done].
    + exists self. split_and!; [|done|done]. by rewrite after_steps_past_end.
Qed.

End SingleFrame.

(** Any two policies agree on the inherited attributes when given one
    frame. *)
Lemma single_frame_agree (c1 c2 : alg_class) n page_sequence :
  ∃ self1 self2,
    after_steps (policy_of c1) n 1 page_sequence = Ok self1 ∧
    after_steps (policy_of c2) n 1 page_sequence = Ok self2 ∧
    attrs (policy_of c1) self1 = attrs (policy_of c2) self2.
Proof.
  pose proof (lawful_policy c1) as L1. pose proof (lawful_policy c2) as L2.
  induction n as [|n (self1 & self2 & H1 & H2 & Heq)].
  - exists (new (policy_of c1) 1), (new (policy_of c2) 1).
    split_and!; [by destruct page_sequence..|].
    by rewrite (new_attrs _ _ L1), (new_attrs _ _ L2).
  - destruct (page_sequence !! n) as [page|] eqn:Hn.
    + destruct (after_steps_succ _ _ L1 n 1 page_sequence page ltac:(lia) Hn)
        as (s1 & s1' & E1 & HI1 & Hfr1 & _ & E1' & _ & Heff1).
      destruct (after_steps_succ _ _ L2 n 1 page_sequence page ltac:(lia) Hn)
        as (s2 & s2' & E2 & HI2 & Hfr2 & _ & E2' & _ & Heff2).
      rewrite H1 in E1. injection E1 as <-. rewrite H2 in E2. injection E2 as <-.
      exists s1', s2'. split_and!; [done|done|].
      rewrite <- Heq in Heff2.
      eapply single_frame_effect_unique; [exact Hfr1| |exact Heff1|exact Heff2].
      by apply (inv_capacity _ _ L1).
    + exists self1, self2. split_and!; [| |done].
      * by rewrite (after_steps_past_end (policy_of c1)).
      * by rewrite (after_steps_past_end (policy_of c2)).
Qed.

(** C7: with one frame and a non-empty sequence, each of the six policies
    leaves exactly the requested page resident after every request, so a
    fault on a page other than the resident one evicts it and counts a
    replacement; at the end [replacements = page_faults - 1]. *)
Theorem single_frame_replacements (c : alg_class) (page_sequence : list Z) :
  page_sequence ≠ [] →
  (∃ a file, run c 1 page_sequence = Ok (a, file) ∧
             PRA.replacements a = PRA.page_faults a - 1 ∧
             snapshot <$> file = (fun page => [page]) <$> page_sequence) ∧
  (∀ (n : nat) page, page_sequence !! n = Some page →
     ∃ self self',
       after_steps (policy_of c) n 1 page_sequence = Ok self ∧
       after_steps (policy_of c) (S n) 1 page_sequence = Ok self' ∧
       let a := attrs (policy_of c) self in
       let a' := attrs (policy_of c) self' in
       PRA.memory a' = [page] ∧
       ∀ q, PRA.memory a = [q] → q ≠ page →
            PRA.replacements a' = PRA.replacements a + 1 ∧
            PRA.page_faults a' = PRA.page_faults a + 1).
Proof.
  intros Hne. pose proof (lawful_policy c) as L.
  assert (∀ (n : nat) page, page_sequence !! n = Some page →
     ∃ self self',
       after_steps (policy_of c) n 1 page_sequence = Ok self ∧
       after_steps (policy_of c) (S n) 1 page_sequence = Ok self' ∧
       single_frame_inv (attrs (policy_of c) self') ∧
       PRA.memory (attrs (policy_of c) self') = [page] ∧
       ∀ q, PRA.memory (attrs (policy_of c) self) = [q] → q ≠ page →
            PRA.replacements (attrs (policy_of c) self') =
              PRA.replacements (attrs (policy_of c) self) + 1 ∧
            PRA.page_faults (attrs (policy_of c) self') =
              PRA.page_faults (attrs (policy_of c) self) + 1) as Hstep.
  { intros n page Hn.
    destruct (after_steps_succ _ _ L n 1 page_sequence page ltac:(lia) Hn)
      as (self & self' & H0 & HI & Hfr & _ & H' & _ & Heff).
    destruct (after_steps_single_frame _ _ L n page_sequence) as (self0 & E0 & _ & HJ).
    rewrite H0 in E0. injection E0 as <-.
    destruct (single_frame_request page _ _ Hfr (inv_capacity _ _ L self HI) Heff)
      as (Hm & HJ' & Hev).
    exists self, self'. split_and!; [done|done|by apply HJ'|done|done]. }
  split.
  - destruct (run_spec c 1 page_sequence ltac:(lia)) as (self & file & _ & Hrun & Hend & Hlen & Hlog).
    exists (attrs (policy_of c) self), file. split_and!; [done| |].
    + destruct (exists_last Hne) as (front & page & ->).
      assert ((front ++ [page]) !! length front = Some page) as Hlast.
      { by rewrite lookup_app_r, Nat.sub_diag. }
      destruct (Hstep _ _ Hlast) as (s & s' & _ & Hs' & HJ & Hm & _).
      rewrite length_app in Hend. simpl in Hend.
      rewrite Nat.add_1_r, Hs' in Hend. injection Hend as <-.
      destruct HJ as (_ & [(Hnil & _)|(_ & ->)]); [congruence|done].
    + apply list_eq. intros k. rewrite !list_lookup_fmap.
      destruct (page_sequence !! k) as [page|] eqn:Hk; simpl.
      * destruct (lookup_lt_is_Some_2 file k) as (r & Hr).
        { rewrite Hlen. by eapply lookup_lt_Some. }
        rewrite Hr. simpl. destruct (Hlog k r Hr) as (selfk & Hk' & ->). simpl.
        destruct (Hstep k page Hk) as (s & s' & _ & Hs' & _ & Hm & _).
        rewrite Hk' in Hs'. injection Hs' as <-. by rewrite Hm.
      * apply lookup_ge_None in Hk. rewrite lookup_ge_None_2; [done|lia].
  - intros n page Hn. destruct (Hstep n page Hn) as (s & s' & ? & ? & _ & ? & ?).
    exists s, s'. by split_and!.
Qed.

Lemma single_frame_replacements_witness :
  example_trace ≠ [] ∧
  ∃ a file, run cOPT 1 example_trace = Ok (a, file) ∧
            PRA.replacements a = PRA.page_faults a - 1 ∧
            snapshot <$> file = (fun page => [page]) <$> example_trace.
Proof.
  split; [discriminate|].
  exact (proj1 (single_frame_replacements cOPT example_trace ltac:(discriminate))).
Defined.

(** C4, as the code has it: with at least one frame, every modify bit of
    EnhancedCLOCK is clear after any number of requests; given one frame,
    EnhancedCLOCK and SimpleCLOCK hold the same memory and the same three
    counters after any number of requests. *)
Theorem enhanced_clock_modify_bit_never_set (page_sequence : list Z) (n : nat) :
  (∀ frames, 1 ≤ frames →
     ∃ self, after_steps (policy_of cEnhancedCLOCK) n frames page_sequence = Ok self ∧
             EnhancedCLOCK.modify_bit self = Py.all_false frames ∧
             ∀ k b, EnhancedCLOCK.modify_bit self !! k = Some b → b = false) ∧
  (∃ simple enhanced,
     after_steps (policy_of cSimpleCLOCK) n 1 page_sequence = Ok simple ∧
     after_steps (policy_of cEnhancedCLOCK) n 1 page_sequence = Ok enhanced ∧
     SimpleCLOCK.super simple = EnhancedCLOCK.super enhanced).
Proof.
  split.
  - intros frames Hf.
    destruct (after_steps_total _ _ EnhancedCLOCK_lawful n frames page_sequence Hf)
      as (self & Hself & (_ & _ & Hm & _) & Hfr & _).
    simpl in Hfr. rewrite Hfr in Hm.
    exists self. split_and!; [done|done|].
    intros k b. rewrite Hm. apply all_false_value.
  - apply (single_frame_agree cSimpleCLOCK cEnhancedCLOCK).
Qed.

Lemma enhanced_clock_modify_bit_never_set_witness :
  1 ≤ 3 ∧
  ∃ self, after_steps (policy_of cEnhancedCLOCK) 12 3 example_trace = Ok self ∧
          EnhancedCLOCK.modify_bit self = Py.all_false 3 ∧
          ∀ k b, EnhancedCLOCK.modify_bit self !! k = Some b → b = false.
Proof.
  split; [lia|].
  exact (proj1 (enhanced_clock_modify_bit_never_set example_trace 12) 3 ltac:(lia)).
Defined.

(** C4 fails as stated: on the example trace with three frames the two
    clocks hold different pages after request 5 and end with different
    counters. *)
Lemma clocks_differ_on_example :
  ∃ simple enhanced log_simple log_enhanced,
    run cSimpleCLOCK 3 example_trace = Ok (simple, log_simple) ∧
    run cEnhancedCLOCK 3 example_trace = Ok (enhanced, log_enhanced) ∧
    snapshot <$> log_simple !! 4%nat = Some [4; 1; 3] ∧
    snapshot <$> log_enhanced !! 4%nat = Some [4; 2; 1] ∧
    (PRA.page_faults simple, PRA.page_hits simple, PRA.replacements simple) = (10, 2, 7) ∧
    (PRA.page_faults enhanced, PRA.page_hits enhanced, PRA.replacements enhanced) = (11, 1, 8).
Proof.
  destruct (run cSimpleCLOCK 3 example_trace) as [[simple log_simple]|] eqn:Hs;
    [|by vm_compute in Hs].
  destruct (run cEnhancedCLOCK 3 example_trace) as [[enhanced log_enhanced]|] eqn:He;
    [|by vm_compute in He].
  exists simple, enhanced, log_simple, log_enhanced.
  vm_compute in Hs. vm_compute in He.
  injection Hs as <- <-. injection He as <- <-.
  split_and!; reflexivity.
Qed.

(** ** Victims *)

Lemma remove_middle (x : Z) (pre post : list Z) :
  x ∉ pre → Py.remove x (pre ++ x :: post) = Ok (pre ++ post).
Proof.
  induction pre as [|y pre IH]; simpl; intros Hx.
  - by rewrite bool_decide_eq_true_2.
  - apply not_elem_of_cons in Hx as [Hne Hx].
    rewrite bool_decide_eq_false_2 by done. by rewrite IH.
Qed.

(** [index] returns the position of the next request for the page, and
    only that. *)
Lemma index_next_use (x : Z) (l : list Z) (i : Z) :
  Py.index x l = Ok i → 0 ≤ i ∧ next_use l x (Z.to_nat i).
Proof.
  revert i. induction l as [|y l IH]; intros i; simpl; [done|].
  case_bool_decide as Hy.
  - intros [= <-]. subst y. split; [lia|]. split; [done|]. intros j Hj. lia.
  - intros (i' & Hi' & [= <-])%bind_ok. destruct (IH i' Hi') as (Hpos & Hat & Hbefore).
    split; [lia|]. replace (Z.to_nat (i' + 1)) with (S (Z.to_nat i')) by lia.
    split; [done|]. intros [|j] Hj; simpl; [congruence|]. apply Hbefore. lia.
Qed.

Lemma next_use_unique (future : list Z) (p : Z) (k1 k2 : nat) :
  next_use future p k1 → next_use future p k2 → k1 = k2.
Proof.
  intros [H1 Hb1] [H2 Hb2].
  destruct (lt_eq_lt_dec k1 k2) as [[Hlt|Heq]|Hgt]; [|done|].
  - by destruct (Hb2 k1 Hlt).
  - by destruct (Hb1 k2 Hgt).
Qed.

Lemma next_use_index (future : list Z) (p : Z) (k : nat) :
  next_use future p k → Py.index p future = Ok (Z.of_nat k).
Proof.
  intros Hk. assert (p ∈ future) as Hin by (destruct Hk as [Hk _]; by eapply list_elem_of_lookup_2).
  destruct (index_member p future Hin) as (i & Hi & _).
  destruct (index_next_use p future i Hi) as [Hpos Hi'].
  rewrite (next_use_unique future p k (Z.to_nat i) Hk Hi'), Hi. f_equal. lia.
Qed.

(** When some resident page never returns, the scan stops at the first such
    page of the memory list. *)
Lemma scan_first_unused (future mem : list Z) (last_used : Z) (page_to_replace : option Z) :
  (∃ p, p ∈ mem ∧ p ∉ future) →
  ∃ before v after,
    OPT.scan future mem last_used page_to_replace = Ok (Some v) ∧
    mem = before ++ v :: after ∧ (v ∉ future) ∧ (∀ p, p ∈ before → p ∈ future).
Proof.
  revert last_used page_to_replace.
  induction mem as [|q mem IH]; intros lu ptr (p & Hp & Hnot).
  - by apply elem_of_nil in Hp.
  - simpl. destruct (Py.contains q future) eqn:Hq; simpl.
    + apply contains_true in Hq.
      destruct (index_member q future Hq) as (j & -> & _). simpl.
      assert (∃ p, p ∈ mem ∧ p ∉ future) as Hex.
      { apply elem_of_cons in Hp as [->|Hp]; [done|eauto]. }
      case_bool_decide.
      * destruct (IH j (Some q) Hex) as (before & v & after & -> & -> & Hv & Hb).
        exists (q :: before), v, after. split_and!; [done|done|done|].
        intros p' [->|Hp']%elem_of_cons; [done|by apply Hb].
      * destruct (IH lu ptr Hex) as (before & v & after & -> & -> & Hv & Hb).
        exists (q :: before), v, after. split_and!; [done|done|done|].
        intros p' [->|Hp']%elem_of_cons; [done|by apply Hb].
    + apply contains_false in Hq. exists [], q, mem. split_and!; [done|done|done|].
      intros p' Hp'. by apply elem_of_nil in Hp'.
Qed.

(** The page the search names, by where it is next requested: the first
    resident page that never returns when there is one, and otherwise the
    resident page whose next request comes last. *)
Lemma find_longest_unused_page_next_use (future : list Z) (self : OPT.t) :
  let mem := PRA.memory (OPT.super self) in
  mem ≠ [] →
  ∃ before victim after,
    OPT.find_longest_unused_page self future = Ok (Some victim) ∧
    mem = before ++ victim :: after ∧
    (((victim ∉ future) ∧ (∀ p, p ∈ before → p ∈ future)) ∨
     ((∀ p, p ∈ mem → p ∈ future) ∧
      ∃ kv, next_use future victim kv ∧
            ∀ p kp, p ∈ mem → p ≠ victim → next_use future p kp → (kp < kv)%nat)).
Proof.
  intros mem Hne.
  destruct (decide (Forall (fun p => p ∈ future) mem)) as [Hall|Hsome].
  - rewrite Forall_forall in Hall.
    destruct (find_longest_unused_page_spec future self Hne)
      as (v & Hfind & Hv & _ & Hused).
    destruct (Hused Hall) as (i & Hi & Hmax).
    destruct (index_next_use v future i Hi) as [Hpos Hnext].
    apply list_elem_of_split in Hv as (before & after & Hsplit).
    exists before, v, after. split_and!; [done|done|]. right. split; [done|].
    exists (Z.to_nat i). split; [done|]. intros p kp Hp Hne' Hkp.
    pose proof (Hmax p (Z.of_nat kp) Hp (next_use_index future p kp Hkp)) as Hle.
    destruct (decide (kp = Z.to_nat i)) as [->|]; [|lia].
    destruct Hnext as [Hnext _]. destruct Hkp as [Hkp _]. congruence.
  - apply not_Forall_Exists in Hsome; [|apply _].
    apply Exists_exists in Hsome as (p & Hp & Hnot).
    destruct (scan_first_unused future mem (-1) None) as (before & v & after & Hfind & Hsplit & Hv & Hb);
      [by eauto|].
    exists before, v, after. split_and!; [done|done|]. by left.
Qed.

(** C8: whenever OPT faults with its memory full, it takes one resident
    page out of the memory list and appends the new page.  The page taken
    out is the first resident page that is never requested again, when
    there is one: such a page goes before any page that returns.  When every
    resident page is requested again, it is the one whose next request lies
    farthest ahead in the rest of the sequence, farther than the next
    request for any other resident page. *)
Theorem opt_evicts_farthest_next_use (frames : Z) (page_sequence : list Z)
    (n : nat) (page : Z) (self : OPT.t) :
  let mem := PRA.memory (OPT.super self) in
  let future := drop (S n) page_sequence in
  1 ≤ frames → page_sequence !! n = Some page →
  after_steps (policy_of cOPT) n frames page_sequence = Ok self →
  page ∉ mem → Py.len mem = frames →
  ∃ self' before victim after,
    after_steps (policy_of cOPT) (S n) frames page_sequence = Ok self' ∧
    OPT.find_longest_unused_page self future = Ok (Some victim) ∧
    mem = before ++ victim :: after ∧
    PRA.memory (OPT.super self') = before ++ after ++ [page] ∧
    (((victim ∉ future) ∧ (∀ p, p ∈ before → p ∈ future)) ∨
     ((∀ p, p ∈ mem → p ∈ future) ∧
      ∃ kv, next_use future victim kv ∧
            ∀ p kp, p ∈ mem → p ≠ victim → next_use future p kp → (kp < kv)%nat)).
Proof.
  intros mem future Hf Hn Hself Hout Hfull. subst mem future.
  destruct (after_steps_succ _ _ OPT_lawful n frames page_sequence page Hf Hn)
    as (self0 & self' & H0 & HI & Hfr & Hstep & H' & _ & _).
  rewrite Hself in H0. injection H0 as <-.
  destruct HI as (_ & Hnd).
  destruct self as [a]. simpl in *.
  destruct (find_longest_unused_page_next_use (drop (S n) page_sequence) (OPT.mk a))
    as (before & victim & after & Hfind & Hsplit & Hcase).
  { simpl. intros Hnil. rewrite Hnil in Hfull. unfold Py.len in Hfull. simpl in Hfull. lia. }
  simpl in *.
  assert (victim ∉ before) as Hvb.
  { rewrite Hsplit in Hnd. apply NoDup_app in Hnd as (_ & Hdis & _).
    intros Hin. apply (Hdis victim Hin). set_solver. }
  exists self', before, victim, after. split_and!; try done.
  unfold OPT.body, PRA.is_page_in_memory in Hstep. simpl in Hstep.
  rewrite (proj2 (contains_false _ _) Hout) in Hstep. simpl in Hstep.
  unfold PRA.full in Hstep. simpl in Hstep.
  rewrite bool_decide_eq_true_2 in Hstep by congruence. simpl in Hstep.
  unfold OPT.find_longest_unused_page in Hfind, Hstep. simpl in Hfind, Hstep.
  rewrite Hfind in Hstep. simpl in Hstep.
  rewrite Hsplit, (remove_middle victim before after Hvb) in Hstep. simpl in Hstep.
  injection Hstep as <-. simpl. by rewrite <- app_assoc.
Qed.

Lemma opt_evicts_farthest_next_use_witness :
  let self := OPT.mk (PRA.mk 3 [1; 2; 3] 3 0 0) in
  let mem := [1; 2; 3] in
  let future := [1; 2; 5; 1; 2; 3; 4; 5] in
  ∃ self' before victim after,
    after_steps (policy_of cOPT) 4 3 example_trace = Ok self' ∧
    OPT.find_longest_unused_page self future = Ok (Some victim) ∧
    mem = before ++ victim :: after ∧
    PRA.memory (OPT.super self') = before ++ after ++ [4] ∧
    (((victim ∉ future) ∧ (∀ p, p ∈ before → p ∈ future)) ∨
     ((∀ p, p ∈ mem → p ∈ future) ∧
      ∃ kv, next_use future victim kv ∧
            ∀ p kp, p ∈ mem → p ≠ victim → next_use future p kp → (kp < kv)%nat)).
Proof.
  apply (opt_evicts_farthest_next_use 3 example_trace 3 4
           (OPT.mk (PRA.mk 3 [1; 2; 3] 3 0 0))).
  - lia.
  - reflexivity.
  - reflexivity.
  - apply (bool_decide_unpack _). reflexivity.
  - reflexivity.
Defined.

(** One request of LFU, case by case. *)
Lemma lfu_request (frames : Z) (page_sequence : list Z)
    (n : nat) (page : Z) (self : LFU.t) :
  let mem := PRA.memory (LFU.super self) in
  let freq := LFU.page_frequency self in
  1 ≤ frames → page_sequence !! n = Some page →
  after_steps (policy_of cLFU) n frames page_sequence = Ok self →
  ∃ self',
    after_steps (policy_of cLFU) (S n) frames page_sequence = Ok self' ∧
    let mem' := PRA.memory (LFU.super self') in
    let freq' := LFU.page_frequency self' in
    (∀ p, p ≠ page → p ∈ mem' → Py.get freq' p = Py.get freq p) ∧
    if Py.contains page mem
    then mem' = mem ∧ ∃ f, Py.get freq page = Ok f ∧ Py.get freq' page = Ok (f + 1)
    else
      Py.get freq' page = Ok 1 ∧
      if PRA.full (LFU.super self)
      then ∃ before victim after fv,
             mem = before ++ victim :: after ∧
             mem' = before ++ after ++ [page] ∧
             Py.get freq victim = Ok fv ∧
             (∀ p, p ∈ mem → ∃ fp, Py.get freq p = Ok fp ∧ fv ≤ fp) ∧
             (∀ p, p ∈ before → ∃ fp, Py.get freq p = Ok fp ∧ fv < fp)
      else mem' = mem ++ [page].
Proof.
  intros mem freq Hf Hn Hself. subst mem freq.
  destruct (after_steps_succ _ _ LFU_lawful n frames page_sequence page Hf Hn)
    as (self0 & self' & H0 & HI & Hfr & Hstep & H' & _ & _).
  rewrite Hself in H0. injection H0 as <-.
  exists self'. split; [done|]. clear H' Hself Hn.
  destruct self as [a d]. pose proof HI as (_ & Hk & Hnd). simpl in *.
  unfold LFU.body, PRA.is_page_in_memory in Hstep. simpl in Hstep.
  destruct (Py.contains page (PRA.memory a)) eqn:Hin; simpl in Hstep.
  - apply contains_true in Hin.
    destruct (get_member d page) as (f & Hget & _); [by rewrite Hk|].
    rewrite Hget in Hstep. simpl in Hstep. injection Hstep as <-. simpl.
    split_and!; [|done|].
    + intros p Hne _. by apply get_set_ne.
    + exists f. split; [done|apply get_set_eq].
  - apply contains_false in Hin.
    unfold PRA.full in *. simpl in Hstep.
    case_bool_decide as Hfull; simpl in Hstep.
    + destruct (find_least_frequent_page_spec (LFU.mk a d) HI)
        as (before & victim & after & fv & Hfind & Hmem & Hfv & Hmin & Hbefore).
      { simpl. intros Hnil. rewrite Hnil in Hfull. unfold Py.len in Hfull.
        simpl in Hfull. lia. }
      simpl in *.
      unfold LFU.find_least_frequent_page in Hfind, Hstep. simpl in Hfind, Hstep.
      rewrite Hfind in Hstep. simpl in Hstep.
      rewrite Hmem in Hnd. apply NoDup_app in Hnd as (Hndb & Hdisj & Hnda).
      apply NoDup_cons in Hnda as [Hva Hnda].
      assert (victim ∉ before) as Hvb.
      { intros Hvb. apply (Hdisj victim Hvb). set_solver. }
      rewrite Hmem, remove_middle in Hstep by done. simpl in Hstep.
      destruct (del_member d victim) as (d' & Hdel & _ & Hother).
      { rewrite Hk, Hmem. set_solver. }
      rewrite Hdel in Hstep. simpl in Hstep. injection Hstep as <-. simpl.
      split_and!.
      * intros p Hne Hp. rewrite get_set_ne by done. apply Hother.
        intros ->. set_solver.
      * apply get_set_eq.
      * exists before, victim, after, fv.
        split_and!; [done|by rewrite <- app_assoc|done|done|done].
    + injection Hstep as <-. simpl. split_and!; [|apply get_set_eq|done].
      intros p Hne _. by apply get_set_ne.
Qed.

(** ** Insertion order *)

Section InsertionOrder.

Variable P : Policy.
Variables (frames : Z) (page_sequence : list Z).

Lemma inserted_at_unique n p k1 k2 :
  inserted_at P frames page_sequence n p k1 →
  inserted_at P frames page_sequence n p k2 → k1 = k2.
Proof.
  intros (Hk1 & Hf1 & Hlast1) (Hk2 & Hf2 & Hlast2).
  destruct (lt_eq_lt_dec k1 k2) as [[Hlt|Heq]|Hgt]; [|done|].
  - destruct (Hlast1 k2); [lia|done].
  - destruct (Hlast2 k1); [lia|done].
Qed.

Lemma inserted_at_keep n p k :
  inserted_at P frames page_sequence n p k →
  ¬ faults_at P frames page_sequence n p →
  inserted_at P frames page_sequence (S n) p k.
Proof.
  intros (Hk & Hf & Hlast) Hnot. split_and!; [lia|done|].
  intros j Hj. destruct (decide (j = n)) as [->|]; [done|]. apply Hlast. lia.
Qed.

Lemma inserted_at_now n p :
  faults_at P frames page_sequence n p →
  inserted_at P frames page_sequence (S n) p n.
Proof. intros Hf. split_and!; [lia|done|]. intros j Hj. lia. Qed.

End InsertionOrder.

(** Appending a page that has just faulted after older pages keeps the
    list in the order of insertion. *)
Lemma insertion_order_step (t : Z → nat) (n : nat) (page : Z) (l1 l2 : list Z) :
  let t' := fun p => if decide (p = page) then n else t p in
  StronglySorted (fun p q => (t p < t q)%nat) l1 →
  StronglySorted (fun p q => (t p < t q)%nat) l2 →
  (∀ x y, x ∈ l1 → y ∈ l2 → (t x < t y)%nat) →
  page ∉ l1 → page ∉ l2 →
  (∀ p, p ∈ l1 ++ l2 → (t p < n)%nat) →
  StronglySorted (fun p q => (t' p < t' q)%nat) (l1 ++ l2 ++ [page]).
Proof.
  intros t' H1 H2 H12 Hp1 Hp2 Hn.
  assert (∀ l, page ∉ l → StronglySorted (fun p q => (t p < t q)%nat) l →
               StronglySorted (fun p q => (t' p < t' q)%nat) l) as Hmono.
  { induction l as [|x l IH]; intros Hl Hs; [constructor|].
    apply not_elem_of_cons in Hl as [Hx Hl].
    apply StronglySorted_cons in Hs as [Hall Hs].
    apply StronglySorted_cons. split; [|by apply IH].
    rewrite Forall_forall in *. intros y Hy. unfold t'.
    rewrite !decide_False; [by apply Hall|set_solver|done]. }
  assert (∀ x, x ∈ l1 ++ l2 → t' x = t x) as Hsame.
  { intros x Hx. unfold t'. rewrite decide_False; [done|]. set_solver. }
  assert (t' page = n) as Hpage by (unfold t'; by rewrite decide_True).
  rewrite !StronglySorted_app. split_and!.
  - intros x y Hx [Hy| ->%list_elem_of_singleton]%elem_of_app.
    + rewrite !Hsame by set_solver. by apply H12.
    + rewrite Hpage, Hsame by set_solver. apply Hn. set_solver.
  - by apply Hmono.
  - intros x y Hx ->%list_elem_of_singleton.
    rewrite Hpage, Hsame by set_solver. apply Hn. set_solver.
  - by apply Hmono.
  - repeat constructor.
Qed.

(** After any number of requests the memory of LFU lists its pages in the
    order in which they were last brought in. *)
Lemma lfu_insertion_order (frames : Z) (page_sequence : list Z) (n : nat) :
  1 ≤ frames →
  ∃ self (t : Z → nat),
    after_steps (policy_of cLFU) n frames page_sequence = Ok self ∧
    (∀ p, p ∈ PRA.memory (LFU.super self) →
          inserted_at (policy_of cLFU) frames page_sequence n p (t p)) ∧
    StronglySorted (fun p q => (t p < t q)%nat) (PRA.memory (LFU.super self)).
Proof.
  intros Hf. induction n as [|n (self & t & Hself & Hins & Hsorted)].
  - exists (LFU.init frames), (fun _ => 0%nat).
    split_and!; [by destruct page_sequence| |constructor].
    intros p Hp. by apply elem_of_nil in Hp.
  - destruct (page_sequence !! n) as [page|] eqn:Hn.
    + destruct (lfu_request frames page_sequence n page self Hf Hn Hself)
        as (self' & Hself' & Hother & Hcase).
      assert (∀ p, p ≠ page → ¬ faults_at (policy_of cLFU) frames page_sequence n p) as Hnot.
      { intros p Hne (Hp & _). congruence. }
      destruct (Py.contains page (PRA.memory (LFU.super self))) eqn:Hin.
      * apply contains_true in Hin. destruct Hcase as (Hmem & _).
        exists self', t. rewrite Hmem. split_and!; [done| |done].
        intros p Hp. apply inserted_at_keep; [by apply Hins|].
        intros (Hp' & s & Hs & Hout). rewrite Hself in Hs. injection Hs as <-.
        assert (p = page) as -> by congruence. done.
      * apply contains_false in Hin. destruct Hcase as (_ & Hcase).
        set (t' := fun p => if decide (p = page) then n else t p).
        assert (inserted_at (policy_of cLFU) frames page_sequence (S n) page (t' page)) as Hnow.
        { unfold t'. rewrite decide_True by done. apply inserted_at_now.
          split; [done|]. by exists self. }
        assert (∀ p, p ∈ PRA.memory (LFU.super self) → p ≠ page →
                     inserted_at (policy_of cLFU) frames page_sequence (S n) p (t' p)) as Hold.
        { intros p Hp Hne. unfold t'. rewrite decide_False by done.
          apply inserted_at_keep; [by apply Hins|by apply Hnot]. }
        assert (∀ p, p ∈ PRA.memory (LFU.super self) → (t p < n)%nat) as Hlt.
        { intros p Hp. by destruct (Hins p Hp) as (? & _). }
        exists self', t'. split; [done|].
        destruct (PRA.full (LFU.super self)).
        -- destruct Hcase as (before & victim & after & fv & Hmem & -> & _).
           rewrite Hmem in *.
           apply StronglySorted_app in Hsorted as (H12 & H1 & H2).
           apply StronglySorted_cons in H2 as [_ H2].
           split.
           ++ intros p [Hp|[Hp| ->%list_elem_of_singleton]%elem_of_app]%elem_of_app;
                [apply Hold; set_solver..|done].
           ++ apply insertion_order_step; try done; [set_solver..|].
              intros p Hp. apply Hlt. set_solver.
        -- rewrite Hcase. split.
           ++ intros p [Hp| ->%list_elem_of_singleton]%elem_of_app; [|done].
              apply Hold; set_solver.
           ++ rewrite <- (app_nil_l [page]).
              apply insertion_order_step; try done; [constructor|set_solver..|].
              intros p Hp. apply Hlt. set_solver.
    + exists self, t. split_and!; [|intros p Hp|done].
      * by rewrite (after_steps_past_end (policy_of cLFU)).
      * apply inserted_at_keep; [by apply Hins|]. intros (Hp' & _). congruence.
Qed.

(** C9: a page enters LFU's dictionary with frequency 1 and gains 1 with
    every hit, the frequencies of the other resident pages staying as they
    are; when LFU faults with its memory full, the page it removes is
    resident, no resident page has a smaller frequency, every page before
    it in the memory list has a strictly larger one, and every other
    resident page of the same frequency was brought in later. *)
Theorem lfu_evicts_first_least_frequent (frames : Z) (page_sequence : list Z)
    (n : nat) (page : Z) (self : LFU.t) :
  let mem := PRA.memory (LFU.super self) in
  let freq := LFU.page_frequency self in
  1 ≤ frames → page_sequence !! n = Some page →
  after_steps (policy_of cLFU) n frames page_sequence = Ok self →
  ∃ self',
    after_steps (policy_of cLFU) (S n) frames page_sequence = Ok self' ∧
    let mem' := PRA.memory (LFU.super self') in
    let freq' := LFU.page_frequency self' in
    (∀ p, p ≠ page → p ∈ mem' → Py.get freq' p = Py.get freq p) ∧
    if Py.contains page mem
    then mem' = mem ∧ ∃ f, Py.get freq page = Ok f ∧ Py.get freq' page = Ok (f + 1)
    else
      Py.get freq' page = Ok 1 ∧
      if PRA.full (LFU.super self)
      then ∃ before victim after fv,
             mem = before ++ victim :: after ∧
             mem' = before ++ after ++ [page] ∧
             Py.get freq victim = Ok fv ∧
             (∀ p, p ∈ mem → ∃ fp, Py.get freq p = Ok fp ∧ fv ≤ fp) ∧
             (∀ p, p ∈ before → ∃ fp, Py.get freq p = Ok fp ∧ fv < fp) ∧
             ∃ kv, inserted_at (policy_of cLFU) frames page_sequence n victim kv ∧
                   ∀ p kp, p ∈ mem → p ≠ victim → Py.get freq p = Ok fv →
                           inserted_at (policy_of cLFU) frames page_sequence n p kp →
                           (kv < kp)%nat
      else mem' = mem ++ [page].
Proof.
  intros mem freq Hf Hn Hself. subst mem freq.
  destruct (lfu_request frames page_sequence n page self Hf Hn Hself)
    as (self' & Hself' & Hother & Hcase).
  exists self'. split; [done|]. split; [done|]. simpl in *.
  destruct (Py.contains page (PRA.memory (LFU.super self))); [done|].
  destruct Hcase as (Hone & Hcase). split; [done|].
  destruct (PRA.full (LFU.super self)); [|done].
  destruct Hcase as (before & victim & after & fv & Hmem & Hmem' & Hfv & Hmin & Hbefore).
  exists before, victim, after, fv. split_and!; try done.
  destruct (lfu_insertion_order frames page_sequence n Hf) as (self0 & t & H0 & Hins & Hsorted).
  simpl in H0. rewrite Hself in H0. injection H0 as <-.
  exists (t victim). split; [apply Hins; rewrite Hmem; set_solver|].
  intros p kp Hp Hne Hfp Hkp.
  assert (kp = t p) as -> by (eapply inserted_at_unique; [done|by apply Hins]).
  rewrite Hmem in Hp, Hsorted.
  apply StronglySorted_app in Hsorted as (_ & _ & Hs).
  apply StronglySorted_cons in Hs as [Hall _]. rewrite Forall_forall in Hall.
  apply elem_of_app in Hp as [Hp|[->|Hp]%elem_of_cons]; [|done|by apply Hall].
  destruct (Hbefore p Hp) as (fp & Hfp' & Hlt). rewrite Hfp in Hfp'.
  injection Hfp' as <-. lia.
Qed.

Lemma lfu_evicts_first_least_frequent_witness :
  let mem := [1; 2; 5] in
  let freq := [(1, 2); (2, 2); (5, 1)] in
  ∃ self',
    after_steps (policy_of cLFU) 10 3 example_trace = Ok self' ∧
    let mem' := PRA.memory (LFU.super self') in
    let freq' := LFU.page_frequency self' in
    (∀ p, p ≠ 3 → p ∈ mem' → Py.get freq' p = Py.get freq p) ∧
    Py.get freq' 3 = Ok 1 ∧
    ∃ before victim after fv,
      mem = before ++ victim :: after ∧
      mem' = before ++ after ++ [3] ∧
      Py.get freq victim = Ok fv ∧
      (∀ p, p ∈ mem → ∃ fp, Py.get freq p = Ok fp ∧ fv ≤ fp) ∧
      (∀ p, p ∈ before → ∃ fp, Py.get freq p = Ok fp ∧ fv < fp) ∧
      ∃ kv, inserted_at (policy_of cLFU) 3 example_trace 9 victim kv ∧
            ∀ p kp, p ∈ mem → p ≠ victim → Py.get freq p = Ok fv →
                    inserted_at (policy_of cLFU) 3 example_trace 9 p kp →
                    (kv < kp)%nat.
Proof.
  apply (lfu_evicts_first_least_frequent 3 example_trace 9 3
           (LFU.mk (PRA.mk 3 [1; 2; 5] 7 2 4) [(1, 2); (2, 2); (5, 1)])).
  - lia.
  - reflexivity.
  - reflexivity.
Defined.

(** C10: for each of the six policies, a request whose page is resident
    leaves the memory, the fault count and the replacement count as they
    were and adds one to the hit count; besides that it only touches the
    policy's own bookkeeping: the access time (LRU), the frequency (LFU) or
    the use bit of the page's slot (the two clocks). *)
Theorem hit_changes_only_bookkeeping (c : alg_class) (frames : Z)
    (page_sequence : list Z) (n : nat) (page : Z) (self : state (policy_of c)) :
  1 ≤ frames → page_sequence !! n = Some page →
  after_steps (policy_of c) n frames page_sequence = Ok self →
  page ∈ PRA.memory (attrs (policy_of c) self) →
  ∃ self',
    after_steps (policy_of c) (S n) frames page_sequence = Ok self' ∧
    let a := attrs (policy_of c) self in
    let a' := attrs (policy_of c) self' in
    PRA.memory a' = PRA.memory a ∧
    PRA.page_faults a' = PRA.page_faults a ∧
    PRA.replacements a' = PRA.replacements a ∧
    PRA.page_hits a' = PRA.page_hits a + 1 ∧
    PRA.frames a' = PRA.frames a ∧
    hit_bookkeeping c self (Z.of_nat n) page self'.
Proof.
  intros Hf Hn Hself Hin.
  destruct (after_steps_succ _ _ (lawful_policy c) n frames page_sequence page Hf Hn)
    as (self0 & self' & H0 & HI & Hfr & Hstep & H' & _ & Heff).
  rewrite Hself in H0. injection H0 as <-.
  exists self'. split; [done|]. simpl.
  unfold request_effect, PRA.is_page_in_memory in Heff.
  pose proof (proj2 (contains_true _ _) Hin) as Hc. rewrite Hc in Heff.
  unfold hit_effect in Heff. rewrite Heff. simpl.
  split_and!; try done. clear Heff H' Hself.
  destruct c; simpl in *.
  - unfold FIFO.body, PRA.is_page_in_memory in Hstep. rewrite Hc in Hstep.
    simpl in Hstep. by injection Hstep as <-.
  - unfold LRU.body, PRA.is_page_in_memory in Hstep. rewrite Hc in Hstep.
    simpl in Hstep. by injection Hstep as <-.
  - done.
  - unfold LFU.body, PRA.is_page_in_memory in Hstep. rewrite Hc in Hstep.
    simpl in Hstep.
    destruct (Py.get (LFU.page_frequency self) page) as [f|] eqn:Hget; [|done].
    simpl in Hstep. injection Hstep as <-. by exists f.
  - unfold SimpleCLOCK.body, PRA.is_page_in_memory in Hstep. rewrite Hc in Hstep.
    simpl in Hstep.
    destruct (Py.index page (PRA.memory (SimpleCLOCK.super self))) as [slot|] eqn:Hidx; [|done].
    simpl in Hstep. injection Hstep as <-. split; [done|]. by exists slot.
  - unfold EnhancedCLOCK.body, PRA.is_page_in_memory in Hstep. rewrite Hc in Hstep.
    simpl in Hstep.
    destruct (Py.index page (PRA.memory (EnhancedCLOCK.super self))) as [slot|] eqn:Hidx; [|done].
    simpl in Hstep. injection Hstep as <-. split_and!; [done|done|]. by exists slot.
Qed.

Lemma hit_changes_only_bookkeeping_witness :
  let self := LRU.mk (PRA.mk 3 [1; 2; 5] 7 0 4) [(1, 4); (2, 5); (5, 6)] in
  ∃ self',
    after_steps (policy_of cLRU) 8 3 example_trace = Ok self' ∧
    PRA.memory (LRU.super self') = [1; 2; 5] ∧
    PRA.page_faults (LRU.super self') = 7 ∧
    PRA.replacements (LRU.super self') = 4 ∧
    PRA.page_hits (LRU.super self') = 0 + 1 ∧
    PRA.frames (LRU.super self') = 3 ∧
    LRU.page_time self' = Py.set [(1, 4); (2, 5); (5, 6)] 1 7.
Proof.
  apply (hit_changes_only_bookkeeping cLRU 3 example_trace 7 1
           (LRU.mk (PRA.mk 3 [1; 2; 5] 7 0 4) [(1, 4); (2, 5); (5, 6)])).
  - lia.
  - reflexivity.
  - reflexivity.
  - apply (bool_decide_unpack _). reflexivity.
Defined.

(** ** Division of integers into a float *)

(** The number of binary digits, [Zdigits2], through [Z.log2]. *)
Lemma digits2_size p : digits2_pos p = Pos.size p.
Proof. induction p; simpl; congruence. Qed.

Lemma Zdigits2_log2 m : 0 < m → Zdigits2 m = Z.log2 m + 1.
Proof.
  destruct m as [|p|p]; try lia. intros _. simpl. rewrite digits2_size.
  destruct p; simpl; lia.
Qed.

Lemma Zdigits2_spec m : 0 < m → 2 ^ (Zdigits2 m - 1) ≤ m < 2 ^ Zdigits2 m.
Proof.
  intros Hm. rewrite Zdigits2_log2 by done. pose proof (Z.log2_spec m Hm).
  replace (Z.log2 m + 1 - 1) with (Z.log2 m) by lia. unfold Z.succ in *. lia.
Qed.

Lemma Zdigits2_unique m d : 0 < d → 2 ^ (d - 1) ≤ m < 2 ^ d → Zdigits2 m = d.
Proof.
  intros Hd Hm. assert (0 < m) by (pose proof (Z.pow_pos_nonneg 2 (d - 1)); lia).
  rewrite Zdigits2_log2 by done.
  rewrite (Z.log2_unique m (d - 1)); [lia|lia|].
  unfold Z.succ. by replace (d - 1 + 1) with d by lia.
Qed.

Lemma Zdigits2_nonneg m : 0 ≤ Zdigits2 m.
Proof. by destruct m. Qed.

Lemma Zdigits2_pos m : 0 < m → 0 < Zdigits2 m.
Proof. destruct m; simpl; lia. Qed.

Lemma Zdigits2_mono m m' : 0 ≤ m ≤ m' → Zdigits2 m ≤ Zdigits2 m'.
Proof.
  intros H. destruct (decide (m = 0)) as [->|]; [apply Zdigits2_nonneg|].
  rewrite !Zdigits2_log2 by lia. pose proof (Z.log2_le_mono m m'). lia.
Qed.

Lemma Zdigits2_lt_pow m d : 0 ≤ m → 0 ≤ d → m < 2 ^ d → Zdigits2 m ≤ d.
Proof.
  intros Hm Hd Hlt. destruct (decide (m = 0)) as [->|]; [simpl; lia|].
  destruct (Z.le_gt_cases (Zdigits2 m) d) as [|Hgt]; [done|].
  pose proof (Zdigits2_spec m ltac:(lia)) as [Hlo _].
  pose proof (Z.pow_le_mono_r 2 d (Zdigits2 m - 1)). lia.
Qed.

Lemma Zdigits2_ge_pow m d : 0 ≤ d → 2 ^ d ≤ m → d + 1 ≤ Zdigits2 m.
Proof.
  intros Hd Hle. pose proof (Z.pow_pos_nonneg 2 d).
  pose proof (Zdigits2_spec m ltac:(lia)) as [_ Hhi].
  destruct (Z.le_gt_cases (d + 1) (Zdigits2 m)) as [|Hgt]; [done|].
  pose proof (Z.pow_le_mono_r 2 (Zdigits2 m) d). pose proof (Zdigits2_nonneg m). lia.
Qed.

(** Shifting a mantissa to the right keeps track of where the exact value
    lies. *)
Lemma loc_of_record_of_loc m l : loc_of_shr_record (shr_record_of_loc m l) = l.
Proof. by destruct l as [|[| |]]. Qed.

Lemma shr_m_record_of_loc m l : shr_m (shr_record_of_loc m l) = m.
Proof. by destruct l as [|[| |]]. Qed.

Lemma shr_1_inbetween N D mrs :
  0 < D → 0 ≤ shr_m mrs →
  inbetween N D (shr_m mrs) (loc_of_shr_record mrs) →
  shr_m (shr_1 mrs) = shr_m mrs / 2 ∧
  inbetween N (D * 2) (shr_m (shr_1 mrs)) (loc_of_shr_record (shr_1 mrs)).
Proof.
  intros HD Hm. destruct mrs as [m r s]. simpl in Hm.
  destruct m as [|[p|p|]|]; [| | | |lia].
  - destruct r, s; simpl; intros H; (split; [done|lia]).
  - assert (Z.pos p~1 / 2 = Z.pos p) as Hdiv by (symmetry; apply Z.div_unique with 1; lia).
    destruct r, s; simpl; rewrite Hdiv; intros H; (split; [done|lia]).
  - assert (Z.pos p~0 / 2 = Z.pos p) as Hdiv by (symmetry; apply Z.div_unique with 0; lia).
    destruct r, s; simpl; rewrite Hdiv; intros H; (split; [done|lia]).
  - destruct r, s; simpl; intros H; (split; [done|lia]).
Qed.

Lemma iter_pos_nat {A} (f : A → A) p x :
  SpecFloat.iter_pos f p x = Nat.iter (Pos.to_nat p) f x.
Proof.
  revert x. induction p as [p IH|p IH|]; intros x; cbn [SpecFloat.iter_pos].
  - rewrite !IH, Pos2Nat.inj_xI.
    replace (S (2 * Pos.to_nat p)) with (Pos.to_nat p + S (Pos.to_nat p))%nat by lia.
    rewrite Nat.iter_add. f_equal. by rewrite Nat.iter_succ_r.
  - rewrite !IH, Pos2Nat.inj_xO.
    replace (2 * Pos.to_nat p)%nat with (Pos.to_nat p + Pos.to_nat p)%nat by lia.
    by rewrite Nat.iter_add.
  - done.
Qed.

Lemma iter_shr_1 N D (n : nat) mrs :
  0 < D → 0 ≤ shr_m mrs →
  inbetween N D (shr_m mrs) (loc_of_shr_record mrs) →
  let mrs' := Nat.iter n shr_1 mrs in
  shr_m mrs' = shr_m mrs / 2 ^ Z.of_nat n ∧
  inbetween N (D * 2 ^ Z.of_nat n) (shr_m mrs') (loc_of_shr_record mrs').
Proof.
  intros HD Hm H. induction n as [|n [IHm IHb]].
  - simpl. rewrite Z.div_1_r, Z.mul_1_r. done.
  - simpl in *.
    assert (0 < 2 ^ Z.of_nat n) as Hpow by (apply Z.pow_pos_nonneg; lia).
    destruct (shr_1_inbetween N (D * 2 ^ Z.of_nat n) (Nat.iter n shr_1 mrs))
      as [Hm' Hb']; [lia| |done|].
    { rewrite IHm. apply Z.div_pos; lia. }
    replace (Z.of_nat (S n)) with (Z.of_nat n + 1) by lia.
    rewrite Z.pow_add_r, Z.pow_1_r by lia. split.
    + rewrite Hm', IHm. rewrite Z.div_div by lia. done.
    + by rewrite Z.mul_assoc.
Qed.

Lemma shr_spec N D m l e n :
  0 < D → 0 ≤ m → 0 ≤ n → inbetween N D m l →
  ∃ mrs', shr (shr_record_of_loc m l) e n = (mrs', e + n) ∧
          shr_m mrs' = m / 2 ^ n ∧
          inbetween N (D * 2 ^ n) (shr_m mrs') (loc_of_shr_record mrs').
Proof.
  intros HD Hm Hn H. destruct n as [|p|p]; [| |lia].
  - exists (shr_record_of_loc m l). simpl.
    rewrite Z.add_0_r, shr_m_record_of_loc, loc_of_record_of_loc, Z.div_1_r, Z.mul_1_r. done.
  - eexists. split; [done|]. rewrite iter_pos_nat.
    pose proof (iter_shr_1 N D (Pos.to_nat p) (shr_record_of_loc m l) HD) as Hit.
    rewrite shr_m_record_of_loc, loc_of_record_of_loc in Hit.
    rewrite positive_nat_Z in Hit. by apply Hit.
Qed.

Lemma fexp64 e : fexp 53 1024 e = Z.max (e - 53) (-1074).
Proof. reflexivity. Qed.

Lemma Zdigits2_div_pow2 m n :
  0 ≤ n → 0 < m / 2 ^ n → Zdigits2 (m / 2 ^ n) = Zdigits2 m - n.
Proof.
  intros Hn Hpos. assert (0 < 2 ^ n) as Hpow by (apply Z.pow_pos_nonneg; lia).
  assert (2 ^ n ≤ m) as Hge.
  { destruct (Z.le_gt_cases (2 ^ n) m) as [|Hlt]; [done|].
    destruct (Z.le_gt_cases 0 m) as [H0|H0].
    - rewrite Z.div_small in Hpos by lia. lia.
    - pose proof (Z.div_lt_upper_bound m (2 ^ n) 0 Hpow). lia. }
  pose proof (Zdigits2_ge_pow m n Hn Hge) as Hd.
  pose proof (Zdigits2_spec m ltac:(lia)) as [Hlo Hhi].
  apply Zdigits2_unique; [lia|]. split.
  - apply Z.div_le_lower_bound; [done|].
    rewrite <- Z.pow_add_r by lia. by replace (n + (Zdigits2 m - n - 1)) with (Zdigits2 m - 1) by lia.
  - apply Z.div_lt_upper_bound; [done|].
    rewrite <- Z.pow_add_r by lia. by replace (n + (Zdigits2 m - n)) with (Zdigits2 m) by lia.
Qed.

Lemma round_nearest_even_spec N D m l :
  0 < D → inbetween N D m l →
  m * D ≤ N ≤ (m + 1) * D ∧
  ((round_nearest_even m l = m ∧ 2 * N ≤ (2 * m + 1) * D) ∨
   (round_nearest_even m l = m + 1 ∧ (2 * m + 1) * D ≤ 2 * N)).
Proof.
  intros HD. destruct l as [|[| |]]; simpl; intros H; [lia| |lia|lia].
  destruct (Z.even m); lia.
Qed.

Lemma binary_round_aux_spec N D m e l :
  0 < D → 0 ≤ m → inbetween N D m l →
  e ≤ fexp 53 1024 (Zdigits2 m + e) → Zdigits2 m + e ≤ 1023 →
  ∃ m1 e1 mr,
    e ≤ e1 ∧ 0 ≤ m1 ∧
    e1 = fexp 53 1024 (Zdigits2 m1 + e1) ∧
    m1 * (D * 2 ^ (e1 - e)) ≤ N ≤ (m1 + 1) * (D * 2 ^ (e1 - e)) ∧
    ((mr = m1 ∧ 2 * N ≤ (2 * m1 + 1) * (D * 2 ^ (e1 - e))) ∨
     (mr = m1 + 1 ∧ (2 * m1 + 1) * (D * 2 ^ (e1 - e)) ≤ 2 * N)) ∧
    match binary_round_aux 53 1024 false m e l with
    | S754_zero false => mr = 0
    | S754_finite false m2 e2 =>
        bounded 53 1024 m2 e2 = true ∧ e1 ≤ e2 ∧ mr = Z.pos m2 * 2 ^ (e2 - e1)
    | _ => False
    end.
Proof.
  intros HD Hm Hb Hprec Hmax.
  unfold binary_round_aux, shr_fexp.
  set (n1 := fexp 53 1024 (Zdigits2 m + e) - e).
  destruct (shr_spec N D m l e n1 HD Hm ltac:(lia) Hb) as (mrs1 & -> & Hm1 & Hb1).
  set (m1 := shr_m mrs1) in *. set (e1 := e + n1) in *.
  assert (0 < 2 ^ n1) as Hpow1 by (apply Z.pow_pos_nonneg; lia).
  assert (0 ≤ m1) as Hm1pos by (rewrite Hm1; apply Z.div_pos; lia).
  assert (e1 = fexp 53 1024 (Zdigits2 m1 + e1)) as Hcan.
  { destruct (decide (m1 = 0)) as [E0|E0].
    - rewrite E0. simpl Zdigits2.
      assert (m < 2 ^ n1) as Hlt.
      { destruct (Z.le_gt_cases (2 ^ n1) m) as [Hge|]; [|done].
        pose proof (Z.div_le_lower_bound m (2 ^ n1) 1 Hpow1). lia. }
      pose proof (Zdigits2_lt_pow m n1 Hm ltac:(lia) Hlt).
      subst e1 n1. rewrite !fexp64 in *. lia.
    - unfold m1 in *. rewrite Hm1, Zdigits2_div_pow2 by lia.
      subst e1 n1. rewrite !fexp64 in *. lia. }
  destruct (round_nearest_even_spec N (D * 2 ^ n1) m1 (loc_of_shr_record mrs1))
    as [Hin Hround]; [lia|done|].
  set (mr := round_nearest_even m1 (loc_of_shr_record mrs1)) in *.
  assert (m1 ≤ mr ≤ m1 + 1) as Hmr by lia.
  assert (Zdigits2 m1 ≤ Zdigits2 mr ≤ Zdigits2 m1 + 1) as Hdr.
  { split; [apply Zdigits2_mono; lia|].
    apply Zdigits2_lt_pow; [lia|pose proof (Zdigits2_nonneg m1); lia|].
    destruct (decide (m1 = 0)) as [E0|E0]; [rewrite E0 in *; simpl; lia|].
    pose proof (Zdigits2_spec m1 ltac:(lia)) as [_ Hhi].
    rewrite Z.pow_add_r, Z.pow_1_r by (pose proof (Zdigits2_nonneg m1); lia). lia. }
  set (n2 := fexp 53 1024 (Zdigits2 mr + e1) - e1).
  assert (n2 = 0 ∨ n2 = 1 ∧ mr = 2 ^ 53) as Hn2.
  { unfold n2. rewrite fexp64 in Hcan |- *.
    destruct (decide (Z.max (Zdigits2 mr + e1 - 53) (-1074) - e1 = 0)) as [|Hne]; [by left|].
    right. assert (Zdigits2 mr = 54 ∧ Zdigits2 m1 = 53) as [Hd54 Hd53] by lia.
    split; [lia|].
    assert (0 < m1) as Hpos by (destruct m1; simpl in *; lia).
    pose proof (Zdigits2_spec m1 Hpos) as [_ Hhi1]. rewrite Hd53 in Hhi1.
    assert (0 < mr) as Hposr by lia.
    pose proof (Zdigits2_spec mr Hposr) as [Hlo _]. rewrite Hd54 in Hlo.
    simpl in Hlo. lia. }
  destruct (shr_spec mr 1 mr loc_Exact e1 n2) as (mrs2 & -> & Hm2 & _);
    [lia|lia|lia|simpl; lia|].
  assert (e1 ≤ 970) as He1 by (subst e1 n1; rewrite fexp64 in *; lia).
  exists m1, e1, mr.
  replace (e1 - e) with n1 by (unfold e1; lia).
  split; [unfold e1; lia|]. do 4 (split; [done|]).
  rewrite Hm2. destruct Hn2 as [E2|[E2 Emr]]; rewrite E2.
  - rewrite Z.pow_0_r, Z.div_1_r, Z.add_0_r.
    destruct mr as [|p|p] eqn:Emr; [done| |lia].
    assert ((e1 <=? 1024 - 53) = true) as -> by (apply Z.leb_le; lia).
    split_and!; [|lia|rewrite Z.sub_diag; lia].
    unfold bounded, canonical_mantissa.
    apply andb_true_intro. split; [|apply Z.leb_le; lia].
    apply Z.eqb_eq. change (Z.pos (digits2_pos p)) with (Zdigits2 (Z.pos p)).
    fold n2 in E2. unfold n2 in E2. lia.
  - rewrite Emr. change (2 ^ 53 / 2 ^ 1) with (Z.pos (2 ^ 52)).
    assert ((e1 + 1 <=? 1024 - 53) = true) as -> by (apply Z.leb_le; lia).
    split_and!; [|lia|].
    + unfold bounded, canonical_mantissa.
      apply andb_true_intro. split; [|apply Z.leb_le; lia].
      apply Z.eqb_eq. change (Z.pos (digits2_pos (2 ^ 52))) with 53.
      rewrite fexp64. rewrite fexp64 in Hcan. lia.
    + replace (e1 + 1 - e1) with 1 by lia. reflexivity.
Qed.

Lemma new_location_spec b q r :
  0 < b → 0 ≤ r < b → inbetween (q * b + r) b q (new_location b r).
Proof.
  intros Hb Hr. unfold new_location, new_location_even, new_location_odd.
  destruct (Z.even b) eqn:Heven.
  - destruct (Z.eqb_spec r 0) as [->|Hne]; simpl; [lia|].
    destruct (Z.compare_spec (2 * r) b); simpl; lia.
  - destruct (Z.eqb_spec r 0) as [->|Hne]; simpl; [lia|].
    assert (Z.odd b = true) as (k & Hk)%Z.odd_spec by (rewrite <- Z.negb_even, Heven; done).
    destruct (Z.compare_spec (2 * r + 1) b); simpl; lia.
Qed.

Lemma SFdiv_core_spec (a b : positive) :
  Z.pos a ≤ Z.pos b →
  ∃ q e l,
    SFdiv_core_binary 53 1024 (Z.pos a) 0 (Z.pos b) 0 = (q, e, l) ∧
    0 ≤ q ∧ e ≤ 0 ∧
    inbetween (Z.pos a * 2 ^ (- e)) (Z.pos b) q l ∧
    e ≤ fexp 53 1024 (Zdigits2 q + e) ∧ Zdigits2 q + e ≤ 1.
Proof.
  intros Hab. unfold SFdiv_core_binary.
  rewrite !Z.add_0_r, Z.sub_diag.
  pose proof (Zdigits2_mono (Z.pos a) (Z.pos b) ltac:(lia)) as Hd.
  pose proof (Zdigits2_spec (Z.pos a) ltac:(lia)) as [Halo Hahi].
  pose proof (Zdigits2_spec (Z.pos b) ltac:(lia)) as [Hblo Hbhi].
  pose proof (Zdigits2_pos (Z.pos a) ltac:(lia)) as Hda.
  set (da := Zdigits2 (Z.pos a)) in *. set (db := Zdigits2 (Z.pos b)) in *.
  rewrite fexp64.
  set (e := Z.min (Z.max (da - db - 53) (-1074)) 0).
  set (s := 0 - e).
  assert (0 < s) as Hs by (unfold s, e; lia).
  assert (0 < 2 ^ s) as Hpow by (apply Z.pow_pos_nonneg; lia).
  destruct s as [|ps|ps] eqn:Es; [lia| |lia]. rewrite <- Es in *.
  rewrite Z.shiftl_mul_pow2 by lia.
  pose proof (Z_div_mod (Z.pos a * 2 ^ s) (Z.pos b) ltac:(lia)) as Hdm.
  destruct (Z.div_eucl (Z.pos a * 2 ^ s) (Z.pos b)) as [q r].
  destruct Hdm as [Hdm Hr].
  assert (0 ≤ q) as Hq by nia.
  assert (q ≤ 2 ^ s) as Hqle by nia.
  exists q, e, (new_location (Z.pos b) r).
  split; [done|]. split; [done|]. split; [unfold e; lia|]. split.
  - replace (- e) with s by (unfold s; lia). rewrite Hdm.
    replace (Z.pos b * q + r) with (q * Z.pos b + r) by lia.
    by apply new_location_spec.
  - split.
    + rewrite fexp64. destruct (decide (e = -1074)) as [->|Hne]; [lia|].
      assert (s = db - da + 53) as Hsv by (unfold s, e in *; lia).
      assert (2 ^ 52 ≤ q) as Hq52.
      { destruct (Z.le_gt_cases (2 ^ 52) q) as [|Hlt]; [done|].
        assert (2 ^ (da - 1) * 2 ^ s = 2 ^ 52 * 2 ^ db) as Hpw.
        { rewrite <- !Z.pow_add_r by lia. f_equal. lia. }
        assert (0 < 2 ^ db) by (apply Z.pow_pos_nonneg; lia).
        nia. }
      pose proof (Zdigits2_ge_pow q 52 ltac:(lia) Hq52). lia.
    + assert (Zdigits2 q ≤ s + 1); [|unfold s in *; lia].
      apply Zdigits2_lt_pow; [done|lia|].
      rewrite Z.pow_add_r, Z.pow_1_r by lia. lia.
Qed.

(** Powers of two as rationals. *)
Lemma Qpow2_pos e : (0 < 2 ^ e)%Q.
Proof. by apply Qpower_0_lt. Qed.

Lemma Qpow2_add e1 e2 : (2 ^ (e1 + e2) == 2 ^ e1 * 2 ^ e2)%Q.
Proof. by apply Qpower_plus. Qed.

Lemma Qpow2_inject n : 0 ≤ n → (inject_Z (2 ^ n) == 2 ^ n)%Q.
Proof. intros Hn. by rewrite Zpower_Qpower. Qed.

Lemma Qscale m e E :
  E ≤ e → (inject_Z m * 2 ^ e == inject_Z (m * 2 ^ (e - E)) * 2 ^ E)%Q.
Proof.
  intros He. rewrite inject_Z_mult, Qpow2_inject by lia.
  replace e with ((e - E) + E) at 1 by lia. rewrite Qpow2_add. ring.
Qed.

Lemma Qscale_le m m' e : m ≤ m' → (inject_Z m * 2 ^ e <= inject_Z m' * 2 ^ e)%Q.
Proof.
  intros H. apply Qmult_le_compat_r; [by rewrite <- Zle_Qle|].
  apply Qlt_le_weak, Qpow2_pos.
Qed.

Lemma bounded_canonical m e :
  bounded 53 1024 m e = true →
  e = fexp 53 1024 (Zdigits2 (Z.pos m) + e) ∧ e ≤ 971.
Proof.
  unfold bounded, canonical_mantissa. intros [H1 H2]%andb_prop.
  apply Z.eqb_eq in H1. apply Z.leb_le in H2. simpl Zdigits2. lia.
Qed.

(** No binary64 number lies strictly between two neighbours of the format. *)
Lemma no_binary64_between m1 e1 my ey :
  0 ≤ m1 → e1 = fexp 53 1024 (Zdigits2 m1 + e1) →
  bounded 53 1024 my ey = true →
  (inject_Z (Z.pos my) * 2 ^ ey <= inject_Z m1 * 2 ^ e1 ∨
   inject_Z (m1 + 1) * 2 ^ e1 <= inject_Z (Z.pos my) * 2 ^ ey)%Q.
Proof.
  intros Hm1 Hcan [Hcany _]%bounded_canonical. rewrite fexp64 in Hcan, Hcany.
  destruct (Z.le_gt_cases e1 ey) as [Hle|Hlt].
  - rewrite (Qscale (Z.pos my) ey e1 Hle).
    destruct (Z.le_gt_cases (Z.pos my * 2 ^ (ey - e1)) m1) as [HK|HK].
    + left. by apply Qscale_le.
    + right. apply Qscale_le. lia.
  - left. rewrite (Qscale m1 e1 ey) by lia. apply Qscale_le.
    assert (Zdigits2 m1 = 53) as Hd53 by lia.
    assert (0 < m1) as Hpos by (destruct m1; simpl in *; lia).
    pose proof (Zdigits2_spec m1 Hpos) as [Hlo _]. rewrite Hd53 in Hlo.
    pose proof (Zdigits2_spec (Z.pos my) ltac:(lia)) as [_ Hhi].
    assert (Zdigits2 (Z.pos my) ≤ 53) as Hdy by lia.
    pose proof (Z.pow_le_mono_r 2 (Zdigits2 (Z.pos my)) 53 ltac:(lia) Hdy).
    pose proof (Z.pow_le_mono_r 2 1 (e1 - ey) ltac:(lia) ltac:(lia)) as Hp.
    rewrite Z.pow_1_r in Hp. change (2 ^ (53 - 1)) with 4503599627370496 in Hlo.
    change (2 ^ 53) with 9007199254740992 in *. nia.
Qed.

(** Among the neighbours [L] and [U] of [v], the nearer one is nearer to [v]
    than anything outside of the open interval between them. *)
Lemma nearer_neighbour (L U v x y : Q) :
  (L <= v)%Q → (v <= U)%Q →
  (x == L ∧ 2 * v <= L + U ∨ x == U ∧ L + U <= 2 * v)%Q →
  (y <= L ∨ U <= y)%Q →
  (Qabs (x - v) <= Qabs (y - v))%Q.
Proof.
  intros HL HU Hx Hy.
  apply Qabs_case; intros H1; apply Qabs_case; intros H2;
    destruct Hx as [[Hx ?]|[Hx ?]]; rewrite Hx in *; destruct Hy; lra.
Qed.

Lemma SFdiv_nearest (a b : positive) :
  Z.pos a ≤ Z.pos b →
  ∃ x, SFdiv 53 1024 (S754_finite false a 0) (S754_finite false b 0) = x ∧
       nearest_binary64 (inject_Z (Z.pos a) / inject_Z (Z.pos b)) x.
Proof.
  intros Hab. eexists. split; [done|].
  destruct (SFdiv_core_spec a b Hab) as (q & e & l & Hcore & Hq & He & Hb & Hprec & Hmax).
  unfold SFdiv. rewrite Hcore. simpl xorb.
  destruct (binary_round_aux_spec (Z.pos a * 2 ^ (- e)) (Z.pos b) q e l
              ltac:(lia) Hq Hb Hprec ltac:(lia))
    as (m1 & e1 & mr & Hee1 & Hm1 & Hcan & Hin & Hround & Hres).
  set (D1 := Z.pos b * 2 ^ (e1 - e)) in *.
  set (N := Z.pos a * 2 ^ (- e)) in *.
  assert (0 < 2 ^ (e1 - e)) as Hpow by (apply Z.pow_pos_nonneg; lia).
  assert (0 < D1) as HD1 by (unfold D1; lia).
  set (v := (inject_Z (Z.pos a) / inject_Z (Z.pos b))%Q).
  set (u := (2 ^ e1)%Q).
  assert (0 < u)%Q as Hu by apply Qpow2_pos.
  assert (v * inject_Z D1 == inject_Z N * u)%Q as Hv.
  { unfold v, D1, N, u. rewrite !inject_Z_mult, !Qpow2_inject by lia.
    replace e1 with ((e1 - e) + e) at 2 by lia. rewrite Qpow2_add.
    assert (2 ^ (- e) * 2 ^ e == 1)%Q as H1.
    { rewrite <- Qpow2_add. by replace (- e + e) with 0 by lia. }
    assert (~ inject_Z (Z.pos b) == 0)%Q as Hb0 by (unfold Qeq; simpl; lia).
    field_simplify; [|done].
    rewrite <- (Qmult_assoc _ (2 ^ (- e)) (2 ^ e)), H1. ring. }
  assert (0 < inject_Z D1)%Q as HD1q by (unfold Qlt; simpl; lia).
  assert (∀ k : Z, k * D1 ≤ N → inject_Z k * u <= v)%Q as Hlow.
  { intros k Hk. apply Qmult_le_r with (z := inject_Z D1); [done|].
    rewrite Hv. rewrite <- Qmult_assoc, (Qmult_comm u), Qmult_assoc.
    apply Qmult_le_compat_r; [|lra]. rewrite <- inject_Z_mult, <- Zle_Qle. done. }
  assert (∀ k : Z, N ≤ k * D1 → v <= inject_Z k * u)%Q as Hhigh.
  { intros k Hk. apply Qmult_le_r with (z := inject_Z D1); [done|].
    rewrite Hv. rewrite <- (Qmult_assoc (inject_Z k)), (Qmult_comm u), Qmult_assoc.
    apply Qmult_le_compat_r; [|lra]. rewrite <- inject_Z_mult, <- Zle_Qle. done. }
  set (x := binary_round_aux 53 1024 false q e l) in *.
  assert (is_binary64 x ∧ float_value x == inject_Z mr * u)%Q as [Hx Hxv].
  { destruct x as [[|]|[|]| |[|] m2 e2]; try done.
    - split; [done|]. rewrite Hres. simpl. ring.
    - destruct Hres as (Hbd & He2 & ->). split; [done|].
      simpl. unfold u. by apply Qscale. }
  split; [done|]. intros y Hy.
  apply (nearer_neighbour (inject_Z m1 * u) (inject_Z (m1 + 1) * u)).
  - apply Hlow. lia.
  - apply Hhigh. lia.
  - assert (inject_Z (2 * m1 + 1) * u == 2 * (inject_Z m1 * u) + u)%Q as Hmid.
    { rewrite inject_Z_plus, inject_Z_mult.
      change (inject_Z 2) with 2%Q. change (inject_Z 1) with 1%Q. ring. }
    assert (inject_Z (m1 + 1) * u == inject_Z m1 * u + u)%Q as Hup.
    { rewrite inject_Z_plus. change (inject_Z 1) with 1%Q. ring. }
    assert (∀ k k' : Z, k * D1 ≤ 2 * N → 2 * N ≤ k' * D1 →
              inject_Z k * u <= 2 * v ∧ 2 * v <= inject_Z k' * u)%Q as Htwice.
    { intros k k' Hk Hk'. split.
      - apply Qmult_le_r with (z := inject_Z D1); [done|].
        rewrite <- (Qmult_assoc 2), Hv.
        rewrite <- (Qmult_assoc (inject_Z k)), (Qmult_comm u), !Qmult_assoc.
        apply Qmult_le_compat_r; [|lra].
        change 2%Q with (inject_Z 2). rewrite <- !inject_Z_mult, <- Zle_Qle. lia.
      - apply Qmult_le_r with (z := inject_Z D1); [done|].
        rewrite <- (Qmult_assoc 2), Hv.
        rewrite <- (Qmult_assoc (inject_Z k')), (Qmult_comm u), !Qmult_assoc.
        apply Qmult_le_compat_r; [|lra].
        change 2%Q with (inject_Z 2). rewrite <- !inject_Z_mult, <- Zle_Qle. lia. }
    rewrite Hxv, Hup. destruct Hround as [[-> Hr]|[-> Hr]]; [left|right].
    + split; [reflexivity|].
      destruct (Htwice (2 * m1) (2 * m1 + 1)) as [_ H2]; [lia|lia|].
      rewrite Hmid in H2. lra.
    + split; [by rewrite Hup|].
      destruct (Htwice (2 * m1 + 1) (2 * m1 + 2)) as [H2 _]; [lia|lia|].
      rewrite Hmid in H2. lra.
  - assert (0 <= inject_Z m1 * u)%Q as HL0.
    { apply Qmult_le_0_compat; [|lra]. change 0%Q with (inject_Z 0). by rewrite <- Zle_Qle. }
    destruct y as [s|s| |[|] my ey]; try done.
    + left. done.
    + left. simpl. apply Qle_trans with (inject_Z 0 * 2 ^ ey)%Q; [apply Qscale_le; lia|].
      change (inject_Z 0) with 0%Q. by rewrite Qmult_0_l.
    + simpl. by apply no_binary64_between.
Qed.

(** With a count of at most the length over a positive length, [/] raises
    nothing and returns a binary64 number as near to the exact quotient as
    any. *)
Lemma truediv_nearest (a b : Z) :
  0 ≤ a ≤ b → 0 < b →
  ∃ x, Py.truediv a b = Ok x ∧ nearest_binary64 (inject_Z a / inject_Z b) x.
Proof.
  intros Ha Hb. unfold Py.truediv. rewrite bool_decide_eq_false_2 by lia.
  destruct b as [|pb|pb]; [lia| |lia]. destruct a as [|pa|pa]; [| |lia].
  - exists (S754_zero false). split; [done|]. split; [done|].
    intros y _. simpl float_value. change (inject_Z 0) with 0%Q.
    unfold Qdiv. rewrite Qmult_0_l.
    apply Qle_trans with 0%Q; [by vm_compute|apply Qabs_nonneg].
  - destruct (SFdiv_nearest pa pb ltac:(lia)) as (x & Hx & Hnear).
    exists x. cbn [Py.int_operand]. rewrite Hx. split; [|done].
    destruct Hnear as [Hfin _]. by destruct x.
Qed.

(** ** The sweeps *)

Lemma fresh_results_first (v : pyvalue) (c : alg_class) (rest : list alg_class) :
  Sweep.fresh_results v (c :: rest) !! class_name (policy_of c) = Some v.
Proof. unfold Sweep.fresh_results. rewrite fmap_cons. simpl. apply lookup_insert_eq. Qed.

(** Appending under a name that holds a list raises [TypeError], whatever
    the rate. *)
Lemma append_rate_on_list (results : gmap string pyvalue) name key items rate :
  results !! name = Some (VList items) →
  Sweep.append_rate results name key rate = Raise TypeError.
Proof. intros H. unfold Sweep.append_rate. by rewrite H. Qed.

(** C1: [test_page_replacement_algorithms] never returns its table.  With
    at least one policy and one frame count it raises: [results] maps every
    name to a list, and the first [results[name]['page_fault_rates']] is a
    [TypeError] as soon as the first run has come back, which it does when
    the first frame count is at least 1. *)
Theorem test_page_replacement_algorithms_raises (algorithms : list alg_class)
    (page_sequence frame_counts : list Z) (file : list step_record) :
  algorithms ≠ [] → frame_counts ≠ [] →
  is_ok (test_page_replacement_algorithms algorithms page_sequence frame_counts file) = false ∧
  (1 ≤ default 0 (head frame_counts) →
   test_page_replacement_algorithms algorithms page_sequence frame_counts file =
   Raise TypeError).
Proof.
  destruct algorithms as [|c cs]; [done|]. destruct frame_counts as [|frames fs]; [done|].
  intros _ _. unfold test_page_replacement_algorithms.
  cbn [Sweep.for_frame_counts Sweep.for_algorithms head default].
  pose proof (fresh_results_first (VList []) c cs) as Hfresh.
  split.
  - destruct (simulate (policy_of c) (new (policy_of c) frames) page_sequence file)
      as [[alg file']|e]; [|done].
    cbn [mbind result_bind]. by rewrite (append_rate_on_list _ _ _ [] _ Hfresh).
  - intros Hf.
    destruct (loop_total _ _ (lawful_policy c) (new (policy_of c) frames) 0 page_sequence file)
      as (alg & file' & Hloop).
    { by apply (inv_new _ _ (lawful_policy c)). }
    unfold simulate. rewrite Hloop.
    cbn [mbind result_bind]. by rewrite (append_rate_on_list _ _ _ [] _ Hfresh).
Qed.

Lemma test_page_replacement_algorithms_raises_witness :
  [cFIFO] ≠ [] ∧ [1] ≠ [] ∧ 1 ≤ 1 ∧
  test_page_replacement_algorithms [cFIFO] [1] [1] [] = Raise TypeError.
Proof.
  split; [discriminate|]. split; [discriminate|]. split; [lia|].
  apply (test_page_replacement_algorithms_raises [cFIFO] [1] [1] []);
    [discriminate|discriminate|simpl; lia].
Defined.

Lemma append_fault_rate (results : gmap string pyvalue) name pf rr x :
  results !! name = Some (VRates pf rr) →
  Sweep.append_rate results name "page_fault_rates" (Ok x) =
  Ok (<[name := VRates (pf ++ [x]) rr]> results).
Proof. intros H. unfold Sweep.append_rate. by rewrite H. Qed.

Lemma append_replacement_rate (results : gmap string pyvalue) name pf rr x :
  results !! name = Some (VRates pf rr) →
  Sweep.append_rate results name "replacement_rates" (Ok x) =
  Ok (<[name := VRates pf (rr ++ [x])]> results).
Proof. intros H. unfold Sweep.append_rate. by rewrite H. Qed.

(** * Further properties *)

(** ** The shape of a memory update *)

Lemma remove_split (x : Z) (l l' : list Z) :
  Py.remove x l = Ok l' →
  ∃ before after, l = before ++ x :: after ∧ l' = before ++ after ∧ x ∉ before.
Proof.
  revert l'. induction l as [|y l IH]; intros l' H; [done|].
  simpl in H. case_bool_decide as Hy.
  - injection H as <-. subst y. exists [], l. split_and!; [done..|apply not_elem_of_nil].
  - apply bind_ok in H as (l'' & Hrem & [= <-]).
    destruct (IH _ Hrem) as (before & after & -> & -> & Hx).
    exists (y :: before), after. split_and!; [done..|].
    apply not_elem_of_cons. split; [congruence|done].
Qed.

Lemma setitem_split (l l' : list Z) (i x : Z) :
  Py.setitem l i x = Ok l' →
  ∃ before victim after, l = before ++ victim :: after ∧ l' = before ++ x :: after ∧
                         (0 ≤ i → length before = Z.to_nat i).
Proof.
  unfold Py.setitem, Py.len. intros H.
  assert (∀ n : nat, (n < length l)%nat → l' = <[n := x]> l →
            ∃ before victim after, l = before ++ victim :: after ∧
              l' = before ++ x :: after ∧ length before = n) as Hsplit.
  { intros n Hn ->. destruct (lookup_lt_is_Some_2 l n Hn) as (v & Hv).
    exists (take n l), v, (drop (S n) l).
    split_and!; [by rewrite take_drop_middle|by apply insert_take_drop|].
    rewrite length_take. lia. }
  case_bool_decide as H1.
  - injection H as <-.
    destruct (Hsplit (Z.to_nat i)) as (b & v & a & ? & ? & ?); [lia|done|].
    exists b, v, a. by split_and!.
  - case_bool_decide as H2; [|done]. injection H as <-.
    destruct (Hsplit (Z.to_nat (Z.of_nat (length l) + i))) as (b & v & a & ? & ? & ?); [lia|done|].
    exists b, v, a. split_and!; [done..|lia].
Qed.

Lemma memory_step_hit (page : Z) (mem : list Z) :
  page ∈ mem → memory_step page mem mem.
Proof. intros H. unfold memory_step. by rewrite (proj2 (contains_true _ _) H). Qed.

Lemma memory_step_append (page : Z) (mem : list Z) :
  page ∉ mem → memory_step page mem (mem ++ [page]).
Proof.
  intros H. unfold memory_step. rewrite (proj2 (contains_false _ _) H). by left.
Qed.

Lemma memory_step_remove (page victim : Z) (mem rest : list Z) :
  page ∉ mem → Py.remove victim mem = Ok rest → memory_step page mem (rest ++ [page]).
Proof.
  intros H (before & after & -> & -> & _)%remove_split. unfold memory_step.
  rewrite (proj2 (contains_false _ _) H). right.
  exists before, victim, after. split; [done|]. left. by rewrite <- app_assoc.
Qed.

Lemma append_step_hit (page : Z) (mem : list Z) :
  page ∈ mem → memory_append_step page mem mem.
Proof. intros H. unfold memory_append_step. by rewrite (proj2 (contains_true _ _) H). Qed.

Lemma append_step_append (page : Z) (mem : list Z) :
  page ∉ mem → memory_append_step page mem (mem ++ [page]).
Proof.
  intros H. unfold memory_append_step. rewrite (proj2 (contains_false _ _) H). by left.
Qed.

Lemma append_step_remove (page victim : Z) (mem rest : list Z) :
  page ∉ mem → Py.remove victim mem = Ok rest →
  memory_append_step page mem (rest ++ [page]).
Proof.
  intros H (before & after & -> & -> & _)%remove_split. unfold memory_append_step.
  rewrite (proj2 (contains_false _ _) H). right.
  exists before, victim, after. split; [done|]. by rewrite <- app_assoc.
Qed.

Lemma append_step_memory_step (page : Z) (mem mem' : list Z) :
  memory_append_step page mem mem' → memory_step page mem mem'.
Proof.
  unfold memory_append_step, memory_step. destruct (Py.contains page mem); [done|].
  intros [->|(before & victim & after & -> & ->)]; [by left|].
  right. exists before, victim, after. split; [done|by left].
Qed.

Lemma memory_step_setitem (page slot : Z) (mem mem' : list Z) :
  page ∉ mem → Py.setitem mem slot page = Ok mem' → memory_step page mem mem'.
Proof.
  intros H (before & victim & after & -> & -> & _)%setitem_split. unfold memory_step.
  rewrite (proj2 (contains_false _ _) H). right.
  exists before, victim, after. split; [done|]. by right.
Qed.

Lemma FIFO_append_step (self self' : FIFO.t) (page : Z) :
  FIFO.body self page = Ok self' →
  memory_append_step page (PRA.memory (FIFO.super self)) (PRA.memory (FIFO.super self')).
Proof.
  unfold FIFO.body, PRA.is_page_in_memory.
  destruct (Py.contains page (PRA.memory (FIFO.super self))) eqn:Hin; simpl.
  - intros [= <-]. simpl. by apply append_step_hit, contains_true.
  - apply contains_false in Hin. destruct (PRA.full _); simpl.
    + intros (self1 & H & [= <-])%bind_ok.
      apply bind_ok in H as ([oldest q] & Hpop & H). simpl in H.
      apply bind_ok in H as (m & Hrem & [= <-]). simpl.
      by eapply append_step_remove.
    + intros [= <-]. simpl. by apply append_step_append.
Qed.

Lemma LRU_append_step (self self' : LRU.t) (time page : Z) :
  LRU.body self time page = Ok self' →
  memory_append_step page (PRA.memory (LRU.super self)) (PRA.memory (LRU.super self')).
Proof.
  unfold LRU.body, PRA.is_page_in_memory.
  destruct (Py.contains page (PRA.memory (LRU.super self))) eqn:Hin; simpl.
  - intros [= <-]. simpl. by apply append_step_hit, contains_true.
  - apply contains_false in Hin. destruct (PRA.full _); simpl.
    + intros (self1 & (oldest & _ & (m & Hrem & (pt & _ & [= <-])%bind_ok)%bind_ok)%bind_ok
                & [= <-])%bind_ok. simpl.
      by eapply append_step_remove.
    + intros [= <-]. simpl. by apply append_step_append.
Qed.

Lemma OPT_append_step (self self' : OPT.t) (page : Z) (future : list Z) :
  OPT.body self page future = Ok self' →
  memory_append_step page (PRA.memory (OPT.super self)) (PRA.memory (OPT.super self')).
Proof.
  unfold OPT.body, PRA.is_page_in_memory.
  destruct (Py.contains page (PRA.memory (OPT.super self))) eqn:Hin; simpl.
  - intros [= <-]. simpl. by apply append_step_hit, contains_true.
  - apply contains_false in Hin. destruct (PRA.full _); simpl.
    + intros (self1 & (v & _ & (m & Hrem & [= <-])%bind_ok)%bind_ok & [= <-])%bind_ok.
      simpl. destruct v as [v|]; [|done]. by eapply append_step_remove.
    + intros [= <-]. simpl. by apply append_step_append.
Qed.

Lemma LFU_append_step (self self' : LFU.t) (page : Z) :
  LFU.body self page = Ok self' →
  memory_append_step page (PRA.memory (LFU.super self)) (PRA.memory (LFU.super self')).
Proof.
  unfold LFU.body, PRA.is_page_in_memory.
  destruct (Py.contains page (PRA.memory (LFU.super self))) eqn:Hin; simpl.
  - intros (f & _ & [= <-])%bind_ok. simpl. by apply append_step_hit, contains_true.
  - apply contains_false in Hin. destruct (PRA.full _); simpl.
    + intros (self1 & (v & _ & (m & Hrem & (pf & _ & [= <-])%bind_ok)%bind_ok)%bind_ok
                & [= <-])%bind_ok.
      simpl. destruct v as [v|]; [|done]. by eapply append_step_remove.
    + intros [= <-]. simpl. by apply append_step_append.
Qed.

Lemma SimpleCLOCK_memory_step (self self' : SimpleCLOCK.t) (page : Z) :
  SimpleCLOCK.body self page = Ok self' →
  memory_step page (PRA.memory (SimpleCLOCK.super self))
              (PRA.memory (SimpleCLOCK.super self')).
Proof.
  unfold SimpleCLOCK.body, PRA.is_page_in_memory.
  destruct (Py.contains page (PRA.memory (SimpleCLOCK.super self))) eqn:Hin; simpl.
  - intros (slot & _ & [= <-])%bind_ok. simpl. by apply memory_step_hit, contains_true.
  - apply contains_false in Hin.
    intros ([ub h] & _ & H)%bind_ok. simpl in H. destruct (PRA.full _); simpl in H.
    + apply bind_ok in H as (self1 & (m & Hset & [= <-])%bind_ok & [= <-]). simpl.
      by eapply memory_step_setitem.
    + injection H as <-. simpl. by apply memory_step_append.
Qed.

(** What the loop of [EnhancedCLOCK] does to the memory. *)
Lemma place_memory fuel (self self' : EnhancedCLOCK.t) (page : Z) :
  EnhancedCLOCK.place fuel self page = Ok self' →
  PRA.memory (EnhancedCLOCK.super self') = PRA.memory (EnhancedCLOCK.super self) ++ [page] ∨
  ∃ slot, Py.setitem (PRA.memory (EnhancedCLOCK.super self)) slot page =
          Ok (PRA.memory (EnhancedCLOCK.super self')).
Proof.
  revert self. induction fuel as [|fuel IH]; intros self H; [done|].
  unfold EnhancedCLOCK.place in H; fold EnhancedCLOCK.place in H.
  apply bind_ok in H as (u & _ & H). apply bind_ok in H as (free & _ & H).
  destruct free.
  - apply bind_ok in H as (sup & Hsup & H). apply bind_ok in H as (hand' & _ & [= <-]).
    simpl. destruct (PRA.full _).
    + apply bind_ok in Hsup as (m & Hset & [= <-]). simpl. right. by eexists.
    + injection Hsup as <-. simpl. by left.
  - apply bind_ok in H as (hand' & _ & H). by apply IH in H.
Qed.

Lemma EnhancedCLOCK_memory_step (self self' : EnhancedCLOCK.t) (page : Z) :
  EnhancedCLOCK.body self page = Ok self' →
  memory_step page (PRA.memory (EnhancedCLOCK.super self))
              (PRA.memory (EnhancedCLOCK.super self')).
Proof.
  unfold EnhancedCLOCK.body, PRA.is_page_in_memory.
  destruct (Py.contains page (PRA.memory (EnhancedCLOCK.super self))) eqn:Hin; simpl.
  - intros (slot & _ & [= <-])%bind_ok. simpl. by apply memory_step_hit, contains_true.
  - apply contains_false in Hin.
    intros (self1 & Hplace & [= <-])%bind_ok. simpl.
    apply place_memory in Hplace as [->|(slot & Hset)]; simpl in *.
    + by apply memory_step_append.
    + by eapply memory_step_setitem.
Qed.

Lemma policy_memory_step (c : alg_class) (self self' : state (policy_of c))
    (i page : Z) (future : list Z) :
  on_reference (policy_of c) self i page future = Ok self' →
  memory_step page (PRA.memory (attrs (policy_of c) self))
              (PRA.memory (attrs (policy_of c) self')).
Proof.
  destruct c; simpl; intros H.
  - by apply append_step_memory_step, FIFO_append_step.
  - by eapply append_step_memory_step, LRU_append_step.
  - by eapply append_step_memory_step, OPT_append_step.
  - by apply append_step_memory_step, LFU_append_step.
  - by apply SimpleCLOCK_memory_step.
  - by apply EnhancedCLOCK_memory_step.
Qed.

Lemma policy_append_step (c : alg_class) (self self' : state (policy_of c))
    (i page : Z) (future : list Z) :
  is_clock c = false →
  on_reference (policy_of c) self i page future = Ok self' →
  memory_append_step page (PRA.memory (attrs (policy_of c) self))
                     (PRA.memory (attrs (policy_of c) self')).
Proof.
  destruct c; try done; simpl; intros _ H.
  - by apply FIFO_append_step.
  - by eapply LRU_append_step.
  - by eapply OPT_append_step.
  - by apply LFU_append_step.
Qed.

Lemma memory_step_facts (page : Z) (mem mem' : list Z) :
  memory_step page mem mem' →
  page ∈ mem' ∧ (∀ p, p ∈ mem' → p ∈ mem ∨ p = page) ∧ (NoDup mem → NoDup mem').
Proof.
  unfold memory_step. destruct (Py.contains page mem) eqn:Hin.
  - apply contains_true in Hin. intros ->. split_and!; [done|by left|done].
  - apply contains_false in Hin.
    intros [->|(before & victim & after & -> & [->| ->])].
    + split_and!; [set_solver|set_solver|].
      intros Hnd. apply NoDup_app. split_and!; [done|set_solver|apply NoDup_singleton].
    + split_and!; [set_solver|set_solver|].
      rewrite app_assoc. intros (Hb & Hd & [_ Ha]%NoDup_cons)%NoDup_app.
      apply NoDup_app. split_and!; [|set_solver|apply NoDup_singleton].
      apply NoDup_app. split_and!; [done|set_solver|done].
    + split_and!; [set_solver|set_solver|].
      intros (Hb & Hd & [_ Ha]%NoDup_cons)%NoDup_app.
      apply NoDup_app. split_and!; [done|set_solver|]. apply NoDup_cons. set_solver.
Qed.

(** ** Induction along a run *)

(** A property of the instance that holds for a fresh one and survives every
    request holds after any number of requests. *)
Lemma after_steps_invariant (c : alg_class) (frames : Z) (page_sequence : list Z)
    (J : nat → state (policy_of c) → Prop) :
  1 ≤ frames →
  J 0%nat (new (policy_of c) frames) →
  (∀ (n : nat) self self' page,
     page_sequence !! n = Some page →
     after_steps (policy_of c) n frames page_sequence = Ok self →
     after_steps (policy_of c) (S n) frames page_sequence = Ok self' →
     invariant c self → PRA.frames (attrs (policy_of c) self) = frames →
     on_reference (policy_of c) self (Z.of_nat n) page (drop (S n) page_sequence) = Ok self' →
     request_effect page (attrs (policy_of c) self) (attrs (policy_of c) self') →
     J n self → J (S n) self') →
  (∀ (n : nat) self, page_sequence !! n = None → J n self → J (S n) self) →
  ∀ n : nat, ∃ self, after_steps (policy_of c) n frames page_sequence = Ok self ∧
                     invariant c self ∧
                     PRA.frames (attrs (policy_of c) self) = frames ∧ J n self.
Proof.
  intros Hf H0 Hstep Hend n. pose proof (lawful_policy c) as L.
  induction n as [|n (self & Hself & HI & Hfr & HJ)].
  - exists (new (policy_of c) frames).
    split_and!; [by destruct page_sequence|by apply (inv_new _ _ L)| |done].
    by rewrite (new_attrs _ _ L).
  - destruct (page_sequence !! n) as [page|] eqn:Hn.
    + destruct (after_steps_succ _ _ L n frames page_sequence page Hf Hn)
        as (self0 & self' & E0 & _ & _ & Hon & E' & HI' & Heff).
      rewrite Hself in E0. injection E0 as <-.
      exists self'. split_and!; [done|done| |by eapply Hstep].
      apply request_effect_counts in Heff as (-> & _). done.
    + exists self. split_and!; [|done|done|by apply Hend].
      by rewrite (after_steps_past_end (policy_of c)).
Qed.

(** ** Counters and residents *)

Lemma after_steps_counters (c : alg_class) (frames : Z)
    (page_sequence : list Z) (n : nat) :
  1 ≤ frames →
  ∃ self, after_steps (policy_of c) n frames page_sequence = Ok self ∧
          let a := attrs (policy_of c) self in
          PRA.page_faults a = PRA.replacements a + Py.len (PRA.memory a) ∧
          0 ≤ PRA.replacements a ≤ PRA.page_faults a ∧
          0 ≤ PRA.page_hits a.
Proof.
  intros Hf.
  destruct (after_steps_invariant c frames page_sequence
              (fun _ self => let a := attrs (policy_of c) self in
                 PRA.page_faults a = PRA.replacements a + Py.len (PRA.memory a) ∧
                 0 ≤ PRA.replacements a ∧ 0 ≤ PRA.page_hits a) Hf)
    with (n := n) as (self & Hself & _ & _ & H1 & H2 & H3).
  - rewrite (new_attrs _ _ (lawful_policy c)). done.
  - intros k self self' page _ _ _ _ _ _ Heff (H1 & H2 & H3). simpl.
    unfold request_effect, hit_effect, fault_effect, PRA.full in Heff.
    destruct (PRA.is_page_in_memory _ page).
    + rewrite Heff. simpl. lia.
    + destruct Heff as (_ & -> & -> & Heff). case_bool_decide.
      * destruct Heff as (-> & Hlen & _). unfold Py.len. rewrite Hlen.
        unfold Py.len in H1. lia.
      * destruct Heff as (-> & ->). rewrite len_app_one. lia.
  - done.
  - exists self. split; [done|]. simpl. pose proof (len_nonneg (PRA.memory (attrs (policy_of c) self))).
    split_and!; [done|done|lia|done].
Qed.

(** X1: for each of the six policies and a capacity of at least one frame,
    after any number of requests the faults counted are the replacements
    counted plus the pages resident; so replacements never exceed faults,
    and no counter is negative. *)
Theorem faults_are_replacements_plus_residents (c : alg_class) (frames : Z)
    (page_sequence : list Z) (n : nat) :
  1 ≤ frames →
  ∃ self, after_steps (policy_of c) n frames page_sequence = Ok self ∧
          let a := attrs (policy_of c) self in
          PRA.page_faults a = PRA.replacements a + Py.len (PRA.memory a) ∧
          0 ≤ PRA.replacements a ≤ PRA.page_faults a ∧
          0 ≤ PRA.page_hits a.
Proof. apply after_steps_counters. Qed.

Lemma faults_are_replacements_plus_residents_witness :
  1 ≤ 3 ∧
  ∃ self, after_steps (policy_of cEnhancedCLOCK) 7 3 example_trace = Ok self ∧
          let a := attrs (policy_of cEnhancedCLOCK) self in
          PRA.page_faults a = PRA.replacements a + Py.len (PRA.memory a) ∧
          0 ≤ PRA.replacements a ≤ PRA.page_faults a ∧
          0 ≤ PRA.page_hits a.
Proof.
  split; [lia|].
  exact (faults_are_replacements_plus_residents cEnhancedCLOCK 3 example_trace 7 ltac:(lia)).
Defined.

Lemma after_steps_residents (c : alg_class) (frames : Z)
    (page_sequence : list Z) (n : nat) :
  1 ≤ frames →
  ∃ self, after_steps (policy_of c) n frames page_sequence = Ok self ∧
          let mem := PRA.memory (attrs (policy_of c) self) in
          NoDup mem ∧
          (∀ p, p ∈ mem → p ∈ take n page_sequence) ∧
          (∀ page, last (take n page_sequence) = Some page → page ∈ mem).
Proof.
  intros Hf.
  destruct (after_steps_invariant c frames page_sequence
              (fun k self => let mem := PRA.memory (attrs (policy_of c) self) in
                 NoDup mem ∧ (∀ p, p ∈ mem → p ∈ take k page_sequence) ∧
                 (∀ page, last (take k page_sequence) = Some page → page ∈ mem)) Hf)
    with (n := n) as (self & Hself & _ & _ & HJ).
  - rewrite (new_attrs _ _ (lawful_policy c)). simpl.
    split_and!; [constructor|set_solver|done].
  - intros k self self' page Hk _ _ _ _ Hon _ (Hnd & Hsub & _). simpl.
    apply policy_memory_step, memory_step_facts in Hon as (Hin & Hfrom & Hnd').
    rewrite (take_S_r _ _ _ Hk). split_and!; [by apply Hnd'| |].
    + intros p [Hp| ->]%Hfrom; [|set_solver]. apply elem_of_app. left. by apply Hsub.
    + intros page'. rewrite last_snoc. by intros [= <-].
  - intros k self Hk HJ. apply lookup_ge_None in Hk.
    by rewrite (take_ge _ (S k)), <- (take_ge page_sequence k) by lia.
  - by exists self.
Qed.

(** X2: for each of the six policies and a capacity of at least one frame,
    after any number of requests the memory lists no page twice, holds only
    pages that have been requested so far, and holds the page requested
    last. *)
Theorem residents_are_requested_pages (c : alg_class) (frames : Z)
    (page_sequence : list Z) (n : nat) :
  1 ≤ frames →
  ∃ self, after_steps (policy_of c) n frames page_sequence = Ok self ∧
          let mem := PRA.memory (attrs (policy_of c) self) in
          NoDup mem ∧
          (∀ p, p ∈ mem → p ∈ take n page_sequence) ∧
          (∀ page, last (take n page_sequence) = Some page → page ∈ mem).
Proof. apply after_steps_residents. Qed.

Lemma residents_are_requested_pages_witness :
  1 ≤ 3 ∧
  ∃ self, after_steps (policy_of cSimpleCLOCK) 7 3 example_trace = Ok self ∧
          let mem := PRA.memory (attrs (policy_of cSimpleCLOCK) self) in
          NoDup mem ∧
          (∀ p, p ∈ mem → p ∈ take 7 example_trace) ∧
          (∀ page, last (take 7 example_trace) = Some page → page ∈ mem).
Proof.
  split; [lia|].
  exact (residents_are_requested_pages cSimpleCLOCK 3 example_trace 7 ltac:(lia)).
Defined.

(** ** Runs that never replace *)

Lemma distinct_pages_snoc (served : list Z) (page : Z) :
  distinct_pages (served ++ [page]) =
  if Py.contains page (distinct_pages served) then distinct_pages served
  else distinct_pages served ++ [page].
Proof. unfold distinct_pages. by rewrite fold_left_app. Qed.

Lemma distinct_pages_extend (served more : list Z) :
  ∃ ext, distinct_pages (served ++ more) = distinct_pages served ++ ext.
Proof.
  induction more as [|page more IH] using rev_ind.
  - exists []. by rewrite !app_nil_r.
  - destruct IH as (ext & IH). rewrite app_assoc, distinct_pages_snoc, IH.
    destruct (Py.contains page _).
    + by exists ext.
    + exists (ext ++ [page]). by rewrite app_assoc.
Qed.

Lemma distinct_pages_take_length (page_sequence : list Z) (n : nat) :
  (length (distinct_pages (take n page_sequence)) ≤ length (distinct_pages page_sequence))%nat.
Proof.
  destruct (distinct_pages_extend (take n page_sequence) (drop n page_sequence)) as (ext & H).
  rewrite take_drop in H. rewrite H, length_app. lia.
Qed.

Section Growth.

Variable P : Policy.
Variable J : state P → Prop.
Hypothesis J_request : ∀ self i page future,
  J self →
  ∃ self', on_reference P self i page future = Ok self' ∧ J self' ∧
           request_effect page (attrs P self) (attrs P self').

Lemma growing_loop_total (self : state P) i page_sequence file :
  J self → ∃ self' file', loop P self i page_sequence file = Ok (self', file').
Proof.
  revert self i file.
  induction page_sequence as [|page rest IH]; intros self i file HJ; simpl.
  - by eexists _, _.
  - destruct (J_request self i page rest HJ) as (self1 & -> & HJ1 & _). simpl. by apply IH.
Qed.

(** While the memory cannot fill up, the attributes after [n] requests are
    those of [grown]. *)
Lemma growing_loop (self0 : state P) (frames : Z) (page_sequence : list Z) (n : nat) :
  J self0 → attrs P self0 = PRA.init frames →
  frames < 0 ∨ Py.len (distinct_pages page_sequence) ≤ frames →
  ∃ self, loop_upto P n self0 0 page_sequence = Ok self ∧ J self ∧
          attrs P self = grown frames (take n page_sequence).
Proof.
  intros HJ0 Hinit Hroom.
  induction n as [|n (self & Hself & HJ & Hattrs)].
  - exists self0. split_and!; [by destruct page_sequence|done|].
    by rewrite Hinit, take_0.
  - rewrite loop_upto_succ, Hself, bind_ok_l.
    destruct (page_sequence !! n) as [page|] eqn:Hn.
    + rewrite (drop_S _ _ _ Hn), Z.add_0_l.
      destruct (J_request self (Z.of_nat n) page (drop (S n) page_sequence) HJ)
        as (self' & -> & HJ' & Heff).
      exists self'. split_and!; [done|done|].
      rewrite (take_S_r _ _ _ Hn).
      pose proof (distinct_pages_take_length page_sequence (S n)) as Hle.
      rewrite (take_S_r _ _ _ Hn) in Hle.
      revert Heff Hle. rewrite Hattrs.
      unfold request_effect, hit_effect, fault_effect, PRA.is_page_in_memory, PRA.full, grown.
      simpl. rewrite distinct_pages_snoc.
      destruct (Py.contains page (distinct_pages (take n page_sequence))).
      * intros -> _. unfold PRA.record_page_hit. simpl. f_equal.
        rewrite len_app_one. lia.
      * rewrite !len_app_one. unfold Py.len in *. rewrite length_app. simpl. intros Heff Hle.
        rewrite bool_decide_eq_false_2 in Heff by lia.
        destruct Heff as (Hfr & Hpf & Hph & Hrp & Hmem).
        destruct (attrs P self'). simpl in *. subst. f_equal; rewrite ?length_app; simpl; lia.
    + apply lookup_ge_None in Hn. rewrite drop_ge by done.
      exists self. split_and!; [done|done|].
      by rewrite Hattrs, (take_ge _ (S n)), (take_ge _ n) by lia.
Qed.

Lemma growing_run (self0 : state P) (frames : Z) (page_sequence file : _) :
  J self0 → attrs P self0 = PRA.init frames →
  frames < 0 ∨ Py.len (distinct_pages page_sequence) ≤ frames →
  ∃ self file', simulate P self0 page_sequence file = Ok (self, file') ∧
                attrs P self = grown frames page_sequence.
Proof.
  intros HJ0 Hinit Hroom.
  destruct (growing_loop_total self0 0 page_sequence file HJ0) as (self & file' & Hloop).
  exists self, file'. split; [done|].
  apply loop_log in Hloop as (Hupto & _).
  destruct (growing_loop self0 frames page_sequence (length page_sequence) HJ0 Hinit Hroom)
    as (self1 & H1 & _ & Hattrs).
  rewrite Hupto in H1. injection H1 as <-. by rewrite Hattrs, firstn_all.
Qed.

End Growth.

(** X3: when the capacity is at least the number of distinct pages of the
    sequence, each of the six policies ends with exactly those pages
    resident, in the order of their first request, having counted one fault
    per distinct page, a hit for every other request and no replacement. *)
Theorem enough_frames_never_replace (c : alg_class) (frames : Z) (page_sequence : list Z) :
  1 ≤ frames → Py.len (distinct_pages page_sequence) ≤ frames →
  ∃ file, run c frames page_sequence = Ok (grown frames page_sequence, file).
Proof.
  intros Hf Hroom. pose proof (lawful_policy c) as L.
  destruct (growing_run (policy_of c) (invariant c) (inv_request _ _ L)
              (new (policy_of c) frames) frames page_sequence [])
    as (self & file & Hsim & Hattrs); [by apply (inv_new _ _ L)|apply (new_attrs _ _ L)|by right|].
  exists file. unfold run. by rewrite Hsim, <- Hattrs.
Qed.

Lemma enough_frames_never_replace_witness :
  1 ≤ 5 ∧ Py.len (distinct_pages example_trace) ≤ 5 ∧
  ∃ file, run cLRU 5 example_trace = Ok (grown 5 example_trace, file).
Proof.
  split; [lia|]. split; [by vm_compute|].
  apply (enough_frames_never_replace cLRU 5 example_trace); [lia|by vm_compute].
Defined.

(** ** Capacities below one frame *)

Lemma never_full (a : PRA.t) : PRA.frames a < 0 → PRA.full a = false.
Proof.
  intros H. apply full_false. pose proof (len_nonneg (PRA.memory a)). lia.
Qed.

Lemma unbounded_request (c : alg_class) self i page future :
  is_clock c = false → unbounded_inv c self →
  ∃ self', on_reference (policy_of c) self i page future = Ok self' ∧
           unbounded_inv c self' ∧
           request_effect page (attrs (policy_of c) self) (attrs (policy_of c) self').
Proof.
  intros Hc HJ. unfold request_effect, fault_effect, hit_effect.
  destruct c; try done; simpl in *.
  - unfold FIFO.body. destruct (PRA.is_page_in_memory _ page); simpl.
    + by eexists.
    + rewrite !never_full by done. eexists. by split_and!.
  - unfold LRU.body. destruct (PRA.is_page_in_memory _ page); simpl.
    + by eexists.
    + rewrite !never_full by done. eexists. by split_and!.
  - unfold OPT.body. destruct (PRA.is_page_in_memory _ page); simpl.
    + by eexists.
    + rewrite !never_full by done. eexists. by split_and!.
  - destruct HJ as [Hfr Hkeys].
    unfold LFU.body. destruct (PRA.is_page_in_memory _ page) eqn:Hin; simpl.
    + apply contains_true in Hin.
      destruct (get_member (LFU.page_frequency self) page) as (f & -> & _); [by rewrite Hkeys|].
      simpl. eexists. split_and!; [done|done| |done]. simpl.
      rewrite keys_set_old; [done|by rewrite Hkeys].
    + apply contains_false in Hin.
      rewrite !never_full by done. eexists. split_and!; try done. simpl.
      rewrite keys_set_new; [by rewrite Hkeys|by rewrite Hkeys].
Qed.

(** X4: FIFO, LRU, OPT and LFU take a negative capacity for an unlimited
    one: the run returns with every distinct page of the sequence resident,
    one fault per distinct page and no replacement. *)
Theorem negative_capacity_is_unbounded (c : alg_class) (frames : Z)
    (page_sequence : list Z) :
  frames < 0 → is_clock c = false →
  ∃ file, run c frames page_sequence = Ok (grown frames page_sequence, file).
Proof.
  intros Hf Hc.
  destruct (growing_run (policy_of c) (unbounded_inv c)
              (fun self i page future => unbounded_request c self i page future Hc)
              (new (policy_of c) frames) frames page_sequence [])
    as (self & file & Hsim & Hattrs); [by destruct c|by destruct c|by left|].
  exists file. unfold run. by rewrite Hsim, <- Hattrs.
Qed.

Lemma negative_capacity_is_unbounded_witness :
  -1 < 0 ∧ is_clock cFIFO = false ∧
  ∃ file, run cFIFO (-1) example_trace = Ok (grown (-1) example_trace, file).
Proof.
  split; [lia|]. split; [reflexivity|].
  apply (negative_capacity_is_unbounded cFIFO (-1) example_trace); [lia|reflexivity].
Defined.

Lemma all_false_nonpositive (frames : Z) : frames ≤ 0 → Py.all_false frames = ∅.
Proof. intros H. unfold Py.all_false. by destruct frames. Qed.

(** X5: a request cannot be served without a frame.  Given zero frames,
    every policy raises at the first request: FIFO [IndexError], LRU, OPT
    and LFU [ValueError], the clocks [KeyError]; the clocks raise the same
    [KeyError] at the first request for every capacity below one. *)
Theorem no_frame_first_request_raises (c : alg_class) (frames page : Z) (rest : list Z) :
  frames ≤ 0 → is_clock c = true ∨ frames = 0 →
  run c frames (page :: rest) = Raise (no_frame_error c).
Proof.
  intros Hf [Hc| ->].
  - unfold run, simulate. destruct c; try done; simpl.
    + unfold SimpleCLOCK.body, SimpleCLOCK.sweep. simpl.
      by rewrite all_false_nonpositive.
    + unfold EnhancedCLOCK.body, EnhancedCLOCK.place. simpl.
      by rewrite all_false_nonpositive.
  - by destruct c.
Qed.

Lemma no_frame_first_request_raises_witness :
  -2 ≤ 0 ∧ (is_clock cSimpleCLOCK = true ∨ -2 = 0) ∧
  run cSimpleCLOCK (-2) [7; 8] = Raise (no_frame_error cSimpleCLOCK).
Proof.
  split; [lia|]. split; [by left|].
  exact (no_frame_first_request_raises cSimpleCLOCK (-2) 7 [8] ltac:(lia) (or_introl eq_refl)).
Defined.

(** ** Queues in order of arrival *)

(** After any number of requests, FIFO, LRU, OPT and LFU list the resident
    pages in the order in which they were last brought in. *)
Lemma queue_insertion_order (c : alg_class) (frames : Z) (page_sequence : list Z) (n : nat) :
  1 ≤ frames → is_clock c = false →
  ∃ self (t : Z → nat),
    after_steps (policy_of c) n frames page_sequence = Ok self ∧
    invariant c self ∧
    (∀ p, p ∈ PRA.memory (attrs (policy_of c) self) →
          inserted_at (policy_of c) frames page_sequence n p (t p)) ∧
    StronglySorted (fun p q => (t p < t q)%nat) (PRA.memory (attrs (policy_of c) self)).
Proof.
  intros Hf Hc.
  destruct (after_steps_invariant c frames page_sequence
              (fun k self => ∃ t : Z → nat,
                 (∀ p, p ∈ PRA.memory (attrs (policy_of c) self) →
                       inserted_at (policy_of c) frames page_sequence k p (t p)) ∧
                 StronglySorted (fun p q => (t p < t q)%nat)
                                (PRA.memory (attrs (policy_of c) self))) Hf)
    with (n := n) as (self & Hself & HI & _ & t & Hins & Hsorted).
  - exists (fun _ => 0%nat). rewrite (new_attrs _ _ (lawful_policy c)). simpl.
    split; [|constructor]. intros p Hp. by apply elem_of_nil in Hp.
  - intros k self self' page Hk Hself _ _ _ Hon _ (t & Hins & Hsorted).
    apply (policy_append_step c) in Hon; [|done]. unfold memory_append_step in Hon.
    assert (∀ p, p ≠ page → ¬ faults_at (policy_of c) frames page_sequence k p) as Hnot.
    { intros p Hne (Hp & _). congruence. }
    destruct (Py.contains page _) eqn:Hin.
    + apply contains_true in Hin. rewrite Hon. exists t. split; [|done].
      intros p Hp. apply inserted_at_keep; [by apply Hins|].
      intros (Hp' & s & Hs & Hout). rewrite Hself in Hs. injection Hs as <-.
      assert (p = page) as -> by congruence. done.
    + apply contains_false in Hin.
      set (mem := PRA.memory (attrs (policy_of c) self)) in *.
      set (t' := fun p => if decide (p = page) then k else t p).
      assert (inserted_at (policy_of c) frames page_sequence (S k) page (t' page)) as Hnow.
      { unfold t'. rewrite decide_True by done. apply inserted_at_now.
        split; [done|]. by exists self. }
      assert (∀ p, p ∈ mem → p ≠ page →
                   inserted_at (policy_of c) frames page_sequence (S k) p (t' p)) as Hold.
      { intros p Hp Hne. unfold t'. rewrite decide_False by done.
        apply inserted_at_keep; [by apply Hins|by apply Hnot]. }
      assert (∀ p, p ∈ mem → (t p < k)%nat) as Hlt.
      { intros p Hp. by destruct (Hins p Hp) as (? & _). }
      exists t'. destruct Hon as [->|(before & victim & after & Hmem & ->)].
      * split.
        -- intros p [Hp| ->%list_elem_of_singleton]%elem_of_app; [|done].
           apply Hold; set_solver.
        -- rewrite <- (app_nil_l [page]).
           apply insertion_order_step; try done; [constructor|set_solver..|].
           intros p Hp. apply Hlt. set_solver.
      * rewrite Hmem in *.
        apply StronglySorted_app in Hsorted as (H12 & H1 & H2).
        apply StronglySorted_cons in H2 as [_ H2].
        split.
        -- intros p [Hp|[Hp| ->%list_elem_of_singleton]%elem_of_app]%elem_of_app;
             [apply Hold; set_solver..|done].
        -- apply insertion_order_step; try done; [set_solver..|].
           intros p Hp. apply Hlt. set_solver.
  - intros k self Hk (t & Hins & Hsorted). exists t. split; [|done].
    intros p Hp. apply inserted_at_keep; [by apply Hins|]. intros (Hp' & _). congruence.
  - by exists self, t.
Qed.

(** X6: after any number of requests, FIFO, LRU, OPT and LFU list the
    resident pages in the order in which they were last brought in: each
    resident page has a request that brought it in, and of two resident
    pages the one listed first was brought in first. *)
Theorem memory_is_in_arrival_order (c : alg_class) (frames : Z)
    (page_sequence : list Z) (n : nat) :
  1 ≤ frames → is_clock c = false →
  ∃ self, after_steps (policy_of c) n frames page_sequence = Ok self ∧
          let mem := PRA.memory (attrs (policy_of c) self) in
          (∀ p, p ∈ mem → ∃ k, inserted_at (policy_of c) frames page_sequence n p k) ∧
          (∀ l1 p l2 q l3 kp kq,
             mem = l1 ++ p :: l2 ++ q :: l3 →
             inserted_at (policy_of c) frames page_sequence n p kp →
             inserted_at (policy_of c) frames page_sequence n q kq →
             (kp < kq)%nat).
Proof.
  intros Hf Hc.
  destruct (queue_insertion_order c frames page_sequence n Hf Hc)
    as (self & t & Hself & _ & Hins & Hsorted).
  exists self. split; [done|]. simpl. split.
  - intros p Hp. exists (t p). by apply Hins.
  - intros l1 p l2 q l3 kp kq Hmem Hp Hq. rewrite Hmem in Hins, Hsorted.
    assert (kp = t p) as ->.
    { eapply inserted_at_unique; [done|]. apply Hins. set_solver. }
    assert (kq = t q) as ->.
    { eapply inserted_at_unique; [done|]. apply Hins. set_solver. }
    apply StronglySorted_app in Hsorted as (_ & _ & Hs).
    apply StronglySorted_cons in Hs as [Hall _]. rewrite Forall_forall in Hall.
    apply Hall. set_solver.
Qed.

Lemma memory_is_in_arrival_order_witness :
  1 ≤ 3 ∧ is_clock cOPT = false ∧
  ∃ self, after_steps (policy_of cOPT) 9 3 example_trace = Ok self ∧
          let mem := PRA.memory (attrs (policy_of cOPT) self) in
          (∀ p, p ∈ mem → ∃ k, inserted_at (policy_of cOPT) 3 example_trace 9 p k) ∧
          (∀ l1 p l2 q l3 kp kq,
             mem = l1 ++ p :: l2 ++ q :: l3 →
             inserted_at (policy_of cOPT) 3 example_trace 9 p kp →
             inserted_at (policy_of cOPT) 3 example_trace 9 q kq →
             (kp < kq)%nat).
Proof.
  split; [lia|]. split; [reflexivity|].
  exact (memory_is_in_arrival_order cOPT 3 example_trace 9 ltac:(lia) eq_refl).
Defined.

(** ** FIFO *)

(** X7: the queue of FIFO is always its memory list; when FIFO faults with
    its memory full it removes the head of that list, which was brought in
    before every other resident page, and appends the new page. *)
Theorem fifo_evicts_earliest_arrival (frames : Z) (page_sequence : list Z)
    (n : nat) (page : Z) (self : FIFO.t) :
  let mem := PRA.memory (FIFO.super self) in
  1 ≤ frames → page_sequence !! n = Some page →
  after_steps (policy_of cFIFO) n frames page_sequence = Ok self →
  FIFO.queue self = mem ∧
  ∃ self',
    after_steps (policy_of cFIFO) (S n) frames page_sequence = Ok self' ∧
    let mem' := PRA.memory (FIFO.super self') in
    if Py.contains page mem then mem' = mem
    else if PRA.full (FIFO.super self)
    then ∃ victim rest kv,
           mem = victim :: rest ∧ mem' = rest ++ [page] ∧
           inserted_at (policy_of cFIFO) frames page_sequence n victim kv ∧
           ∀ p kp, p ∈ rest →
                   inserted_at (policy_of cFIFO) frames page_sequence n p kp →
                   (kv < kp)%nat
    else mem' = mem ++ [page].
Proof.
  intros mem Hf Hn Hself. subst mem.
  destruct (after_steps_succ _ _ FIFO_lawful n frames page_sequence page Hf Hn)
    as (self0 & self' & H0 & HI & Hfr & Hstep & H' & _ & _).
  assert (Ok self0 = Ok self) as [= ->] by (rewrite <- H0; exact Hself).
  destruct HI as ((_ & Hlen) & Hq & Hnd). split; [done|].
  exists self'. split; [done|]. simpl in *.
  unfold FIFO.body, PRA.is_page_in_memory in Hstep.
  destruct (Py.contains page (PRA.memory (FIFO.super self))) eqn:Hin; simpl in Hstep.
  - by injection Hstep as <-.
  - unfold PRA.full in *. simpl in Hstep. case_bool_decide as Hfull; simpl in Hstep.
    + destruct self as [a q]. simpl in *. subst q.
      destruct (PRA.memory a) as [|victim rest] eqn:Hmem.
      { unfold Py.len in Hfull. simpl in Hfull. lia. }
      simpl in Hstep. rewrite bool_decide_eq_true_2 in Hstep by done. simpl in Hstep.
      injection Hstep as <-. simpl.
      destruct (queue_insertion_order cFIFO frames page_sequence n Hf eq_refl)
        as (self1 & t & E1 & _ & Hins & Hsorted).
      assert (Ok self1 = Ok (FIFO.mk a (victim :: rest))) as [= ->]
        by (rewrite <- E1; exact Hself).
      simpl in *.
      rewrite Hmem in Hins, Hsorted.
      exists victim, rest, (t victim). split_and!; [done|done|apply Hins; set_solver|].
      intros p kp Hp Hkp.
      assert (kp = t p) as ->.
      { eapply inserted_at_unique; [done|]. apply Hins. set_solver. }
      apply StronglySorted_cons in Hsorted as [Hall _]. rewrite Forall_forall in Hall.
      by apply Hall.
    + by injection Hstep as <-.
Qed.

Lemma fifo_evicts_earliest_arrival_witness :
  FIFO.queue (FIFO.mk (PRA.mk 3 [1; 2; 3] 3 0 0) [1; 2; 3]) = [1; 2; 3] ∧
  ∃ self',
    after_steps (policy_of cFIFO) 4 3 example_trace = Ok self' ∧
    ∃ victim rest kv,
      [1; 2; 3] = victim :: rest ∧ PRA.memory (FIFO.super self') = rest ++ [4] ∧
      inserted_at (policy_of cFIFO) 3 example_trace 3 victim kv ∧
      ∀ p kp, p ∈ rest →
              inserted_at (policy_of cFIFO) 3 example_trace 3 p kp →
              (kv < kp)%nat.
Proof.
  apply (fifo_evicts_earliest_arrival 3 example_trace 3 4
           (FIFO.mk (PRA.mk 3 [1; 2; 3] 3 0 0) [1; 2; 3])).
  - lia.
  - reflexivity.
  - reflexivity.
Defined.

(** ** LRU *)

Lemma elem_of_set (d : Py.dict) (k v : Z) (e : Z * Z) :
  NoDup (Py.keys d) → e ∈ Py.set d k v → e = (k, v) ∨ (e ∈ d ∧ e.1 ≠ k).
Proof.
  unfold Py.keys. induction d as [|[k' v'] d IH]; csimpl; intros Hnd.
  - intros ->%list_elem_of_singleton. by left.
  - apply NoDup_cons in Hnd as [Hk' Hnd]. case_bool_decide as Hk.
    + intros [->|He]%elem_of_cons; [by left|]. subst k'. right.
      split; [set_solver|]. intros Heq. apply Hk'. rewrite <- Heq.
      apply list_elem_of_fmap. by exists e.
    + intros [->|He]%elem_of_cons.
      * right. split; [set_solver|done].
      * destruct (IH Hnd He) as [->|[? ?]]; [by left|right; split; [set_solver|done]].
Qed.

Lemma del_subset (d d' : Py.dict) (k : Z) :
  Py.del d k = Ok d' → NoDup (Py.keys d) → NoDup (Py.keys d') ∧ ∀ e, e ∈ d' → e ∈ d.
Proof.
  unfold Py.keys. revert d'. induction d as [|[k' v'] d IH]; intros d' H Hnd; [done|].
  csimpl in *. apply NoDup_cons in Hnd as [Hk' Hnd]. case_bool_decide as Hk.
  - injection H as <-. split; [done|set_solver].
  - apply bind_ok in H as (d'' & Hdel & [= <-]).
    destruct (IH _ Hdel Hnd) as [Hnd'' Hsub]. csimpl. split.
    + apply NoDup_cons. split; [|done].
      intros (e & He1 & He)%list_elem_of_fmap. apply Hk'.
      apply list_elem_of_fmap. exists e. split; [done|by apply Hsub].
    + intros e [->|He]%elem_of_cons; [set_solver|]. apply elem_of_cons. right. by apply Hsub.
Qed.

Lemma last_referenced_unique (page_sequence : list Z) n p k1 k2 :
  last_referenced page_sequence n p k1 → last_referenced page_sequence n p k2 → k1 = k2.
Proof.
  intros (Hk1 & Hf1 & Hlast1) (Hk2 & Hf2 & Hlast2).
  destruct (lt_eq_lt_dec k1 k2) as [[Hlt|Heq]|Hgt]; [|done|].
  - destruct (Hlast1 k2); [lia|done].
  - destruct (Hlast2 k1); [lia|done].
Qed.

Lemma last_referenced_keep (page_sequence : list Z) n p k page :
  page_sequence !! n = Some page → p ≠ page →
  last_referenced page_sequence n p k → last_referenced page_sequence (S n) p k.
Proof.
  intros Hn Hne (Hk & Hp & Hlast). split_and!; [lia|done|].
  intros j Hj. destruct (decide (j = n)) as [->|]; [congruence|]. apply Hlast. lia.
Qed.

Lemma last_referenced_now (page_sequence : list Z) n page :
  page_sequence !! n = Some page → last_referenced page_sequence (S n) page n.
Proof. intros Hn. split_and!; [lia|done|]. intros j Hj. lia. Qed.

(** The entries of [page_time] after a request: the page requested, at the
    time of the request, and otherwise entries that were there before. *)
Lemma LRU_time_step (self self' : LRU.t) (time page : Z) :
  NoDup (Py.keys (LRU.page_time self)) →
  LRU.body self time page = Ok self' →
  ∀ e, e ∈ LRU.page_time self' →
       e = (page, time) ∨ (e ∈ LRU.page_time self ∧ e.1 ≠ page).
Proof.
  intros Hnd. unfold LRU.body.
  destruct (PRA.is_page_in_memory _ page); simpl.
  - intros [= <-] e. simpl. by apply elem_of_set.
  - destruct (PRA.full _); simpl.
    + intros (self1 & (oldest & _ & (m & _ & (pt & Hdel & [= <-])%bind_ok)%bind_ok)%bind_ok
                & [= <-])%bind_ok. simpl.
      destruct (del_subset _ _ _ Hdel Hnd) as [Hnd' Hsub].
      intros e [->|[He Hne]]%elem_of_set; [by left| |done].
      right. split; [by apply Hsub|done].
    + intros [= <-] e. simpl. by apply elem_of_set.
Qed.

(** After any number of requests, [page_time] holds for every resident page
    the number of the request that last referenced it. *)
Lemma lru_times (frames : Z) (page_sequence : list Z) (n : nat) :
  1 ≤ frames →
  ∃ self, after_steps (policy_of cLRU) n frames page_sequence = Ok self ∧
          LRU_inv self ∧
          ∀ p t, (p, t) ∈ LRU.page_time self →
                 ∃ k : nat, t = Z.of_nat k ∧ last_referenced page_sequence n p k.
Proof.
  intros Hf.
  destruct (after_steps_invariant cLRU frames page_sequence
              (fun k self => ∀ p t, (p, t) ∈ LRU.page_time self →
                 ∃ j : nat, t = Z.of_nat j ∧ last_referenced page_sequence k p j) Hf)
    with (n := n) as (self & Hself & HI & _ & HJ).
  - simpl. intros p t Hp. by apply elem_of_nil in Hp.
  - intros k self self' page Hk _ _ (_ & Hkeys & Hnd) _ Hon _ HJ p t Hpt. simpl in *.
    eapply LRU_time_step in Hon; [|by rewrite Hkeys|exact Hpt].
    destruct Hon as [[= -> ->]|[Hin Hne]].
    + exists k. split; [done|by apply last_referenced_now].
    + destruct (HJ p t Hin) as (j & -> & Hj). exists j. split; [done|].
      by eapply last_referenced_keep.
  - intros k self Hk HJ p t Hpt. destruct (HJ p t Hpt) as (j & -> & (Hj & Hp & Hlast)).
    exists j. split; [done|]. split_and!; [lia|done|].
    intros i Hi. destruct (decide (i = k)) as [->|]; [congruence|]. apply Hlast. lia.
  - by exists self.
Qed.

(** X8: [page_time] holds for every resident page the number of the request
    that last referenced it; when LRU faults with its memory full it removes
    the resident page whose last reference is the oldest, and appends the
    new page. *)
Theorem lru_evicts_least_recently_used (frames : Z) (page_sequence : list Z)
    (n : nat) (page : Z) (self : LRU.t) :
  let mem := PRA.memory (LRU.super self) in
  1 ≤ frames → page_sequence !! n = Some page →
  after_steps (policy_of cLRU) n frames page_sequence = Ok self →
  (∀ p, p ∈ mem → ∃ k : nat, Py.get (LRU.page_time self) p = Ok (Z.of_nat k) ∧
                             last_referenced page_sequence n p k) ∧
  ∃ self',
    after_steps (policy_of cLRU) (S n) frames page_sequence = Ok self' ∧
    let mem' := PRA.memory (LRU.super self') in
    Py.get (LRU.page_time self') page = Ok (Z.of_nat n) ∧
    if Py.contains page mem then mem' = mem
    else if PRA.full (LRU.super self)
    then ∃ before victim after kv,
           mem = before ++ victim :: after ∧ mem' = before ++ after ++ [page] ∧
           last_referenced page_sequence n victim kv ∧
           ∀ p kp, p ∈ mem → p ≠ victim →
                   last_referenced page_sequence n p kp → (kv < kp)%nat
    else mem' = mem ++ [page].
Proof.
  intros mem Hf Hn Hself. subst mem.
  destruct (lru_times frames page_sequence n Hf) as (self1 & E1 & HI & Htimes).
  assert (Ok self1 = Ok self) as [= ->] by (rewrite <- E1; exact Hself).
  destruct HI as ((Hcap & Hlen) & Hkeys & Hnd).
  assert (∀ p, p ∈ PRA.memory (LRU.super self) →
            ∃ k : nat, Py.get (LRU.page_time self) p = Ok (Z.of_nat k) ∧
                       last_referenced page_sequence n p k) as Hres.
  { intros p Hp. destruct (get_member (LRU.page_time self) p) as (t & Hget & Hin);
      [by rewrite Hkeys|].
    destruct (Htimes p t Hin) as (k & -> & Hk). by exists k. }
  split; [done|].
  destruct (after_steps_succ _ _ LRU_lawful n frames page_sequence page Hf Hn)
    as (self0 & self' & E0 & _ & _ & Hstep & H' & _ & _).
  assert (Ok self0 = Ok self) as [= ->] by (rewrite <- E0; exact Hself).
  exists self'. split; [done|]. simpl in Hstep. simpl.
  unfold LRU.body, PRA.is_page_in_memory in Hstep.
  destruct (Py.contains page (PRA.memory (LRU.super self))) eqn:Hin; simpl in Hstep.
  - injection Hstep as <-. simpl. split; [apply get_set_eq|done].
  - unfold PRA.full in *. simpl in Hstep. case_bool_decide as Hfull; simpl in Hstep.
    + apply bind_ok in Hstep as (self1 & Hevict & [= <-]). simpl.
      split; [apply get_set_eq|].
      apply bind_ok in Hevict as (oldest & Hmin & Hevict).
      apply bind_ok in Hevict as (m & Hrem & Hevict).
      apply bind_ok in Hevict as (pt & _ & [= <-]). simpl.
      apply remove_split in Hrem as (before & after & Hmem & -> & _).
      destruct (min_key_spec (LRU.page_time self)) as (k & v & Hmin' & Hkv & Hleast).
      { intros Hnil. rewrite Hnil in Hkeys. simpl in Hkeys. rewrite <- Hkeys in Hfull.
        unfold Py.len in Hfull. simpl in Hfull. lia. }
      rewrite Hmin in Hmin'. injection Hmin' as <-.
      destruct (Htimes oldest v Hkv) as (kv & -> & Hkv').
      exists before, oldest, after, kv.
      split_and!; [done|by rewrite <- app_assoc|done|].
      intros p kp Hp Hne Hkp.
      destruct (get_member (LRU.page_time self) p) as (t & _ & Hpt); [by rewrite Hkeys|].
      destruct (Htimes p t Hpt) as (j & -> & Hj).
      assert (j = kp) as -> by by eapply last_referenced_unique.
      specialize (Hleast _ Hpt). simpl in Hleast.
      destruct Hkv' as (_ & Hv & _), Hkp as (_ & Hp' & _).
      assert (kv ≠ kp) by (intros ->; congruence). lia.
    + injection Hstep as <-. simpl. split; [apply get_set_eq|done].
Qed.

Lemma lru_evicts_least_recently_used_witness :
  let mem := [1; 2; 5] in
  let times := [(1, 7); (2, 8); (5, 6)] in
  (∀ p, p ∈ mem → ∃ k : nat, Py.get times p = Ok (Z.of_nat k) ∧
                             last_referenced example_trace 9 p k) ∧
  ∃ self',
    after_steps (policy_of cLRU) 10 3 example_trace = Ok self' ∧
    let mem' := PRA.memory (LRU.super self') in
    Py.get (LRU.page_time self') 3 = Ok (Z.of_nat 9) ∧
    ∃ before victim after kv,
      mem = before ++ victim :: after ∧ mem' = before ++ after ++ [3] ∧
      last_referenced example_trace 9 victim kv ∧
      ∀ p kp, p ∈ mem → p ≠ victim →
              last_referenced example_trace 9 p kp → (kv < kp)%nat.
Proof.
  apply (lru_evicts_least_recently_used 3 example_trace 9 3
           (LRU.mk (PRA.mk 3 [1; 2; 5] 7 2 4) [(1, 7); (2, 8); (5, 6)])).
  - lia.
  - reflexivity.
  - reflexivity.
Defined.

(** ** The clocks *)

(** X9: with at least one frame, after any number of requests the hand of
    either clock points at one of the slots [0 .. frames - 1], and these
    are exactly the slots its bit dictionaries hold. *)
Theorem clock_hand_stays_on_a_slot (frames : Z) (page_sequence : list Z) (n : nat) :
  1 ≤ frames →
  (∃ self, after_steps (policy_of cSimpleCLOCK) n frames page_sequence = Ok self ∧
           0 ≤ SimpleCLOCK.hand self < frames ∧
           ∀ k, is_Some (SimpleCLOCK.use_bit self !! k) ↔ 0 ≤ k < frames) ∧
  (∃ self, after_steps (policy_of cEnhancedCLOCK) n frames page_sequence = Ok self ∧
           0 ≤ EnhancedCLOCK.hand self < frames ∧
           (∀ k, is_Some (EnhancedCLOCK.use_bit self !! k) ↔ 0 ≤ k < frames) ∧
           (∀ k, is_Some (EnhancedCLOCK.modify_bit self !! k) ↔ 0 ≤ k < frames)).
Proof.
  intros Hf. split.
  - destruct (after_steps_total _ _ SimpleCLOCK_lawful n frames page_sequence Hf)
      as (self & Hself & (_ & Hs & Hh) & Hfr & _).
    simpl in Hfr. rewrite Hfr in Hs, Hh. by exists self.
  - destruct (after_steps_total _ _ EnhancedCLOCK_lawful n frames page_sequence Hf)
      as (self & Hself & (_ & Hs & Hm & Hh) & Hfr & _).
    simpl in Hfr. rewrite Hfr in Hs, Hm, Hh. exists self.
    split; [done|]. split; [done|]. split; [done|].
    intros k. rewrite Hm. apply all_false_slots.
Qed.

Lemma clock_hand_stays_on_a_slot_witness :
  1 ≤ 3 ∧
  ∃ self, after_steps (policy_of cSimpleCLOCK) 9 3 example_trace = Ok self ∧
          0 ≤ SimpleCLOCK.hand self < 3 ∧
          ∀ k, is_Some (SimpleCLOCK.use_bit self !! k) ↔ 0 ≤ k < 3.
Proof.
  split; [lia|].
  exact (proj1 (clock_hand_stays_on_a_slot 3 example_trace 9 ltac:(lia))).
Defined.

Lemma slot_after_0 (frames hand : Z) :
  0 ≤ hand < frames → slot_after frames hand 0 = hand.
Proof. intros H. unfold slot_after. rewrite Z.add_0_r. by apply Z.mod_small. Qed.

Lemma slot_after_S (frames hand : Z) (j : nat) :
  slot_after frames ((hand + 1) `mod` frames) j = slot_after frames hand (S j).
Proof.
  unfold slot_after. rewrite Zplus_mod_idemp_l. f_equal. lia.
Qed.

(** The sweep of [SimpleCLOCK] passes the slots whose use bit is set,
    clearing them, and stops on the first slot whose use bit is clear. *)
Lemma sweep_passes fuel (frames : Z) (bits bits' : gmap Z bool) (hand hand' : Z) :
  1 ≤ frames → 0 ≤ hand < frames →
  SimpleCLOCK.sweep fuel frames bits hand = Ok (bits', hand') →
  ∃ k : nat, hand' = slot_after frames hand k ∧
             swept frames hand k bits bits' ∧
             bits' !! hand' = Some false.
Proof.
  intros Hf. revert bits hand.
  induction fuel as [|fuel IH]; intros bits hand Hh H; [done|].
  unfold SimpleCLOCK.sweep in H; fold SimpleCLOCK.sweep in H.
  apply bind_ok in H as (b & Hb & H). unfold Py.getbit in Hb.
  destruct (bits !! hand) as [b'|] eqn:Hbit; [|done]. injection Hb as ->.
  destruct b.
  - apply bind_ok in H as (hand1 & Hmod & H).
    destruct (mod_in_range frames (hand + 1) Hf) as [Hmod' Hr].
    rewrite Hmod in Hmod'. injection Hmod' as ->.
    destruct (IH _ _ Hr H) as (k & -> & (Hset & Hinj & Hclr & Hsame) & Hlast).
    assert (∀ j : nat, (j < k)%nat → slot_after frames hand (S j) ≠ hand) as Hne.
    { intros j Hj Heq. specialize (Hset j Hj). rewrite slot_after_S, Heq in Hset.
      by rewrite lookup_insert_eq in Hset. }
    exists (S k). split; [by rewrite slot_after_S|]. split; [|done].
    split_and!.
    + intros [|j] Hj; [by rewrite slot_after_0|].
      specialize (Hset j ltac:(lia)). rewrite slot_after_S in Hset.
      rewrite lookup_insert_ne in Hset; [done|]. intros Heq. by apply (Hne j ltac:(lia)).
    + intros [|j1] [|j2] H1 H2 Heq; [done| | |].
      * rewrite slot_after_0 in Heq by done. by destruct (Hne j2 ltac:(lia)).
      * rewrite slot_after_0 in Heq by done. by destruct (Hne j1 ltac:(lia)).
      * f_equal. apply Hinj; [lia..|]. by rewrite !slot_after_S.
    + intros [|j] Hj.
      * rewrite slot_after_0 by done. rewrite Hsame; [apply lookup_insert_eq|].
        intros j Hj' Heq. rewrite slot_after_S in Heq. by destruct (Hne j Hj').
      * rewrite <- slot_after_S. apply Hclr. lia.
    + intros s Hs. rewrite Hsame.
      * apply lookup_insert_ne. specialize (Hs 0%nat ltac:(lia)).
        by rewrite slot_after_0 in Hs.
      * intros j Hj. rewrite slot_after_S. apply Hs. lia.
  - injection H as <- <-. exists 0%nat.
    split; [by rewrite slot_after_0|]. split; [|done].
    split_and!; [intros j Hj; lia|intros j1 j2 Hj; lia|intros j Hj; lia|done].
Qed.

(** X10: when SimpleCLOCK faults, its hand moves past the slots whose use
    bit is set, clearing each, and stops on the first slot whose use bit is
    clear; the page is written into that slot when the memory is full and
    appended otherwise, and the use bit under the hand is set. *)
Theorem simple_clock_second_chance (frames : Z) (page_sequence : list Z)
    (n : nat) (page : Z) (self : SimpleCLOCK.t) :
  let mem := PRA.memory (SimpleCLOCK.super self) in
  1 ≤ frames → page_sequence !! n = Some page →
  after_steps (policy_of cSimpleCLOCK) n frames page_sequence = Ok self →
  page ∉ mem →
  ∃ self' (k : nat) (swept_bits : gmap Z bool),
    after_steps (policy_of cSimpleCLOCK) (S n) frames page_sequence = Ok self' ∧
    swept frames (SimpleCLOCK.hand self) k (SimpleCLOCK.use_bit self) swept_bits ∧
    swept_bits !! SimpleCLOCK.hand self' = Some false ∧
    SimpleCLOCK.hand self' = slot_after frames (SimpleCLOCK.hand self) k ∧
    SimpleCLOCK.use_bit self' = <[SimpleCLOCK.hand self' := true]> swept_bits ∧
    PRA.memory (SimpleCLOCK.super self') =
      if PRA.full (SimpleCLOCK.super self)
      then <[Z.to_nat (SimpleCLOCK.hand self') := page]> mem
      else mem ++ [page].
Proof.
  intros mem Hf Hn Hself Hout. subst mem.
  destruct (after_steps_succ _ _ SimpleCLOCK_lawful n frames page_sequence page Hf Hn)
    as (self0 & self' & E0 & HI & Hfr & Hstep & H' & _ & _).
  assert (Ok self0 = Ok self) as [= ->] by (rewrite <- E0; exact Hself).
  destruct HI as ((_ & Hlen) & Hs & Hh). simpl in Hfr, Hstep. rewrite Hfr in *.
  unfold SimpleCLOCK.body, PRA.is_page_in_memory in Hstep.
  rewrite (proj2 (contains_false _ _) Hout) in Hstep. simpl in Hstep.
  apply bind_ok in Hstep as ([ub h] & Hsweep & Hstep). simpl in Hstep.
  rewrite Hfr in Hsweep.
  destruct (sweep_passes _ _ _ _ _ _ Hf Hh Hsweep) as (k & -> & Hswept & Hlast).
  pose proof (Z.mod_pos_bound (SimpleCLOCK.hand self + Z.of_nat k) frames ltac:(lia)) as Hr.
  fold (slot_after frames (SimpleCLOCK.hand self) k) in Hr.
  unfold PRA.full in *. simpl in Hstep. case_bool_decide as Hfull; simpl in Hstep.
  - rewrite setitem_in_range in Hstep by lia. simpl in Hstep. injection Hstep as <-.
    eexists _, k, ub. split; [exact H'|]. simpl. by split_and!.
  - injection Hstep as <-.
    eexists _, k, ub. split; [exact H'|]. simpl. by split_and!.
Qed.

Lemma simple_clock_second_chance_witness :
  let self := SimpleCLOCK.mk (PRA.mk 3 [4; 1; 3] 5 0 2)
                (<[1 := true]> (<[0 := false]> (Py.all_false 3))) 1 in
  ∃ self' (k : nat) (swept_bits : gmap Z bool),
    after_steps (policy_of cSimpleCLOCK) 6 3 example_trace = Ok self' ∧
    swept 3 (SimpleCLOCK.hand self) k (SimpleCLOCK.use_bit self) swept_bits ∧
    swept_bits !! SimpleCLOCK.hand self' = Some false ∧
    SimpleCLOCK.hand self' = slot_after 3 (SimpleCLOCK.hand self) k ∧
    SimpleCLOCK.use_bit self' = <[SimpleCLOCK.hand self' := true]> swept_bits ∧
    PRA.memory (SimpleCLOCK.super self') =
      if PRA.full (SimpleCLOCK.super self)
      then <[Z.to_nat (SimpleCLOCK.hand self') := 2]> (PRA.memory (SimpleCLOCK.super self))
      else PRA.memory (SimpleCLOCK.super self) ++ [2].
Proof.
  intros self.
  refine (simple_clock_second_chance 3 example_trace 5 2 self _ _ _ _).
  - lia.
  - reflexivity.
  - by vm_compute.
  - apply (bool_decide_unpack _). reflexivity.
Defined.

(** With no modify bit set, the loop of [EnhancedCLOCK] is the sweep of
    [SimpleCLOCK] followed by the write into the slot found and one more
    step of the hand. *)
Lemma place_as_sweep fuel (self : EnhancedCLOCK.t) (page : Z) :
  let frames := PRA.frames (EnhancedCLOCK.super self) in
  1 ≤ frames → 0 ≤ EnhancedCLOCK.hand self < frames →
  EnhancedCLOCK.modify_bit self = Py.all_false frames →
  EnhancedCLOCK.place fuel self page =
  '(ub, slot) ← SimpleCLOCK.sweep fuel frames (EnhancedCLOCK.use_bit self)
                                 (EnhancedCLOCK.hand self);
  sup ← (if PRA.full (EnhancedCLOCK.super self) then
            m ← Py.setitem (PRA.memory (EnhancedCLOCK.super self)) slot page;
            Ok (PRA.incr_replacements (PRA.set_memory (EnhancedCLOCK.super self) m))
          else
            Ok (PRA.set_memory (EnhancedCLOCK.super self)
                  (PRA.memory (EnhancedCLOCK.super self) ++ [page])));
  hand' ← Py.mod_ (slot + 1) frames;
  Ok (EnhancedCLOCK.mk sup ub (EnhancedCLOCK.modify_bit self) hand').
Proof.
  simpl. revert self.
  induction fuel as [|fuel IH]; intros [a ub mb h] Hf Hh Hm; [done|]. simpl in *.
  unfold EnhancedCLOCK.place; fold EnhancedCLOCK.place.
  unfold SimpleCLOCK.sweep; fold SimpleCLOCK.sweep. simpl.
  unfold Py.getbit. destruct (ub !! h) as [[|]|] eqn:Hu; simpl; [| |done].
  - destruct (mod_in_range (PRA.frames a) (h + 1) Hf) as [-> Hr]. simpl.
    by rewrite IH.
  - assert (mb !! h = Some false) as Hmh.
    { rewrite Hm, all_false_lookup. by rewrite bool_decide_eq_true_2. }
    rewrite Hmh. simpl. rewrite (insert_id mb h false Hmh).
    destruct (PRA.full a); simpl; [|done].
    by destruct (Py.setitem (PRA.memory a) h page).
Qed.

(** X11: when EnhancedCLOCK faults, its hand moves past the slots whose use
    bit is set, clearing each, and stops on the first slot whose use bit is
    clear; the page is written into that slot when the memory is full and
    appended otherwise; the hand then moves one slot further, and it is the
    use bit of that next slot which is set. *)
Theorem enhanced_clock_second_chance (frames : Z) (page_sequence : list Z)
    (n : nat) (page : Z) (self : EnhancedCLOCK.t) :
  let mem := PRA.memory (EnhancedCLOCK.super self) in
  1 ≤ frames → page_sequence !! n = Some page →
  after_steps (policy_of cEnhancedCLOCK) n frames page_sequence = Ok self →
  page ∉ mem →
  ∃ self' (k : nat) (swept_bits : gmap Z bool),
    let slot := slot_after frames (EnhancedCLOCK.hand self) k in
    after_steps (policy_of cEnhancedCLOCK) (S n) frames page_sequence = Ok self' ∧
    swept frames (EnhancedCLOCK.hand self) k (EnhancedCLOCK.use_bit self) swept_bits ∧
    swept_bits !! slot = Some false ∧
    EnhancedCLOCK.hand self' = (slot + 1) `mod` frames ∧
    EnhancedCLOCK.use_bit self' = <[EnhancedCLOCK.hand self' := true]> swept_bits ∧
    PRA.memory (EnhancedCLOCK.super self') =
      if PRA.full (EnhancedCLOCK.super self)
      then <[Z.to_nat slot := page]> mem
      else mem ++ [page].
Proof.
  intros mem Hf Hn Hself Hout. subst mem.
  destruct (after_steps_succ _ _ EnhancedCLOCK_lawful n frames page_sequence page Hf Hn)
    as (self0 & self' & E0 & HI & Hfr & Hstep & H' & _ & _).
  assert (Ok self0 = Ok self) as [= ->] by (rewrite <- E0; exact Hself).
  destruct HI as ((_ & Hlen) & Hs & Hm & Hh). simpl in Hfr, Hstep. rewrite Hfr in *.
  unfold EnhancedCLOCK.body, PRA.is_page_in_memory in Hstep.
  rewrite (proj2 (contains_false _ _) Hout) in Hstep. simpl in Hstep.
  rewrite place_as_sweep in Hstep; simpl; rewrite ?Hfr; try done.
  simpl in Hstep. rewrite Hfr in Hstep.
  apply bind_ok in Hstep as (self1 & Hplace & [= <-]).
  apply bind_ok in Hplace as ([ub slot] & Hsweep & Hplace). simpl in Hplace.
  destruct (sweep_passes _ _ _ _ _ _ Hf Hh Hsweep) as (k & -> & Hswept & Hlast).
  pose proof (Z.mod_pos_bound (EnhancedCLOCK.hand self + Z.of_nat k) frames ltac:(lia)) as Hr.
  fold (slot_after frames (EnhancedCLOCK.hand self) k) in Hr.
  apply bind_ok in Hplace as (sup & Hsup & Hplace).
  apply bind_ok in Hplace as (hand' & Hmod & [= <-]).
  unfold Py.mod_ in Hmod. rewrite bool_decide_eq_false_2 in Hmod by lia.
  injection Hmod as <-.
  eexists _, k, ub. split; [exact H'|]. simpl.
  split_and!; [done..|].
  unfold PRA.full in *. simpl in Hsup. case_bool_decide as Hfull.
  - rewrite setitem_in_range in Hsup by lia. simpl in Hsup. by injection Hsup as <-.
  - by injection Hsup as <-.
Qed.

Lemma enhanced_clock_second_chance_witness :
  let self := EnhancedCLOCK.mk (PRA.mk 3 [4; 2; 3] 4 0 1)
                (<[1 := true]> (Py.all_false 3)) (Py.all_false 3) 1 in
  ∃ self' (k : nat) (swept_bits : gmap Z bool),
    let slot := slot_after 3 (EnhancedCLOCK.hand self) k in
    after_steps (policy_of cEnhancedCLOCK) 5 3 example_trace = Ok self' ∧
    swept 3 (EnhancedCLOCK.hand self) k (EnhancedCLOCK.use_bit self) swept_bits ∧
    swept_bits !! slot = Some false ∧
    EnhancedCLOCK.hand self' = (slot + 1) `mod` 3 ∧
    EnhancedCLOCK.use_bit self' = <[EnhancedCLOCK.hand self' := true]> swept_bits ∧
    PRA.memory (EnhancedCLOCK.super self') =
      if PRA.full (EnhancedCLOCK.super self)
      then <[Z.to_nat slot := 1]> (PRA.memory (EnhancedCLOCK.super self))
      else PRA.memory (EnhancedCLOCK.super self) ++ [1].
Proof.
  intros self.
  refine (enhanced_clock_second_chance 3 example_trace 4 1 self _ _ _ _).
  - lia.
  - reflexivity.
  - by vm_compute.
  - apply (bool_decide_unpack _). reflexivity.
Defined.

(** ** Rates *)

(** A nearest binary64 number of a fraction of the unit interval lies in
    that interval, since its two ends are binary64 numbers. *)
Lemma nearest_within_unit (q : Q) (x : Py.float) :
  (0 <= q)%Q → (q <= 1)%Q → nearest_binary64 q x →
  (0 <= float_value x)%Q ∧ (float_value x <= 1)%Q.
Proof.
  intros H0 H1 [_ Hnear].
  pose proof (Hnear (S754_zero false) I) as Hz.
  pose proof (Hnear (S754_finite false 4503599627370496 (-52)) eq_refl) as Ho.
  assert (float_value (S754_finite false 4503599627370496 (-52)) == 1)%Q as Hone
    by (by vm_compute).
  rewrite Hone in Ho. simpl float_value in Hz.
  rewrite (Qabs_neg (0 - q)) in Hz by lra. rewrite (Qabs_pos (1 - q)) in Ho by lra.
  apply Qabs_Qle_condition in Hz, Ho. lra.
Qed.

(** Rounding to a nearest binary64 number keeps the order. *)
Lemma nearest_monotone (q1 q2 : Q) (x1 x2 : Py.float) :
  (q1 < q2)%Q → nearest_binary64 q1 x1 → nearest_binary64 q2 x2 →
  (float_value x1 <= float_value x2)%Q.
Proof.
  intros Hq [Hx1 Hn1] [Hx2 Hn2].
  pose proof (Hn1 x2 Hx2) as H1. pose proof (Hn2 x1 Hx1) as H2.
  revert H1 H2. set (v1 := float_value x1). set (v2 := float_value x2).
  apply Qabs_case; intros ?; apply Qabs_case; intros ?;
    apply Qabs_case; intros ?; apply Qabs_case; intros ?; intros; lra.
Qed.

(** The counters at the end of a run and the two rates computed from them. *)
Lemma run_rates (c : alg_class) (frames : Z) (page_sequence : list Z) :
  1 ≤ frames → page_sequence ≠ [] →
  ∃ self file a fault_rate replacement_rate,
    simulate (policy_of c) (new (policy_of c) frames) page_sequence [] = Ok (self, file) ∧
    a = attrs (policy_of c) self ∧
    run c frames page_sequence = Ok (a, file) ∧
    PRA.page_faults a + PRA.page_hits a = Py.len page_sequence ∧
    0 ≤ PRA.replacements a < PRA.page_faults a ∧
    PRA.page_faults a ≤ Py.len page_sequence ∧
    Py.truediv (PRA.page_faults a) (Py.len page_sequence) = Ok fault_rate ∧
    Py.truediv (PRA.replacements a) (Py.len page_sequence) = Ok replacement_rate ∧
    nearest_binary64
      (inject_Z (PRA.page_faults a) / inject_Z (Py.len page_sequence)) fault_rate ∧
    nearest_binary64
      (inject_Z (PRA.replacements a) / inject_Z (Py.len page_sequence)) replacement_rate.
Proof.
  intros Hf Hne.
  destruct (run_spec c frames page_sequence Hf) as (self & file & Hsim & Hrun & Hend & _).
  destruct (after_steps_total _ _ (lawful_policy c) (length page_sequence) frames
              page_sequence Hf) as (s1 & E1 & _ & _ & Hcnt).
  destruct (after_steps_counters c frames page_sequence (length page_sequence) Hf)
    as (s2 & E2 & Hsum & Hrep & Hhits).
  destruct (after_steps_residents c frames page_sequence (length page_sequence) Hf)
    as (s3 & E3 & _ & _ & Hlast).
  rewrite Hend in E1, E2, E3. injection E1 as <-. injection E2 as <-. injection E3 as <-.
  simpl in *. rewrite firstn_all in Hlast. rewrite Nat.min_id in Hcnt.
  set (a := attrs (policy_of c) self) in *.
  assert (0 < Py.len page_sequence) as Hlen.
  { unfold Py.len. destruct page_sequence; [done|simpl; lia]. }
  assert (1 ≤ Py.len (PRA.memory a)) as Hmem.
  { destruct (exists_last Hne) as (front & page & Hseq).
    specialize (Hlast page). rewrite Hseq, last_snoc in Hlast. specialize (Hlast eq_refl).
    unfold Py.len. destruct (PRA.memory a); [by apply elem_of_nil in Hlast|simpl; lia]. }
  assert (PRA.page_faults a + PRA.page_hits a = Py.len page_sequence) as Hden
    by (unfold Py.len in *; lia).
  destruct (truediv_nearest (PRA.page_faults a) (Py.len page_sequence))
    as (fr & Hfr & Hfr_near); [lia|lia|].
  destruct (truediv_nearest (PRA.replacements a) (Py.len page_sequence))
    as (rr & Hrr & Hrr_near); [lia|lia|].
  exists self, file, a, fr, rr. split_and!; try done; lia.
Qed.

(** X12: for each of the six policies, a capacity of at least one frame and
    a non-empty sequence, both rates are defined after the run: the fault
    rate is a binary64 number as near as any to the faults over the length
    of the sequence, the replacement rate one as near as any to the
    replacements over that length, and
    [0 ≤ replacement rate ≤ fault rate ≤ 1]. *)
Theorem rates_are_fractions (c : alg_class) (frames : Z) (page_sequence : list Z) :
  1 ≤ frames → page_sequence ≠ [] →
  ∃ a file fault_rate replacement_rate,
    run c frames page_sequence = Ok (a, file) ∧
    PRA.get_page_fault_rate a = Ok fault_rate ∧
    PRA.get_replacement_rate a = Ok replacement_rate ∧
    nearest_binary64
      (inject_Z (PRA.page_faults a) / inject_Z (Py.len page_sequence)) fault_rate ∧
    nearest_binary64
      (inject_Z (PRA.replacements a) / inject_Z (Py.len page_sequence)) replacement_rate ∧
    (0 <= float_value replacement_rate)%Q ∧
    (float_value replacement_rate <= float_value fault_rate)%Q ∧
    (float_value fault_rate <= 1)%Q.
Proof.
  intros Hf Hne.
  destruct (run_rates c frames page_sequence Hf Hne)
    as (self & file & a & fr & rr & _ & _ & Hrun & Hden & Hrep & Hfaults &
        Hfr & Hrr & Hfr_near & Hrr_near).
  exists a, file, fr, rr.
  unfold PRA.get_page_fault_rate, PRA.get_replacement_rate. rewrite Hden.
  assert (0 < inject_Z (Py.len page_sequence))%Q as Hlen by (unfold Qlt; simpl; lia).
  assert (∀ k k' : Z, k ≤ k' →
            inject_Z k / inject_Z (Py.len page_sequence) <=
            inject_Z k' / inject_Z (Py.len page_sequence))%Q as Hmono.
  { intros k k' Hk. unfold Qdiv. apply Qmult_le_compat_r; [by rewrite <- Zle_Qle|].
    by apply Qlt_le_weak, Qinv_lt_0_compat. }
  assert (inject_Z 0 / inject_Z (Py.len page_sequence) == 0)%Q as Hzero
    by (unfold Qdiv; apply Qmult_0_l).
  assert (inject_Z (Py.len page_sequence) / inject_Z (Py.len page_sequence) == 1)%Q as Hunit.
  { unfold Qdiv. apply Qmult_inv_r. lra. }
  set (qf := (inject_Z (PRA.page_faults a) / inject_Z (Py.len page_sequence))%Q) in *.
  set (qr := (inject_Z (PRA.replacements a) / inject_Z (Py.len page_sequence))%Q) in *.
  destruct (nearest_within_unit qf fr) as [_ Hfr1]; [| |exact Hfr_near|].
  { rewrite <- Hzero. apply Hmono. lia. }
  { rewrite <- Hunit. by apply Hmono. }
  destruct (nearest_within_unit qr rr) as [Hrr0 _]; [| |exact Hrr_near|].
  { rewrite <- Hzero. apply Hmono. lia. }
  { rewrite <- Hunit. apply Hmono. lia. }
  split_and!; try done.
  apply (nearest_monotone qr qf rr fr); [|exact Hrr_near|exact Hfr_near].
  unfold qr, qf.
  unfold Qdiv. apply Qmult_lt_compat_r; [by apply Qinv_lt_0_compat|].
  rewrite <- Zlt_Qlt. lia.
Qed.

Lemma rates_are_fractions_witness :
  1 ≤ 3 ∧ example_trace ≠ [] ∧
  ∃ a file fault_rate replacement_rate,
    run cFIFO 3 example_trace = Ok (a, file) ∧
    PRA.get_page_fault_rate a = Ok fault_rate ∧
    PRA.get_replacement_rate a = Ok replacement_rate ∧
    nearest_binary64
      (inject_Z (PRA.page_faults a) / inject_Z (Py.len example_trace)) fault_rate ∧
    nearest_binary64
      (inject_Z (PRA.replacements a) / inject_Z (Py.len example_trace)) replacement_rate ∧
    (0 <= float_value replacement_rate)%Q ∧
    (float_value replacement_rate <= float_value fault_rate)%Q ∧
    (float_value fault_rate <= 1)%Q.
Proof.
  split; [lia|]. split; [discriminate|].
  exact (rates_are_fractions cFIFO 3 example_trace ltac:(lia) ltac:(discriminate)).
Defined.

(** The sweep of [run_all_simulations], which starts every name with the
    two rate lists, does return the rates of a fresh run per pair. *)
Lemma run_all_simulations_pair (c : alg_class) (frames : Z) (page_sequence : list Z) :
  1 ≤ frames → page_sequence ≠ [] →
  ∃ a file fault_rate replacement_rate,
    run c frames page_sequence = Ok (a, file) ∧
    Py.truediv (PRA.page_faults a) (Py.len page_sequence) = Ok fault_rate ∧
    Py.truediv (PRA.replacements a) (Py.len page_sequence) = Ok replacement_rate ∧
    run_all_simulations [c] page_sequence [frames] =
    Ok {[ class_name (policy_of c) := VRates [fault_rate] [replacement_rate] ]}.
Proof.
  intros Hf Hne.
  destruct (run_rates c frames page_sequence Hf Hne)
    as (self & file & a & fr & rr & Hsim & -> & Hrun & Hden & _ & _ & Hfr & Hrr & _).
  exists (attrs (policy_of c) self), file, fr, rr. split_and!; [done|done|done|].
  unfold run_all_simulations.
  cbn [Sweep.for_frame_counts Sweep.for_algorithms].
  rewrite Hsim. cbn [mbind result_bind].
  unfold PRA.get_page_fault_rate, PRA.get_replacement_rate.
  rewrite Hden, Hfr, Hrr.
  rewrite (append_fault_rate _ _ [] [] _ (fresh_results_first _ c [])).
  cbn [mbind result_bind].
  rewrite (append_replacement_rate _ _ _ [] _ (lookup_insert_eq _ _ _)).
  cbn [mbind result_bind]. do 2 f_equal.
  unfold Sweep.fresh_results. rewrite fmap_cons, fmap_nil. simpl.
  by rewrite !insert_insert_eq, insert_empty.
Qed.


(** ** The log *)

(** What is already in the file plays no part in a run: the run appends to
    it what it would write to an empty file. *)
Lemma loop_file (P : Policy) (self : state P) i page_sequence file :
  loop P self i page_sequence file =
  '(self', new) ← loop P self i page_sequence []; Ok (self', file ++ new).
Proof.
  revert self i file. induction page_sequence as [|page rest IH]; intros self i file.
  - simpl. by rewrite app_nil_r.
  - simpl. destruct (on_reference P self i page rest) as [self1|e]; [|done]. simpl.
    rewrite (IH self1 (i + 1) (file ++ _)), (IH self1 (i + 1) [_]).
    destruct (loop P self1 (i + 1) rest []) as [[self' new]|e]; [|done]. simpl.
    by rewrite <- app_assoc.
Qed.

(** X13: for each of the six policies and a capacity of at least one frame,
    [simulate] leaves what the file held and appends one record per
    request: the record written for request number [k] (from 1) carries the
    number [k], the name of the class and the memory as it stood after that
    request. *)
Theorem simulate_appends_numbered_log (c : alg_class) (frames : Z)
    (page_sequence : list Z) (file : list step_record) :
  1 ≤ frames →
  ∃ self written,
    simulate (policy_of c) (new (policy_of c) frames) page_sequence file =
      Ok (self, file ++ written) ∧
    length written = length page_sequence ∧
    ∀ (k : nat) r, written !! k = Some r →
      seq_no r = Z.of_nat k + 1 ∧
      policy_name r = class_name (policy_of c) ∧
      ∃ selfk, after_steps (policy_of c) (S k) frames page_sequence = Ok selfk ∧
               snapshot r = PRA.memory (attrs (policy_of c) selfk).
Proof.
  intros Hf.
  destruct (run_spec c frames page_sequence Hf) as (self & written & Hsim & _ & _ & Hlen & Hlog).
  exists self, written. unfold simulate in *. rewrite loop_file, Hsim. simpl.
  split_and!; [done|done|].
  intros k r Hk. destruct (Hlog k r Hk) as (selfk & Hk' & ->). simpl.
  split_and!; [done|done|]. by exists selfk.
Qed.

Lemma simulate_appends_numbered_log_witness :
  1 ≤ 3 ∧
  ∃ self written,
    simulate (policy_of cLFU) (new (policy_of cLFU) 3) example_trace
             [mk_record 1 "FIFO" [1]] =
      Ok (self, [mk_record 1 "FIFO" [1]] ++ written) ∧
    length written = length example_trace ∧
    ∀ (k : nat) r, written !! k = Some r →
      seq_no r = Z.of_nat k + 1 ∧
      policy_name r = class_name (policy_of cLFU) ∧
      ∃ selfk, after_steps (policy_of cLFU) (S k) 3 example_trace = Ok selfk ∧
               snapshot r = PRA.memory (attrs (policy_of cLFU) selfk).
Proof.
  split; [lia|].
  exact (simulate_appends_numbered_log cLFU 3 example_trace
           [mk_record 1 "FIFO" [1]] ltac:(lia)).
Defined.

(** ** The sweeps over policies and frame counts *)

Lemma class_name_inj (c1 c2 : alg_class) :
  class_name (policy_of c1) = class_name (policy_of c2) → c1 = c2.
Proof. by destruct c1, c2. Qed.

(** A run inside a sweep, whatever the file holds, yields the rates of
    [rates_of]. *)
Lemma rates_of_total (c : alg_class) (frames : Z) (page_sequence : list Z)
    (file : list step_record) :
  1 ≤ frames → page_sequence ≠ [] →
  ∃ self file' fr rr,
    simulate (policy_of c) (new (policy_of c) frames) page_sequence file = Ok (self, file') ∧
    PRA.get_page_fault_rate (attrs (policy_of c) self) = Ok fr ∧
    PRA.get_replacement_rate (attrs (policy_of c) self) = Ok rr ∧
    rates_of c frames page_sequence = Ok (fr, rr).
Proof.
  intros Hf Hne.
  destruct (run_rates c frames page_sequence Hf Hne)
    as (self & written & a & fr & rr & Hsim & -> & Hrun & Hden & _ & _ & Hfr & Hrr & _).
  exists self, (file ++ written), fr, rr.
  unfold rates_of, PRA.get_page_fault_rate, PRA.get_replacement_rate.
  rewrite Hrun. simpl. rewrite Hden, Hfr, Hrr. simpl.
  unfold simulate in *. rewrite loop_file, Hsim. simpl.
  by split_and!.
Qed.

(** One turn of the inner loop over the policies: every policy of the list
    gets its two rates appended, every other name is left alone. *)
Lemma for_algorithms_spec (algorithms : list alg_class) (frames : Z)
    (page_sequence : list Z) (results : gmap string pyvalue) (file : list step_record) :
  1 ≤ frames → page_sequence ≠ [] → NoDup algorithms →
  (∀ c, c ∈ algorithms → ∃ l1 l2, results !! class_name (policy_of c) = Some (VRates l1 l2)) →
  ∃ results' file',
    Sweep.for_algorithms algorithms frames page_sequence results file =
      Ok (results', file') ∧
    (∀ c l1 l2, c ∈ algorithms →
       results !! class_name (policy_of c) = Some (VRates l1 l2) →
       ∃ fr rr, rates_of c frames page_sequence = Ok (fr, rr) ∧
                results' !! class_name (policy_of c) =
                  Some (VRates (l1 ++ [fr]) (l2 ++ [rr]))) ∧
    (∀ name, (∀ c, c ∈ algorithms → name ≠ class_name (policy_of c)) →
             results' !! name = results !! name).
Proof.
  intros Hf Hne. revert results file.
  induction algorithms as [|c rest IH]; intros results file Hnd Hhas.
  - exists results, file. split_and!; [done| |done].
    intros c l1 l2 Hc. by apply elem_of_nil in Hc.
  - apply NoDup_cons in Hnd as [Hc Hnd].
    destruct (Hhas c ltac:(set_solver)) as (l1 & l2 & Hl).
    destruct (rates_of_total c frames page_sequence file Hf Hne)
      as (self & file1 & fr & rr & Hsim & Hfr & Hrr & Hrates).
    set (results1 := <[class_name (policy_of c) := VRates (l1 ++ [fr]) (l2 ++ [rr])]> results).
    assert (∀ c', c' ∈ rest →
              results1 !! class_name (policy_of c') = results !! class_name (policy_of c')) as Hkeep.
    { intros c' Hc'. unfold results1. apply lookup_insert_ne.
      intros Heq%class_name_inj. by subst. }
    destruct (IH results1 file1 Hnd) as (results' & file' & Hloop & Hnew & Hother).
    { intros c' Hc'. rewrite Hkeep by done. apply Hhas. set_solver. }
    exists results', file'. split_and!.
    + cbn [Sweep.for_algorithms]. rewrite Hsim. cbn [mbind result_bind].
      rewrite Hfr, (append_fault_rate _ _ _ _ _ Hl). cbn [mbind result_bind].
      rewrite Hrr, (append_replacement_rate _ _ _ l2 _ (lookup_insert_eq _ _ _)).
      cbn [mbind result_bind]. rewrite insert_insert_eq. exact Hloop.
    + intros c' l1' l2' [->|Hc']%elem_of_cons Hl'.
      * rewrite Hl in Hl'. injection Hl' as <- <-. exists fr, rr. split; [done|].
        rewrite Hother; [apply lookup_insert_eq|].
        intros c' Hc' Heq%class_name_inj. by subst.
      * apply Hnew; [done|]. by rewrite Hkeep.
    + intros name Hname. rewrite Hother.
      * apply lookup_insert_ne. intros Heq. by apply (Hname c ltac:(set_solver)).
      * intros c' Hc'. apply Hname. set_solver.
Qed.

(** The outer loop over the frame counts: every policy gets one pair of
    rates per frame count, in the order of the frame counts. *)
Lemma for_frame_counts_spec (algorithms : list alg_class) (frame_counts : list Z)
    (page_sequence : list Z) (results : gmap string pyvalue) (file : list step_record) :
  (∀ f, f ∈ frame_counts → 1 ≤ f) → page_sequence ≠ [] → NoDup algorithms →
  (∀ c, c ∈ algorithms → ∃ l1 l2, results !! class_name (policy_of c) = Some (VRates l1 l2)) →
  ∃ results' file',
    Sweep.for_frame_counts algorithms frame_counts page_sequence results file =
      Ok (results', file') ∧
    (∀ c l1 l2, c ∈ algorithms →
       results !! class_name (policy_of c) = Some (VRates l1 l2) →
       ∃ pairs, Forall2 (fun f pair => rates_of c f page_sequence = Ok pair)
                        frame_counts pairs ∧
                results' !! class_name (policy_of c) =
                  Some (VRates (l1 ++ pairs.*1) (l2 ++ pairs.*2))) ∧
    (∀ name, (∀ c, c ∈ algorithms → name ≠ class_name (policy_of c)) →
             results' !! name = results !! name).
Proof.
  intros Hfs Hne Hnd. revert results file.
  induction frame_counts as [|f fs IH]; intros results file Hhas.
  - exists results, file. split_and!; [done| |done].
    intros c l1 l2 Hc Hl. exists []. split; [constructor|]. by rewrite !app_nil_r.
  - destruct (for_algorithms_spec algorithms f page_sequence results file)
      as (results1 & file1 & Hinner & Hnew1 & Hother1); [apply Hfs; set_solver|done..|].
    destruct (IH ltac:(intros; apply Hfs; set_solver) results1 file1)
      as (results' & file' & Houter & Hnew & Hother).
    { intros c Hc. destruct (Hhas c Hc) as (l1 & l2 & Hl).
      destruct (Hnew1 c l1 l2 Hc Hl) as (fr & rr & _ & H1). eauto. }
    exists results', file'. split_and!.
    + cbn [Sweep.for_frame_counts]. rewrite Hinner. cbn [mbind result_bind]. exact Houter.
    + intros c l1 l2 Hc Hl.
      destruct (Hnew1 c l1 l2 Hc Hl) as (fr & rr & Hrates & H1).
      destruct (Hnew c _ _ Hc H1) as (pairs & Hpairs & H').
      exists ((fr, rr) :: pairs). split; [by constructor|].
      rewrite H'. csimpl. by rewrite <- !app_assoc.
    + intros name Hname. by rewrite Hother, Hother1.
Qed.

(** The fresh table holds the initial value under the name of every policy
    of the list and nothing under any other name. *)
Lemma fresh_results_member (v : pyvalue) (c : alg_class) (algorithms : list alg_class) :
  c ∈ algorithms →
  Sweep.fresh_results v algorithms !! class_name (policy_of c) = Some v.
Proof.
  unfold Sweep.fresh_results. induction algorithms as [|c' rest IH]; intros Hc.
  - by apply elem_of_nil in Hc.
  - rewrite fmap_cons. simpl.
    destruct (decide (class_name (policy_of c') = class_name (policy_of c))) as [->|Hne].
    + apply lookup_insert_eq.
    + rewrite lookup_insert_ne by done. apply IH.
      apply elem_of_cons in Hc as [->|Hc]; done.
Qed.

Lemma fresh_results_other (v : pyvalue) (name : string) (algorithms : list alg_class) :
  (∀ c, c ∈ algorithms → name ≠ class_name (policy_of c)) →
  Sweep.fresh_results v algorithms !! name = None.
Proof.
  unfold Sweep.fresh_results. induction algorithms as [|c' rest IH]; intros Hname.
  - done.
  - rewrite fmap_cons. simpl. rewrite lookup_insert_ne.
    + apply IH. intros c Hc. apply Hname. set_solver.
    + intros Heq. by apply (Hname c' ltac:(set_solver)).
Qed.

(** X14: given distinct policies, frame counts of at least one frame each
    and a non-empty sequence, the sweep of [run_all_simulations] returns a
    table that holds, under the name of every policy and under no other
    name, the fault rates and the replacement rates of a fresh run per frame
    count, in the order of the frame counts. *)
Theorem run_all_simulations_table (algorithms : list alg_class)
    (page_sequence frame_counts : list Z) :
  NoDup algorithms → (∀ f, f ∈ frame_counts → 1 ≤ f) → page_sequence ≠ [] →
  ∃ results,
    run_all_simulations algorithms page_sequence frame_counts = Ok results ∧
    (∀ c, c ∈ algorithms →
       ∃ pairs, Forall2 (fun f pair => rates_of c f page_sequence = Ok pair)
                        frame_counts pairs ∧
                results !! class_name (policy_of c) = Some (VRates pairs.*1 pairs.*2)) ∧
    (∀ name, (∀ c, c ∈ algorithms → name ≠ class_name (policy_of c)) →
             results !! name = None).
Proof.
  intros Hnd Hfs Hne.
  assert (∀ c, c ∈ algorithms →
            Sweep.fresh_results (VRates [] []) algorithms !! class_name (policy_of c) =
            Some (VRates [] [])) as Hfresh
    by (intros c Hc; by apply fresh_results_member).
  destruct (for_frame_counts_spec algorithms frame_counts page_sequence
              (Sweep.fresh_results (VRates [] []) algorithms) [] Hfs Hne Hnd)
    as (results & file & Hloop & Hnew & Hother).
  { intros c Hc. rewrite Hfresh by done. eauto. }
  exists results. unfold run_all_simulations. rewrite Hloop. split_and!; [done| |].
  - intros c Hc. destruct (Hnew c [] [] Hc (Hfresh c Hc)) as (pairs & Hpairs & H).
    by exists pairs.
  - intros name Hname. rewrite Hother by done. by apply fresh_results_other.
Qed.

Lemma run_all_simulations_table_witness :
  NoDup [cFIFO; cLRU] ∧ (∀ f, f ∈ [2; 3] → 1 ≤ f) ∧ example_trace ≠ [] ∧
  ∃ results,
    run_all_simulations [cFIFO; cLRU] example_trace [2; 3] = Ok results ∧
    (∀ c, c ∈ [cFIFO; cLRU] →
       ∃ pairs, Forall2 (fun f pair => rates_of c f example_trace = Ok pair) [2; 3] pairs ∧
                results !! class_name (policy_of c) = Some (VRates pairs.*1 pairs.*2)) ∧
    (∀ name, (∀ c, c ∈ [cFIFO; cLRU] → name ≠ class_name (policy_of c)) →
             results !! name = None).
Proof.
  assert (NoDup [cFIFO; cLRU]) as Hnd.
  { apply NoDup_cons. split; [|apply NoDup_singleton].
    intros H%list_elem_of_singleton. discriminate H. }
  assert (∀ f : Z, f ∈ [2; 3] → 1 ≤ f) as Hfs.
  { intros f [->|[->|H]%elem_of_cons]%elem_of_cons; [lia|lia|by apply elem_of_nil in H]. }
  split; [exact Hnd|]. split; [exact Hfs|]. split; [discriminate|].
  exact (run_all_simulations_table [cFIFO; cLRU] example_trace [2; 3] Hnd Hfs
           ltac:(discriminate)).
Defined.

(** X15: with no policy or no frame count to go through,
    [test_page_replacement_algorithms] runs nothing: it returns the table it
    started with, an empty list under each name, and leaves the file as it
    was. *)
Theorem sweep_over_nothing_returns_fresh_table (algorithms : list alg_class)
    (page_sequence frame_counts : list Z) (file : list step_record) :
  algorithms = [] ∨ frame_counts = [] →
  test_page_replacement_algorithms algorithms page_sequence frame_counts file =
  Ok (Sweep.fresh_results (VList []) algorithms, file).
Proof.
  unfold test_page_replacement_algorithms. intros [-> | ->]; [|done].
  generalize (Sweep.fresh_results (VList []) []).
  induction frame_counts as [|frames rest IH]; intros results; [done|].
  simpl. apply IH.
Qed.

Lemma sweep_over_nothing_returns_fresh_table_witness :
  (@nil alg_class = [] ∨ [2; 3] = @nil Z) ∧
  test_page_replacement_algorithms [] example_trace [2; 3] [] =
  Ok (Sweep.fresh_results (VList []) [], []).
Proof.
  split; [by left|].
  exact (sweep_over_nothing_returns_fresh_table [] example_trace [2; 3] [] (or_introl eq_refl)).
Defined.

(** ** The random page sequence *)

Lemma counter_randint_law : randint_law counter_randint.
Proof.
  intros a b g. unfold counter_randint. case_bool_decide; [|done].
  eexists _, _. split; [done|].
  pose proof (Z.mod_pos_bound g (b - a + 1)). lia.
Qed.

Lemma draws_spec {G : Type} (randint : Z → Z → G → result (Z * G)) (n : nat)
    (upper_bound : Z) (g : G) :
  randint_law randint → 1 ≤ upper_bound →
  ∃ pages g', draws randint n upper_bound g = Ok (pages, g') ∧
              length pages = n ∧ Forall (fun page => 1 ≤ page ≤ upper_bound) pages.
Proof.
  intros Hlaw Hub. revert g. induction n as [|n IH]; intros g.
  - by exists [], g.
  - pose proof (Hlaw 1 upper_bound g) as H. rewrite bool_decide_eq_true_2 in H by done.
    destruct H as (x & g1 & Hx & Hrange).
    destruct (IH g1) as (pages & g' & Hrest & Hlen & Hall).
    exists (x :: pages), g'. simpl. rewrite Hx. simpl. rewrite Hrest. simpl.
    split_and!; [done|by rewrite Hlen|by constructor].
Qed.

(** What comes back from [generate_page_sequence] is empty or made of pages
    of [1..upper_bound]. *)
Lemma generate_page_sequence_shape {G : Type} (randint : Z → Z → G → result (Z * G))
    (size upper_bound : Z) (g : G) :
  randint_law randint →
  match generate_page_sequence randint size upper_bound g with
  | Ok (pages, _) =>
      pages = [] ∨ (1 ≤ upper_bound ∧ Forall (fun page => 1 ≤ page ≤ upper_bound) pages)
  | Raise _ => True
  end.
Proof.
  intros Hlaw. unfold generate_page_sequence.
  destruct (Z.to_nat size) as [|n]; [by left|].
  destruct (decide (1 ≤ upper_bound)) as [Hub|Hub].
  - destruct (draws_spec randint (S n) upper_bound g Hlaw Hub) as (pages & g' & -> & _ & Hall).
    by right.
  - simpl. pose proof (Hlaw 1 upper_bound g) as H.
    rewrite bool_decide_eq_false_2 in H by done. by rewrite H.
Qed.

(** X16: over a [random.randint] that keeps to its range,
    [generate_page_sequence] returns the empty list for a size below one;
    for a larger size it returns that many pages, each of [1..upper_bound],
    when the upper bound is at least 1, and raises [ValueError] at the
    first draw otherwise. *)
Theorem generate_page_sequence_range {G : Type} (randint : Z → Z → G → result (Z * G))
    (size upper_bound : Z) (g : G) :
  randint_law randint →
  if bool_decide (size ≤ 0) then
    generate_page_sequence randint size upper_bound g = Ok ([], g)
  else if bool_decide (1 ≤ upper_bound) then
    ∃ pages g', generate_page_sequence randint size upper_bound g = Ok (pages, g') ∧
                Py.len pages = size ∧
                Forall (fun page => 1 ≤ page ≤ upper_bound) pages
  else generate_page_sequence randint size upper_bound g = Raise ValueError.
Proof.
  intros Hlaw. unfold generate_page_sequence. repeat case_bool_decide.
  - by replace (Z.to_nat size) with O by lia.
  - destruct (draws_spec randint (Z.to_nat size) upper_bound g Hlaw)
      as (pages & g' & Hd & Hlen & Hall); [done|].
    exists pages, g'. split_and!; [done| |done]. unfold Py.len. lia.
  - destruct (Z.to_nat size) as [|n] eqn:E; [lia|]. simpl.
    pose proof (Hlaw 1 upper_bound g) as Hd. rewrite bool_decide_eq_false_2 in Hd by done.
    by rewrite Hd.
Qed.

Lemma generate_page_sequence_range_witness :
  randint_law counter_randint ∧
  ∃ pages g', generate_page_sequence counter_randint 100 10 0 = Ok (pages, g') ∧
              Py.len pages = 100 ∧
              Forall (fun page => 1 ≤ page ≤ 10) pages.
Proof.
  split; [exact counter_randint_law|].
  exact (generate_page_sequence_range counter_randint 100 10 0 counter_randint_law).
Defined.

Lemma distinct_pages_spec (served : list Z) :
  NoDup (distinct_pages served) ∧ ∀ page, page ∈ distinct_pages served ↔ page ∈ served.
Proof.
  induction served as [|page served [IHnd IHin]] using rev_ind.
  - split; [constructor|done].
  - rewrite distinct_pages_snoc. destruct (Py.contains page _) eqn:E.
    + apply contains_true in E. split; [done|]. intros x. rewrite elem_of_app, IHin.
      rewrite list_elem_of_singleton. split; [by left|]. intros [H| ->]; [done|].
      by apply IHin.
    + apply contains_false in E. split.
      * apply NoDup_app. split_and!; [done| |apply NoDup_singleton].
        intros x Hx ->%list_elem_of_singleton. done.
      * intros x. by rewrite !elem_of_app, IHin.
Qed.

(** Pigeonhole: a sequence over the pages [1..upper_bound] has at most
    [upper_bound] distinct pages. *)
Lemma distinct_pages_bound (page_sequence : list Z) (upper_bound : Z) :
  0 ≤ upper_bound →
  Forall (fun page => 1 ≤ page ≤ upper_bound) page_sequence →
  Py.len (distinct_pages page_sequence) ≤ upper_bound.
Proof.
  intros Hub Hall. destruct (distinct_pages_spec page_sequence) as [Hnd Hin].
  assert (distinct_pages page_sequence ⊆+ seqZ 1 upper_bound) as Hsub.
  { apply NoDup_submseteq; [done|]. intros x Hx%Hin.
    rewrite Forall_forall in Hall. apply Hall in Hx. apply elem_of_seqZ. lia. }
  apply submseteq_length in Hsub. rewrite length_seqZ in Hsub. unfold Py.len. lia.
Qed.

(** X17: a sequence that [generate_page_sequence] returns for an upper bound
    within the capacity never makes any of the six policies replace a page:
    the run ends with the distinct pages drawn resident and no replacement
    counted. *)
Theorem generated_sequence_fits_frames {G : Type} (randint : Z → Z → G → result (Z * G))
    (c : alg_class) (size upper_bound frames : Z) (g g' : G) (page_sequence : list Z) :
  randint_law randint →
  generate_page_sequence randint size upper_bound g = Ok (page_sequence, g') →
  1 ≤ frames → upper_bound ≤ frames →
  ∃ file, run c frames page_sequence = Ok (grown frames page_sequence, file).
Proof.
  intros Hlaw Hgen Hf Hub. pose proof (lawful_policy c) as L.
  assert (Py.len (distinct_pages page_sequence) ≤ frames) as Hroom.
  { pose proof (generate_page_sequence_shape randint size upper_bound g Hlaw) as H.
    rewrite Hgen in H. destruct H as [-> | [H1 Hall]]; [unfold distinct_pages, Py.len; simpl; lia|].
    etrans; [apply (distinct_pages_bound _ upper_bound); [lia|done]|done]. }
  destruct (growing_run (policy_of c) (invariant c) (inv_request _ _ L)
              (new (policy_of c) frames) frames page_sequence [])
    as (self & file & Hsim & Hattrs); [by apply (inv_new _ _ L)|apply (new_attrs _ _ L)|by right|].
  exists file. unfold run. by rewrite Hsim, <- Hattrs.
Qed.

Lemma generated_sequence_fits_frames_witness :
  randint_law counter_randint ∧
  generate_page_sequence counter_randint 6 3 0 = Ok ([1; 2; 3; 1; 2; 3], 6) ∧
  1 ≤ 4 ∧ 3 ≤ 4 ∧
  ∃ file, run cOPT 4 [1; 2; 3; 1; 2; 3] = Ok (grown 4 [1; 2; 3; 1; 2; 3], file).
Proof.
  split; [exact counter_randint_law|]. split; [reflexivity|]. split; [lia|]. split; [lia|].
  exact (generated_sequence_fits_frames counter_randint cOPT 6 3 4 0 6 [1; 2; 3; 1; 2; 3]
           counter_randint_law eq_refl ltac:(lia) ltac:(lia)).
Defined.

(** ** Calling [simulate] again *)

Lemma index_free_on_reference (c : alg_class) self i j page future future' :
  index_free c = true →
  on_reference (policy_of c) self i page future =
  on_reference (policy_of c) self j page future'.
Proof. by destruct c. Qed.

Lemma loop_app (c : alg_class) self i s1 s2 file :
  index_free c = true →
  loop (policy_of c) self i (s1 ++ s2) file =
  '(self1, file1) ← loop (policy_of c) self i s1 file;
  loop (policy_of c) self1 (i + Py.len s1) s2 file1.
Proof.
  intros Hc. revert self i file. induction s1 as [|page rest IH]; intros self i file.
  - simpl. by rewrite Z.add_0_r.
  - cbn [app loop].
    rewrite (index_free_on_reference c self i i page (rest ++ s2) rest Hc).
    destruct (on_reference (policy_of c) self i page rest) as [self1|e]; [|done].
    cbn [mbind result_bind]. rewrite IH.
    replace (i + 1 + Py.len rest) with (i + Py.len (page :: rest)); [done|].
    unfold Py.len. simpl length. lia.
Qed.

Lemma loop_renumber (c : alg_class) self i j s file :
  index_free c = true →
  loop (policy_of c) self i s file =
  '(self', written) ← loop (policy_of c) self j s [];
  Ok (self', file ++ (renumber (j - i) <$> written)).
Proof.
  intros Hc. revert self i j file. induction s as [|page rest IH]; intros self i j file.
  - simpl. by rewrite app_nil_r.
  - cbn [loop].
    rewrite (index_free_on_reference c self j i page rest rest Hc).
    destruct (on_reference (policy_of c) self i page rest) as [self1|e]; [|done].
    cbn [mbind result_bind].
    rewrite (IH self1 (i + 1) (j + 1)), (loop_file _ self1 (j + 1) rest ([] ++ _)).
    destruct (loop (policy_of c) self1 (j + 1) rest []) as [[self' written]|e]; [|done].
    cbn [mbind result_bind]. rewrite app_nil_l, fmap_app, <- app_assoc.
    replace (j + 1 - (i + 1)) with (j - i) by lia.
    do 3 f_equal. cbn [fmap list_fmap]. unfold renumber. simpl. do 2 f_equal. lia.
Qed.

(** X18: for FIFO, LFU and the two clocks, whose loop bodies look at neither
    the index nor the requests to come, two calls of [simulate] on one
    instance do what one call on the concatenated sequence does; they end in
    the same instance, and the log differs only in that the records of the
    second call are numbered from 1 again. *)
Theorem simulate_twice_continues (c : alg_class) (self : state (policy_of c))
    (s1 s2 : list Z) (file : list step_record) :
  index_free c = true →
  ('(self1, file1) ← simulate (policy_of c) self s1 file;
   simulate (policy_of c) self1 s2 file1) =
  ('(self', written) ← simulate (policy_of c) self (s1 ++ s2) [];
   Ok (self', file ++ take (length s1) written ++
              (renumber (Py.len s1) <$> drop (length s1) written))).
Proof.
  intros Hc. unfold simulate.
  rewrite (loop_app c self 0 s1 s2 [] Hc), (loop_file _ self 0 s1 file).
  destruct (loop (policy_of c) self 0 s1 []) as [[self1 n1]|e] eqn:E1; [|done].
  cbn [mbind result_bind].
  apply loop_log in E1 as (_ & new1 & Hn1 & Hlen & _). rewrite app_nil_l in Hn1. subst new1.
  rewrite (loop_renumber c self1 0 (0 + Py.len s1) s2 (file ++ n1) Hc).
  rewrite (loop_file _ self1 (0 + Py.len s1) s2 n1).
  destruct (loop (policy_of c) self1 (0 + Py.len s1) s2 []) as [[self' n2]|e]; [|done].
  cbn [mbind result_bind].
  rewrite <- Hlen, take_app_length, drop_app_length, <- app_assoc.
  by replace (0 + Py.len s1 - 0) with (Py.len s1) by lia.
Qed.

Lemma simulate_twice_continues_witness :
  index_free cLFU = true ∧
  ('(self1, file1) ← simulate (policy_of cLFU) (new (policy_of cLFU) 2) [1; 2; 1] [];
   simulate (policy_of cLFU) self1 [3; 1] file1) =
  ('(self', written) ← simulate (policy_of cLFU) (new (policy_of cLFU) 2) ([1; 2; 1] ++ [3; 1]) [];
   Ok (self', [] ++ take (length [1; 2; 1]) written ++
              (renumber (Py.len [1; 2; 1]) <$> drop (length [1; 2; 1]) written))).
Proof.
  split; [reflexivity|].
  exact (simulate_twice_continues cLFU (new (policy_of cLFU) 2) [1; 2; 1] [3; 1] [] eq_refl).
Defined.

(** ** LFU: what the frequencies count *)

Lemma requests_between_succ (page_sequence : list Z) (k n : nat) (p page : Z) :
  (k ≤ n)%nat → page_sequence !! n = Some page →
  requests_between page_sequence k (S n) p =
  requests_between page_sequence k n p + (if bool_decide (page = p) then 1 else 0).
Proof.
  intros Hk Hn. unfold requests_between. rewrite (take_S_r _ _ _ Hn).
  pose proof (lookup_lt_Some _ _ _ Hn) as Hlt.
  rewrite drop_app_le by (rewrite length_take; lia).
  rewrite filter_app. unfold Py.len. rewrite length_app.
  case_bool_decide as Hp.
  - rewrite filter_cons_True by done. simpl. lia.
  - rewrite filter_cons_False by done. simpl. lia.
Qed.

Lemma requests_between_past_end (page_sequence : list Z) (k n : nat) (p : Z) :
  page_sequence !! n = None →
  requests_between page_sequence k (S n) p = requests_between page_sequence k n p.
Proof.
  intros Hn%lookup_ge_None. unfold requests_between. by rewrite !take_ge by lia.
Qed.

Lemma requests_between_none (page_sequence : list Z) (n : nat) (p : Z) :
  requests_between page_sequence n n p = 0.
Proof.
  unfold requests_between. rewrite drop_ge; [done|]. rewrite length_take. lia.
Qed.

Lemma lfu_frequencies (frames : Z) (page_sequence : list Z) (n : nat) :
  1 ≤ frames →
  ∃ self,
    after_steps (policy_of cLFU) n frames page_sequence = Ok self ∧
    ∀ p, p ∈ PRA.memory (LFU.super self) →
      ∃ k, inserted_at (policy_of cLFU) frames page_sequence n p k ∧
           Py.get (LFU.page_frequency self) p =
             Ok (requests_between page_sequence k n p).
Proof.
  intros Hf. induction n as [|n (self & Hself & IH)].
  - exists (LFU.init frames). split; [by destruct page_sequence|].
    intros p Hp. by apply elem_of_nil in Hp.
  - destruct (page_sequence !! n) as [page|] eqn:Hn.
    + destruct (lfu_request frames page_sequence n page self Hf Hn Hself)
        as (self' & Hself' & Hother & Hcase).
      exists self'. split; [done|]. intros p Hp.
      destruct (decide (p = page)) as [->|Hne].
      * destruct (Py.contains page (PRA.memory (LFU.super self))) eqn:Hin.
        -- apply contains_true in Hin. destruct Hcase as (_ & f & Hget & Hget').
           destruct (IH page Hin) as (k & Hk & Hcount).
           exists k. split.
           ++ apply inserted_at_keep; [done|].
              intros (_ & self0 & E0 & Hnot).
              assert (Ok self0 = Ok self) as [= ->] by (rewrite <- E0; exact Hself).
              done.
           ++ rewrite Hget'.
              rewrite (requests_between_succ _ k n _ page); [|destruct Hk; lia|done].
              rewrite bool_decide_eq_true_2 by done.
              rewrite Hget in Hcount. by injection Hcount as ->.
        -- apply contains_false in Hin. destruct Hcase as (Hget' & _).
           exists n. split.
           ++ apply inserted_at_now. split; [done|]. by exists self.
           ++ rewrite Hget'.
              rewrite (requests_between_succ _ n n _ page); [|lia|done].
              by rewrite requests_between_none, bool_decide_eq_true_2.
      * assert (p ∈ PRA.memory (LFU.super self)) as Hp0.
        { destruct (Py.contains page (PRA.memory (LFU.super self))).
          - destruct Hcase as (<- & _). done.
          - destruct Hcase as (_ & Hcase). destruct (PRA.full (LFU.super self)).
            + destruct Hcase as (before & victim & after & fv & -> & Hmem' & _).
              rewrite Hmem' in Hp. set_solver.
            + rewrite Hcase in Hp. set_solver. }
        destruct (IH p Hp0) as (k & Hk & Hcount).
        exists k. split.
        -- apply inserted_at_keep; [done|]. intros (Hn' & _). congruence.
        -- rewrite (Hother p Hne Hp), Hcount.
           rewrite (requests_between_succ _ k n _ page); [|destruct Hk; lia|done].
           rewrite bool_decide_eq_false_2 by done. f_equal. lia.
    + exists self. split; [by rewrite after_steps_past_end|].
      intros p Hp. destruct (IH p Hp) as (k & (Hk & Hfault & Hlast) & Hcount).
      exists k. split.
      * split_and!; [lia|done|]. intros j Hj.
        destruct (decide (j = n)) as [->|]; [|apply Hlast; lia].
        intros (Hn' & _). congruence.
      * by rewrite requests_between_past_end.
Qed.

(** X19: the frequency LFU keeps for a resident page is the number of
    requests for that page since the request that last brought it in, that
    request included. *)
Theorem lfu_frequency_counts_requests (frames : Z) (page_sequence : list Z)
    (n : nat) (self : LFU.t) :
  1 ≤ frames →
  after_steps (policy_of cLFU) n frames page_sequence = Ok self →
  ∀ p, p ∈ PRA.memory (LFU.super self) →
    ∃ k, inserted_at (policy_of cLFU) frames page_sequence n p k ∧
         Py.get (LFU.page_frequency self) p =
           Ok (requests_between page_sequence k n p).
Proof.
  intros Hf Hself.
  destruct (lfu_frequencies frames page_sequence n Hf) as (self0 & E0 & H).
  assert (Ok self0 = Ok self) as [= ->] by (rewrite <- E0; exact Hself).
  exact H.
Qed.

Lemma lfu_frequency_counts_requests_witness :
  let self := LFU.mk (PRA.mk 3 [1; 2; 5] 7 2 4) [(1, 2); (2, 2); (5, 1)] in
  1 ≤ 3 ∧
  after_steps (policy_of cLFU) 9 3 example_trace = Ok self ∧
  ∀ p, p ∈ PRA.memory (LFU.super self) →
    ∃ k, inserted_at (policy_of cLFU) 3 example_trace 9 p k ∧
         Py.get (LFU.page_frequency self) p = Ok (requests_between example_trace k 9 p).
Proof.
  intros self. split; [lia|]. split; [by vm_compute|].
  refine (lfu_frequency_counts_requests 3 example_trace 9 self _ _); [lia|by vm_compute].
Defined.

(** ** How the memory fills *)

Lemma after_steps_fill (c : alg_class) (frames : Z) (page_sequence : list Z) (n : nat) :
  1 ≤ frames →
  ∃ self, after_steps (policy_of c) n frames page_sequence = Ok self ∧
          let mem := PRA.memory (attrs (policy_of c) self) in
          Py.len mem ≤ frames ∧ NoDup mem ∧
          (∀ p, p ∈ mem → p ∈ take n page_sequence) ∧
          (Py.len mem < frames → ∀ p, p ∈ take n page_sequence → p ∈ mem).
Proof.
  intros Hf.
  destruct (after_steps_invariant c frames page_sequence
              (fun k self => let mem := PRA.memory (attrs (policy_of c) self) in
                 NoDup mem ∧ (∀ p, p ∈ mem → p ∈ take k page_sequence) ∧
                 (Py.len mem < frames → ∀ p, p ∈ take k page_sequence → p ∈ mem)) Hf)
    with (n := n) as (self & Hself & HI & Hfr & HJ).
  - rewrite (new_attrs _ _ (lawful_policy c)). simpl.
    split_and!; [constructor|set_solver|]. intros _ p Hp. by rewrite take_0 in Hp.
  - intros k self self' page Hk _ _ _ Hfr Hon Heff (Hnd & Hsub & Hall). simpl.
    apply policy_memory_step, memory_step_facts in Hon as (Hin & Hfrom & Hnd').
    rewrite (take_S_r _ _ _ Hk). split_and!; [by apply Hnd'| |].
    + intros p [Hp| ->]%Hfrom; [|set_solver]. apply elem_of_app. left. by apply Hsub.
    + intros Hlt p Hp. unfold request_effect, hit_effect, fault_effect in Heff.
      unfold PRA.is_page_in_memory in Heff.
      destruct (Py.contains page (PRA.memory (attrs (policy_of c) self))) eqn:Hhit.
      * rewrite Heff in *. simpl in *. apply contains_true in Hhit.
        apply elem_of_app in Hp as [Hp| ->%list_elem_of_singleton]; [by apply Hall|done].
      * destruct Heff as (_ & _ & _ & Hcase).
        destruct (PRA.full (attrs (policy_of c) self)) eqn:Hfull.
        -- apply full_true in Hfull. destruct Hcase as (_ & Hlen & _).
           unfold Py.len in *. lia.
        -- destruct Hcase as (_ & Hmem'). rewrite Hmem' in *. rewrite len_app_one in Hlt.
           apply elem_of_app in Hp as [Hp| ->%list_elem_of_singleton]; [|set_solver].
           apply elem_of_app. left. apply Hall; [lia|done].
  - intros k self Hk HJ. apply lookup_ge_None in Hk.
    by rewrite (take_ge _ (S k)), <- (take_ge page_sequence k) by lia.
  - exists self. split; [done|]. simpl.
    apply (inv_capacity _ _ (lawful_policy c)) in HI as [_ Hcap]. rewrite Hfr in Hcap.
    by destruct HJ as (? & ? & ?).
Qed.

(** X20: for each of the six policies and a capacity of at least one frame,
    the number of resident pages after any number of requests is the
    smaller of the capacity and the number of distinct pages requested so
    far: the memory fills up before anything is replaced and stays full
    from then on. *)
Theorem memory_fills_then_stays_full (c : alg_class) (frames : Z)
    (page_sequence : list Z) (n : nat) (self : state (policy_of c)) :
  1 ≤ frames →
  after_steps (policy_of c) n frames page_sequence = Ok self →
  Py.len (PRA.memory (attrs (policy_of c) self)) =
  frames `min` Py.len (distinct_pages (take n page_sequence)).
Proof.
  intros Hf Hself.
  destruct (after_steps_fill c frames page_sequence n Hf) as (self0 & E0 & H).
  assert (Ok self0 = Ok self) as [= ->] by (rewrite <- E0; exact Hself).
  simpl in H. destruct H as (Hcap & Hnd & Hsub & Hall).
  destruct (distinct_pages_spec (take n page_sequence)) as [Hnd' Hin].
  assert (Py.len (PRA.memory (attrs (policy_of c) self)) ≤
          Py.len (distinct_pages (take n page_sequence))) as Hle.
  { unfold Py.len. apply inj_le, submseteq_length, NoDup_submseteq; [done|].
    intros p Hp. by apply Hin, Hsub. }
  destruct (decide (Py.len (PRA.memory (attrs (policy_of c) self)) < frames)) as [Hlt|Hge].
  - assert (Py.len (distinct_pages (take n page_sequence)) ≤
            Py.len (PRA.memory (attrs (policy_of c) self))) as Hle'.
    { unfold Py.len. apply inj_le, submseteq_length, NoDup_submseteq; [done|].
      intros p Hp. by apply Hall, Hin. }
    lia.
  - lia.
Qed.

Lemma memory_fills_then_stays_full_witness :
  let self : state (policy_of cFIFO) := FIFO.mk (PRA.mk 3 [1; 2] 2 0 0) [1; 2] in
  1 ≤ 3 ∧
  after_steps (policy_of cFIFO) 2 3 example_trace = Ok self ∧
  Py.len (PRA.memory (attrs (policy_of cFIFO) self)) =
  3 `min` Py.len (distinct_pages (take 2 example_trace)).
Proof.
  intros self. split; [lia|]. split; [by vm_compute|].
  refine (memory_fills_then_stays_full cFIFO 3 example_trace 2 self _ _); [lia|by vm_compute].
Defined.
